(** * Rangy text-range module: a shallow embedding and its properties

    The definitions follow [src/js/modules/rangy-textrange-old.js] function by
    function (the minified [dev/rangy-textrange.js] shares the iterator and
    [movePositionBy] logic) and [src/js/modules/selectionsaverestore.js].

    - A JavaScript string is a list of UTF-16 code units ([jsstring]); a
      "character" is a string of length at most one, as [charAt] returns it.
    - The document is a rose tree; a node handle is a zipper ([Loc]) so that
      [parentNode], [previousSibling] and [childNodes] are all available from
      the handle, as they are from a DOM node.
    - A call that may raise returns a [result]; [null]/[undefined] is [None].
    - A [while] loop is a fixpoint on a fuel that is computed from the size
      of the document. *)

From Stdlib Require Import String Ascii.
From Stdlib Require Import ZArith NArith Bool Lia Arith List.
Import ListNotations.
Open Scope string_scope.
Open Scope list_scope.
Open Scope nat_scope.
Set Warnings "-register-all".

(** ** JavaScript values *)

Definition jschar := N.
Definition jsstring := list jschar.

Fixpoint js (s : string) : jsstring :=
  match s with
  | EmptyString => []
  | String a r => N_of_ascii a :: js r
  end.

Definition jsstring_eqb (a b : jsstring) : bool :=
  if list_eq_dec N.eq_dec a b then true else false.

(** [s.charAt(i)]: the empty string out of range. *)
Definition charAt (s : jsstring) (i : nat) : jsstring :=
  match nth_error s i with Some c => [c] | None => [] end.

(** [/^[class]+$/.test(s)] *)
Definition test_plus (cls : jschar -> bool) (s : jsstring) : bool :=
  match s with [] => false | _ => forallb cls s end.

Definition inN (c : jschar) (l : list N) : bool := existsb (N.eqb c) l.
Definition between (lo hi c : N) : bool := (lo <=? c)%N && (c <=? hi)%N.

(** [var spacesRegex = /^[ \t\f\r\n]+$/] *)
Definition spacesClass (c : jschar) : bool := inN c [32; 9; 12; 13; 10]%N.
Definition spacesRegex := test_plus spacesClass.
(** [var spacesMinusLineBreaksRegex = /^[ \t\f\r]+$/] *)
Definition spacesMinusLineBreaksClass (c : jschar) : bool := inN c [32; 9; 12; 13]%N.
Definition spacesMinusLineBreaksRegex := test_plus spacesMinusLineBreaksClass.
(** [allWhiteSpaceRegex]: tab to carriage return, space, U+0085, U+00A0,
    U+1680, U+180E, U+2000 to U+200B, U+2028, U+2029, U+202F, U+205F, U+3000 *)
Definition allWhiteSpaceClass (c : jschar) : bool :=
  between 9 13 c || inN c [32; 133; 160; 5760; 6158]%N || between 8192 8203 c
  || inN c [8232; 8233; 8239; 8287; 12288]%N.
Definition allWhiteSpaceRegex := test_plus allWhiteSpaceClass.
(** [nonLineBreakWhiteSpaceRegex]: tab, space, U+00A0, U+1680, U+180E,
    U+2000 to U+200B, U+202F, U+205F, U+3000 *)
Definition nonLineBreakWhiteSpaceClass (c : jschar) : bool :=
  inN c [9; 32; 160; 5760; 6158]%N || between 8192 8203 c
  || inN c [8239; 8287; 12288]%N.
Definition nonLineBreakWhiteSpaceRegex := test_plus nonLineBreakWhiteSpaceClass.

Definition lower_ascii (a : ascii) : ascii :=
  let n := nat_of_ascii a in
  if (65 <=? n) && (n <=? 90) then ascii_of_nat (n + 32) else a.

(** [String.prototype.toLowerCase] on tag names and CSS keywords (ASCII). *)
Fixpoint toLowerCase (s : string) : string :=
  match s with
  | EmptyString => EmptyString
  | String a r => String (lower_ascii a) (toLowerCase r)
  end.

(** [/^(a|b|...)$/i.test(s)] *)
Definition test_oneOf_i (names : list string) (s : string) : bool :=
  existsb (String.eqb (toLowerCase s)) names.
(** [/^(a|b|...)$/.test(s)] *)
Definition test_oneOf (names : list string) (s : string) : bool :=
  existsb (String.eqb s) names.

(** ** Exceptions *)

Inductive JsError :=
| TypeError
| ReferenceError
| ModuleError (msg : string)
| PlainError (msg : string)
| DOMException (name : string).

(** The outcome of a call: a value, an exception, or a loop that used up
    its fuel. *)
Inductive result (A : Type) :=
| Ret (a : A)
| Throw (e : JsError)
| OutOfFuel.
Arguments Ret {A} a.
Arguments Throw {A} e.
Arguments OutOfFuel {A}.

Definition bind {A B} (c : result A) (k : A -> result B) : result B :=
  match c with
  | Ret a => k a
  | Throw e => Throw e
  | OutOfFuel => OutOfFuel
  end.

Notation "x <- c ;; k" := (bind c (fun x => k))
  (at level 61, c at next level, right associativity).
Notation "' p <- c ;; k" := (bind c (fun x => let 'p := x in k))
  (at level 61, p pattern, c at next level, right associativity).

(** ** The document tree *)

(** The computed style the style oracle reports for an element. *)
Record Style := mkStyle {
  display : string;
  whiteSpace : string;
  visibility : string
}.

(** What a node that has child nodes is, without its children. *)
Inductive Shell :=
| ElementShell (tagName : string) (computedStyle : Style)
| DocumentShell
| FragmentShell.

Inductive Node :=
| Inner (sh : Shell) (children : list Node)
| Text (data : jsstring)
| Comment (data : jsstring)
| ProcessingInstruction (target : string) (data : jsstring)
| DocumentType (name : string).

(** One level of the path from a node up to the root: the siblings before it
    (nearest first), its parent's shell, the siblings after it. *)
Record Frame := mkFrame {
  lefts : list Node;
  shell : Shell;
  rights : list Node
}.

(** A node of a document: the subtree it roots and the way up. *)
Record Loc := mkLoc {
  focus : Node;
  context : list Frame
}.

Definition rootLoc (d : Node) : Loc := mkLoc d [].

Definition nodeType (n : Loc) : nat :=
  match focus n with
  | Inner (ElementShell _ _) _ => 1
  | Text _ => 3
  | ProcessingInstruction _ _ => 7
  | Comment _ => 8
  | Inner DocumentShell _ => 9
  | DocumentType _ => 10
  | Inner FragmentShell _ => 11
  end.

Definition nodeName (n : Loc) : string :=
  match focus n with
  | Inner (ElementShell t _) _ => t
  | Text _ => "#text"
  | ProcessingInstruction t _ => t
  | Comment _ => "#comment"
  | Inner DocumentShell _ => "#document"
  | DocumentType nm => nm
  | Inner FragmentShell _ => "#document-fragment"
  end.

Definition childNodes (n : Loc) : list Node :=
  match focus n with Inner _ cs => cs | _ => [] end.

(** [node.data]; [None] is [undefined]. *)
Definition nodeData (n : Loc) : option jsstring :=
  match focus n with
  | Text d | Comment d | ProcessingInstruction _ d => Some d
  | _ => None
  end.

Definition parentNode (n : Loc) : option Loc :=
  match context n with
  | [] => None
  | f :: up => Some (mkLoc (Inner (shell f) (rev (lefts f) ++ focus n :: rights f)) up)
  end.

(** [node.childNodes[i]] *)
Definition childNode (n : Loc) (i : nat) : option Loc :=
  match focus n with
  | Inner sh cs =>
      match nth_error cs i with
      | Some c => Some (mkLoc c (mkFrame (rev (firstn i cs)) sh (skipn (S i) cs) :: context n))
      | None => None
      end
  | _ => None
  end.

Definition hasChildNodes (n : Loc) : bool :=
  match childNodes n with [] => false | _ => true end.
Definition firstChild (n : Loc) : option Loc := childNode n 0.
Definition lastChild (n : Loc) : option Loc := childNode n (length (childNodes n) - 1).

Definition nextSibling (n : Loc) : option Loc :=
  match context n with
  | f :: up =>
      match rights f with
      | x :: r => Some (mkLoc x (mkFrame (focus n :: lefts f) (shell f) r :: up))
      | [] => None
      end
  | [] => None
  end.

Definition previousSibling (n : Loc) : option Loc :=
  match context n with
  | f :: up =>
      match lefts f with
      | x :: l => Some (mkLoc x (mkFrame l (shell f) (focus n :: rights f) :: up))
      | [] => None
      end
  | [] => None
  end.

(** [dom.getNodeIndex(node)]: the number of previous siblings. *)
Definition getNodeIndex (n : Loc) : nat :=
  match context n with f :: _ => length (lefts f) | [] => 0 end.

(** The child indices from the node up to the root: two handles of one
    document denote the same node exactly when their paths agree. *)
Definition pathOf (n : Loc) : list nat := map (fun f => length (lefts f)) (context n).

(** [a === b] on nodes of one document. *)
Definition node_eqb (a b : Loc) : bool :=
  if list_eq_dec Nat.eq_dec (pathOf a) (pathOf b) then true else false.

Definition optnode_eqb (a b : option Loc) : bool :=
  match a, b with
  | Some x, Some y => node_eqb x y
  | None, None => true
  | _, _ => false
  end.

(** The node at a path given from the root down. *)
Fixpoint nodeAt (n : Loc) (path : list nat) : option Loc :=
  match path with
  | [] => Some n
  | i :: rest => match childNode n i with Some c => nodeAt c rest | None => None end
  end.

(** [dom.isCharacterDataNode]: Text, CDATA section or Comment. *)
Definition isCharacterDataNode (n : Loc) : bool :=
  let t := nodeType n in (t =? 3) || (t =? 4) || (t =? 8).

(** [dom.getNodeLength] *)
Definition getNodeLength (n : Loc) : nat :=
  match focus n with
  | Text d | Comment d => length d
  | Inner _ cs => length cs
  | _ => 0
  end.

(** The number of boundary points in a subtree and of nodes in it: the
    bounds of the loops that walk the document. *)
Fixpoint positionCount (n : Node) : nat :=
  match n with
  | Inner _ cs => S (length cs) + list_sum (map positionCount cs)
  | Text d | Comment d => S (length d)
  | _ => 1
  end.

Fixpoint rootNode (foc : Node) (ctx : list Frame) : Node :=
  match ctx with
  | [] => foc
  | f :: up => rootNode (Inner (shell f) (rev (lefts f) ++ foc :: rights f)) up
  end.

Definition documentOf (n : Loc) : Node := rootNode (focus n) (context n).

Definition walkFuel (n : Loc) : nat := 2 * positionCount (documentOf n) + 2.

(** ** Visibility and white-space classifier *)

Section TextRange.

(** [api.features.tableCssDisplayBlock]: old IE reports "block" for table
    elements. *)
Variable tableCssDisplayBlock : bool.

(** [trailingSpaceInBlockCollapses], [trailingSpaceBeforeBrCollapses]: the
    feature tests are commented out in the source, both stay [true]. *)
Definition trailingSpaceInBlockCollapses := true.
Definition trailingSpaceBeforeBrCollapses := true.

(** [getComputedStyleProperty(el, propName)]: the style oracle answers for
    elements only; asked about any other node the host raises. *)
Definition getComputedStyleProperty (el : Loc) (prop : Style -> string) : result string :=
  match focus el with
  | Inner (ElementShell _ st) _ => Ret (prop st)
  | _ => Throw TypeError
  end.

(** The same for a node already known to be an element. *)
Definition styleOf (el : Loc) (prop : Style -> string) : string :=
  match focus el with
  | Inner (ElementShell _ st) _ => prop st
  | _ => ""
  end.

Definition defaultDisplayValueForTag : list (string * string) :=
  [("table", "table"); ("caption", "table-caption"); ("colgroup", "table-column-group");
   ("col", "table-column"); ("thead", "table-header-group"); ("tbody", "table-row-group");
   ("tfoot", "table-footer-group"); ("tr", "table-row"); ("td", "table-cell");
   ("th", "table-cell")].

Fixpoint assoc (k : string) (l : list (string * string)) : option string :=
  match l with
  | [] => None
  | (k', v) :: r => if String.eqb k k' then Some v else assoc k r
  end.

(** Corrects IE's "block" value for table-related elements. *)
Definition getComputedDisplay (el : Loc) : string :=
  let display := styleOf el display in
  let tagName := toLowerCase (nodeName el) in
  match assoc tagName defaultDisplayValueForTag with
  | Some v => if String.eqb display "block" && tableCssDisplayBlock then v else display
  | None => display
  end.

Definition isBlockNode (node : option Loc) : bool :=
  match node with
  | None => false
  | Some n =>
      ((nodeType n =? 1)
       && negb (test_oneOf ["inline"; "inline-block"; "inline-table"; "none"] (getComputedDisplay n)))
      || (nodeType n =? 9) || (nodeType n =? 11)
  end.

Definition containsPositions (node : Loc) : bool :=
  isCharacterDataNode node
  || negb (test_oneOf_i ["area"; "base"; "basefont"; "br"; "col"; "frame"; "hr"; "img";
                         "input"; "isindex"; "link"; "meta"; "param"] (nodeName node)).

(** [getAncestors]: the ancestors, the root first. *)
Fixpoint ancestorsUp (foc : Node) (ctx : list Frame) : list Loc :=
  match ctx with
  | [] => []
  | f :: up =>
      let parent := Inner (shell f) (rev (lefts f) ++ foc :: rights f) in
      ancestorsUp parent up ++ [mkLoc parent up]
  end.

Definition getAncestors (node : Loc) : list Loc := ancestorsUp (focus node) (context node).
Definition getAncestorsAndSelf (node : Loc) : list Loc := getAncestors node ++ [node].

(** [isHtmlElement(node, tagName)] with a string: every element of the model
    is an HTML element. *)
Definition isHtmlElement (node : option Loc) (tagNames : string) : bool :=
  match node with
  | None => false
  | Some n => (nodeType n =? 1) && String.eqb (toLowerCase (nodeName n)) (toLowerCase tagNames)
  end.

Fixpoint nextNodeDescendantsUp (foc : Node) (ctx : list Frame) : option Loc :=
  match ctx with
  | [] => None
  | f :: up =>
      match rights f with
      | x :: r => Some (mkLoc x (mkFrame (foc :: lefts f) (shell f) r :: up))
      | [] => nextNodeDescendantsUp (Inner (shell f) (rev (lefts f) ++ foc :: rights f)) up
      end
  end.

(** [while (node && !node.nextSibling) node = node.parentNode] *)
Definition nextNodeDescendants (node : Loc) : option Loc :=
  nextNodeDescendantsUp (focus node) (context node).

Definition nextNode (node : Loc) (excludeChildren : bool) : option Loc :=
  if negb excludeChildren && hasChildNodes node then firstChild node
  else nextNodeDescendants node.

(** [while (node.hasChildNodes()) node = node.lastChild] *)
Fixpoint lastDescendant (foc : Node) (ctx : list Frame) : Loc :=
  match foc with
  | Inner sh cs =>
      (fix go (before : list Node) (rest : list Node) {struct rest} : Loc :=
         match rest with
         | [] => mkLoc foc ctx
         | [x] => lastDescendant x (mkFrame before sh [] :: ctx)
         | x :: r => go (x :: before) r
         end) [] cs
  | _ => mkLoc foc ctx
  end.

Definition previousNode (node : Loc) : option Loc :=
  match previousSibling node with
  | Some previous => Some (lastDescendant (focus previous) (context previous))
  | None =>
      match parentNode node with
      | Some parent => if nodeType parent =? 1 then Some parent else None
      | None => None
      end
  end.

Definition isHidden (node : Loc) : bool :=
  existsb (fun a => (nodeType a =? 1) && String.eqb (getComputedDisplay a) "none")
          (getAncestorsAndSelf node).

Definition isVisibilityHiddenTextNode (textNode : Loc) : result bool :=
  if nodeType textNode =? 3 then
    match parentNode textNode with
    | Some el => v <- getComputedStyleProperty el visibility ;; Ret (String.eqb v "hidden")
    | None => Ret false
    end
  else Ret false.

Definition isWhitespaceNode (node : option Loc) : bool :=
  match node with
  | None => false
  | Some n =>
      match focus n with
      | Text text =>
          match text with
          | [] => true
          | _ =>
              match parentNode n with
              | Some parent =>
                  if nodeType parent =? 1 then
                    let computedWhiteSpace := styleOf parent whiteSpace in
                    (test_plus (fun c => inN c [9; 10; 13; 32]%N) text
                     && test_oneOf ["normal"; "nowrap"] computedWhiteSpace)
                    || (test_plus (fun c => inN c [9; 13; 32]%N) text
                        && String.eqb computedWhiteSpace "pre-line")
                  else false
              | None => false
              end
          end
      | _ => false
      end
  end.

(** [while (!isBlockNode(ancestor) && ancestor.parentNode) ancestor = ancestor.parentNode] *)
Fixpoint blockAncestorUp (foc : Node) (ctx : list Frame) : Loc :=
  if isBlockNode (Some (mkLoc foc ctx)) then mkLoc foc ctx
  else match ctx with
       | [] => mkLoc foc ctx
       | f :: up => blockAncestorUp (Inner (shell f) (rev (lefts f) ++ foc :: rights f)) up
       end.

(** The first loop of [isCollapsedWhitespaceNode]: [Ret true] is its
    [return true], [Ret false] a [break] or the end of the loop. *)
Fixpoint scanBefore (fuel : nat) (ancestor reference : Loc) : result bool :=
  if node_eqb reference ancestor then Ret false
  else match fuel with
       | 0 => OutOfFuel
       | S fuel' =>
           let reference := previousNode reference in
           if isBlockNode reference || isHtmlElement reference "br" then Ret true
           else match reference with
                | None => Throw TypeError
                | Some r =>
                    if ((nodeType r =? 3) && negb (isWhitespaceNode reference))
                       || isHtmlElement reference "img"
                    then Ret false
                    else scanBefore fuel' ancestor r
                end
       end.

(** The second loop, up to [stop = nextNodeDescendants(ancestor)]. *)
Fixpoint scanAfter (fuel : nat) (stop reference : option Loc) : result bool :=
  if optnode_eqb reference stop then Ret false
  else match fuel with
       | 0 => OutOfFuel
       | S fuel' =>
           match reference with
           | None => Throw TypeError
           | Some r =>
               let reference := nextNode r false in
               if isBlockNode reference || isHtmlElement reference "br" then Ret true
               else if (match reference with
                        | Some r' => (nodeType r' =? 3) && negb (isWhitespaceNode reference)
                        | None => false
                        end) || isHtmlElement reference "img"
               then Ret false
               else scanAfter fuel' stop reference
           end
       end.

Definition isCollapsedWhitespaceNode (node : Loc) : result bool :=
  match nodeData node with
  | Some [] => Ret true
  | _ =>
      if negb (isWhitespaceNode (Some node)) then Ret false
      else match parentNode node with
           | None => Ret true
           | Some parent =>
               if isHidden node then Ret true
               else
                 let ancestor := blockAncestorUp (focus parent) (context parent) in
                 before <- scanBefore (walkFuel node) ancestor node ;;
                 if before then Ret true
                 else scanAfter (walkFuel node) (nextNodeDescendants ancestor) (Some node)
           end
  end.

Definition isCollapsedNode (node : Loc) : result bool :=
  let type := nodeType node in
  if (type =? 7) || (type =? 8) || isHidden node
     || test_oneOf_i ["script"; "style"] (nodeName node)
  then Ret true
  else
    hiddenText <- isVisibilityHiddenTextNode node ;;
    if hiddenText then Ret true else isCollapsedWhitespaceNode node.

Definition isIgnoredNode (node : Loc) : bool :=
  let type := nodeType node in
  (type =? 7) || (type =? 8) || ((type =? 1) && String.eqb (getComputedDisplay node) "none").

Fixpoint hasInnerTextAt (foc : Node) (ctx : list Frame) {struct foc} : result bool :=
  collapsed <- isCollapsedNode (mkLoc foc ctx) ;;
  if collapsed then Ret false
  else match foc with
       | Text _ => Ret true
       | Inner sh cs =>
           (fix go (before rest : list Node) {struct rest} : result bool :=
              match rest with
              | [] => Ret false
              | x :: r =>
                  h <- hasInnerTextAt x (mkFrame before sh r :: ctx) ;;
                  if h then Ret true else go (x :: before) r
              end) [] cs
       | _ => Ret false
       end.

Definition hasInnerText (node : Loc) : result bool := hasInnerTextAt (focus node) (context node).

(** The character a [TextPosition] carries. *)
Definition newline : jsstring := [10%N].
Definition tab : jsstring := [9%N].
Definition space : jsstring := [32%N].

Fixpoint getTrailingSpaceAt (foc : Node) (ctx : list Frame) {struct foc} : result jsstring :=
  let el := mkLoc foc ctx in
  if String.eqb (toLowerCase (nodeName el)) "br" then Ret []
  else
    let d := getComputedDisplay el in
    if String.eqb d "inline" then
      match foc with
      | Inner sh cs =>
          (* [el.lastChild], then [previousSibling] while the child is
             ignored: the answer of the last child that is not ignored,
             found in one pass from the first child with the answer delayed *)
          (fix go (answer : unit -> result jsstring) (before rest : list Node)
               {struct rest} : result jsstring :=
             match rest with
             | [] => answer tt
             | x :: r =>
                 let child := mkLoc x (mkFrame before sh r :: ctx) in
                 if negb (isIgnoredNode child) then
                   go (fun _ => if nodeType child =? 1
                                then getTrailingSpaceAt x (mkFrame before sh r :: ctx)
                                else Ret [])
                      (x :: before) r
                 else go answer (x :: before) r
             end) (fun _ => Ret []) [] cs
      | _ => Ret []
      end
    else if test_oneOf ["inline-block"; "inline-table"; "none"; "table-column";
                        "table-column-group"] d then Ret []
    else if String.eqb d "table-cell" then Ret tab
    else h <- hasInnerText el ;; Ret (if h then newline else []).

Definition getTrailingSpace (el : Loc) : result jsstring :=
  getTrailingSpaceAt (focus el) (context el).

Definition getLeadingSpace (el : Loc) : result jsstring :=
  if test_oneOf ["inline"; "inline-block"; "inline-table"; "none"; "table-column";
                 "table-column-group"; "table-cell"] (getComputedDisplay el)
  then Ret []
  else h <- hasInnerText el ;; Ret (if h then newline else []).

(** ** Position graph *)

(** [new DomPosition(node, offset)]; the node is [None] when a position is
    built from the [parentNode] of a root. *)
Record DomPosition := mkPos {
  node : option Loc;
  offset : nat
}.

Definition posAt (n : Loc) (o : nat) : DomPosition := mkPos (Some n) o.

(** [pos.equals(other)] *)
Definition pos_equals (a : DomPosition) (b : option DomPosition) : bool :=
  match b with
  | Some b' => optnode_eqb (node a) (node b') && (offset a =? offset b')
  | None => false
  end.

Definition nextPosition (pos : DomPosition) : result (option DomPosition) :=
  match node pos with
  | None => Ret None
  | Some n =>
      if offset pos =? getNodeLength n then
        (* Move onto the next node *)
        match parentNode n with
        | Some nextNode => Ret (Some (posAt nextNode (getNodeIndex n + 1)))
        | None => Ret None
        end
      else if isCharacterDataNode n then Ret (Some (posAt n (offset pos + 1)))
      else
        match childNode n (offset pos) with
        | None => Throw TypeError
        | Some child =>
            (* Go into the children next, if children there are *)
            if containsPositions child then Ret (Some (posAt child 0))
            else Ret (Some (posAt n (offset pos + 1)))
        end
  end.

Definition previousPosition (pos : option DomPosition) : result (option DomPosition) :=
  match pos with
  | None => Ret None
  | Some pos =>
      match node pos with
      | None => Throw TypeError
      | Some n =>
          if offset pos =? 0 then
            match parentNode n with
            | Some previousNode => Ret (Some (posAt previousNode (getNodeIndex n)))
            | None => Ret None
            end
          else if isCharacterDataNode n then Ret (Some (posAt n (offset pos - 1)))
          else
            match childNode n (offset pos - 1) with
            | None => Throw TypeError
            | Some child =>
                if containsPositions child then Ret (Some (posAt child (getNodeLength child)))
                else Ret (Some (posAt n (offset pos - 1)))
            end
      end
  end.

(** [isCollapsedNode(pos.node)] of a position some function returned. *)
Definition isCollapsedNodeOf (pos : DomPosition) : result bool :=
  match node pos with
  | Some n => isCollapsedNode n
  | None => Throw TypeError
  end.

Definition nextVisiblePosition (pos : DomPosition) : result (option DomPosition) :=
  next <- nextPosition pos ;;
  match next with
  | None => Ret None
  | Some next =>
      collapsed <- isCollapsedNodeOf next ;;
      match node next with
      | Some n =>
          if collapsed
          then (* We're skipping this node and all its descendants *)
               Ret (Some (mkPos (parentNode n) (getNodeIndex n + 1)))
          else Ret (Some next)
      | None => Throw TypeError
      end
  end.

Definition previousVisiblePosition (pos : option DomPosition) : result (option DomPosition) :=
  previous <- previousPosition pos ;;
  match previous with
  | None => Ret None
  | Some previous =>
      collapsed <- isCollapsedNodeOf previous ;;
      match node previous with
      | Some n =>
          if collapsed
          then Ret (Some (mkPos (parentNode n) (getNodeIndex n)))
          else Ret (Some previous)
      | None => Throw TypeError
      end
  end.

(** The fuel of a loop that walks positions from [pos]. *)
Definition posFuel (pos : DomPosition) : nat :=
  match node pos with Some n => walkFuel n | None => 2 end.

(** ** Character materializer *)

Record TextPosition := mkTextPosition {
  character : jsstring;
  position : DomPosition;
  isLeadingSpace : bool;
  isTrailingSpace : bool;
  isBr : bool;
  collapsible : bool
}.

Definition setCharacter (t : TextPosition) (c : jsstring) : TextPosition :=
  mkTextPosition c (position t) (isLeadingSpace t) (isTrailingSpace t) (isBr t) (collapsible t).

(** A truthy string is a non-empty one. *)
Definition truthy (s : jsstring) : bool := match s with [] => false | _ => true end.

Definition collapsesPrecedingSpace (t : TextPosition) : bool :=
  jsstring_eqb (character t) newline
  && ((isBr t && trailingSpaceBeforeBrCollapses)
      || (isTrailingSpace t && trailingSpaceInBlockCollapses)).

(** Character options: [collapseSpaceBeforeLineBreak] is the documented one;
    [collapseSpaces] is read by [getPossibleCharacterAt] and is unset in the
    defaults. *)
Record CharacterOptions := mkCharacterOptions {
  collapseSpaceBeforeLineBreak : bool;
  collapseSpaces : bool
}.

Definition defaultCharacterOptions : CharacterOptions := mkCharacterOptions true false.

Record TextNodeProperties := mkTextNodeProperties {
  spaceRegex : jsstring -> bool;
  nodeCollapseSpaces : bool;
  preLine : bool
}.

Definition getTextNodeProperties (textNode : Loc) : result TextNodeProperties :=
  match parentNode textNode with
  | None => Throw TypeError
  | Some parent =>
      cssWhitespace <- getComputedStyleProperty parent whiteSpace ;;
      let preLine := String.eqb cssWhitespace "pre-line" in
      if preLine then Ret (mkTextNodeProperties spacesMinusLineBreaksRegex true preLine)
      else if String.eqb cssWhitespace "normal" || String.eqb cssWhitespace "nowrap"
      then Ret (mkTextNodeProperties spacesRegex true preLine)
      else Ret (mkTextNodeProperties (fun _ => false) false preLine)
  end.

(** [getPossibleCharacterAt(pos, transaction, options)]; [options] is
    [None] when the caller leaves the argument out. *)
Definition getPossibleCharacterAt (pos : DomPosition) (options : option CharacterOptions)
  : result TextPosition :=
  if 0 <? offset pos then
    match node pos with
    | None => Throw TypeError
    | Some n =>
        match focus n with
        | Text text =>
            let textChar := charAt text (offset pos - 1) in
            nodeInfo <- getTextNodeProperties n ;;
            let spaceRegex := spaceRegex nodeInfo in
            if nodeCollapseSpaces nodeInfo then
              if spaceRegex textChar then
                if (1 <? offset pos) && spaceRegex (charAt text (offset pos - 2))
                then Ret (mkTextPosition [] pos false false false true)
                else if preLine nodeInfo && jsstring_eqb (charAt text (offset pos)) newline
                        && trailingSpaceBeforeBrCollapses
                then match options with
                     | None => Throw TypeError
                     | Some o =>
                         if collapseSpaces o
                         then Ret (mkTextPosition [] pos false false false true)
                         else Ret (mkTextPosition space pos false false false true)
                     end
                else Ret (mkTextPosition space pos false false false true)
              else Ret (mkTextPosition textChar pos false false false false)
            else Ret (mkTextPosition textChar pos false false false false)
        | _ =>
            passed <-
              match childNode n (offset pos - 1) with
              | Some nodePassed =>
                  if nodeType nodePassed =? 1 then
                    collapsed <- isCollapsedNode nodePassed ;;
                    if collapsed then Ret (mkTextPosition [] pos false false false false)
                    else if String.eqb (toLowerCase (nodeName nodePassed)) "br"
                    then Ret (mkTextPosition newline pos false false true false)
                    else
                      visibleChar <- getTrailingSpace nodePassed ;;
                      if truthy visibleChar
                      then Ret (mkTextPosition visibleChar pos false true false true)
                      else Ret (mkTextPosition visibleChar pos false false false false)
                  else Ret (mkTextPosition [] pos false false false false)
              | None => Ret (mkTextPosition [] pos false false false false)
              end ;;
            (* Check the leading space of the next node for the case when a
               block element follows an inline element or text node. *)
            if negb (truthy (character passed)) then
              match childNode n (offset pos) with
              | Some nextNode =>
                  if nodeType nextNode =? 1 then
                    collapsed <- isCollapsedNode nextNode ;;
                    if collapsed then Ret passed
                    else
                      visibleChar <- getLeadingSpace nextNode ;;
                      if truthy visibleChar
                      then Ret (mkTextPosition visibleChar pos true false false false)
                      else Ret (setCharacter passed visibleChar)
                  else Ret passed
              | None => Ret passed
              end
            else Ret passed
        end
    end
  else Ret (mkTextPosition [] pos false false false false).

(** [while ( (nextPos = nextVisiblePosition(nextPos)) )] of
    [getNextPossibleCharacter] *)
Fixpoint getNextPossibleCharacterLoop (fuel : nat) (nextPos : DomPosition)
  : result (option TextPosition) :=
  match fuel with
  | 0 => OutOfFuel
  | S fuel' =>
      nextPos <- nextVisiblePosition nextPos ;;
      match nextPos with
      | None => Ret None
      | Some nextPos =>
          next <- getPossibleCharacterAt nextPos None ;;
          if truthy (character next) then Ret (Some next)
          else getNextPossibleCharacterLoop fuel' nextPos
      end
  end.

Definition getNextPossibleCharacter (pos : DomPosition) : result (option TextPosition) :=
  getNextPossibleCharacterLoop (posFuel pos) pos.

(** The loop of [getCharacterAt] that works backwards until a non-space
    character; [precedingChars.unshift] puts each one found in front. *)
Fixpoint precedingCharsLoop (fuel : nat) (previousPos : DomPosition)
         (precedingChars : list TextPosition) : result (list TextPosition) :=
  match fuel with
  | 0 => OutOfFuel
  | S fuel' =>
      previousPos <- previousVisiblePosition (Some previousPos) ;;
      match previousPos with
      | None => Ret precedingChars
      | Some previousPos =>
          previous <- getPossibleCharacterAt previousPos None ;;
          let previousPossibleChar := character previous in
          if truthy previousPossibleChar then
            if negb (jsstring_eqb previousPossibleChar space)
               && negb (jsstring_eqb previousPossibleChar newline)
            then Ret (previous :: precedingChars)
            else precedingCharsLoop fuel' previousPos (previous :: precedingChars)
          else precedingCharsLoop fuel' previousPos precedingChars
      end
  end.

Definition getCharacterAt (pos : DomPosition) (precedingChars : option (list TextPosition))
           (options : CharacterOptions) : result TextPosition :=
  possible <- getPossibleCharacterAt pos None ;;
  let possibleChar := character possible in
  if truthy possibleChar && spacesRegex possibleChar then
    precedingChars <-
      match precedingChars with
      | Some l => Ret l
      | None => precedingCharsLoop (posFuel pos) pos []
      end ;;
    let preceding := last (map Some precedingChars) None in
    (* Disallow a collapsible space that follows a trailing space or line
       break, or is the first character *)
    if jsstring_eqb possibleChar space && collapsible possible
       && match preceding with
          | None => true
          | Some p => isTrailingSpace p || jsstring_eqb (character p) newline
          end
    then Ret (setCharacter possible [])
    else if collapsible possible then
      (* Disallow a collapsible space that is followed by a line break or is
         the last character *)
      next <- getNextPossibleCharacter pos ;;
      match next with
      | None => Ret (setCharacter possible [])
      | Some nx =>
          if jsstring_eqb (character nx) newline && collapseSpaceBeforeLineBreak options
             && collapsesPrecedingSpace nx
          then Ret (setCharacter possible [])
          else Ret possible
      end
    else if jsstring_eqb possibleChar newline then
      (* Collapse a br element that is followed by a trailing space *)
      next <- getNextPossibleCharacter pos ;;
      match next with
      | None => Ret (setCharacter possible [])
      | Some nx => if isTrailingSpace nx then Ret (setCharacter possible []) else Ret possible
      end
    else Ret possible
  else Ret possible.

(** ** Character iterator *)

(** The variables the closures of [createCharacterIterator] share. *)
Record CharacterIterator := mkIterator {
  backward : bool;
  endPos : option DomPosition;
  characterOptions : CharacterOptions;
  pos : option DomPosition;
  finished : bool;
  previousTextPos : option TextPosition;
  returnPreviousTextPos : bool
}.

Definition createCharacterIterator (startPos : DomPosition) (backward : bool)
           (endPos : option DomPosition) (characterOptions : CharacterOptions)
  : result CharacterIterator :=
  (* Adjust the end position to ensure that it is actually reached *)
  endPos <-
    match endPos with
    | Some e =>
        collapsed <- isCollapsedNodeOf e ;;
        if collapsed then
          if backward then previousVisiblePosition (Some e) else nextVisiblePosition e
        else Ret (Some e)
    | None => Ret None
    end ;;
  Ret (mkIterator backward endPos characterOptions (Some startPos) false None false).

(** The inner [next()]: one position further, and the character there. *)
Definition iteratorStep (it : CharacterIterator) : result (option TextPosition * CharacterIterator) :=
  if finished it then Ret (None, it)
  else
    pos1 <-
      (if negb (backward it) then
         match pos it with
         | Some p => nextVisiblePosition p
         | None => Throw TypeError
         end
       else Ret (pos it)) ;;
    '(textPos, finished1) <-
      match pos1 with
      | Some p =>
          textPos <- getCharacterAt p None (characterOptions it) ;;
          Ret (Some textPos, match endPos it with
                             | Some _ => pos_equals p (endPos it)
                             | None => false
                             end)
      | None => Ret (None, true)
      end ;;
    pos2 <- (if backward it then previousVisiblePosition pos1 else Ret pos1) ;;
    Ret (textPos, mkIterator (backward it) (endPos it) (characterOptions it) pos2 finished1
                             (previousTextPos it) (returnPreviousTextPos it)).

(** [while ( (textPos = next()) ) if (textPos.character) ...] *)
Fixpoint iteratorNextLoop (fuel : nat) (it : CharacterIterator)
  : result (option TextPosition * CharacterIterator) :=
  match fuel with
  | 0 => OutOfFuel
  | S fuel' =>
      '(textPos, it) <- iteratorStep it ;;
      match textPos with
      | None => Ret (None, it)
      | Some t =>
          if truthy (character t)
          then Ret (Some t, mkIterator (backward it) (endPos it) (characterOptions it) (pos it)
                                       (finished it) (Some t) (returnPreviousTextPos it))
          else iteratorNextLoop fuel' it
      end
  end.

Definition iteratorFuel (it : CharacterIterator) : nat :=
  match pos it with Some p => posFuel p | None => 2 end.

(** [it.next()] *)
Definition iteratorNext (it : CharacterIterator) : result (option TextPosition * CharacterIterator) :=
  if returnPreviousTextPos it
  then Ret (previousTextPos it,
            mkIterator (backward it) (endPos it) (characterOptions it) (pos it) (finished it)
                       (previousTextPos it) false)
  else iteratorNextLoop (iteratorFuel it) it.

Definition rewindMessage : string :=
  "createCharacterIterator: cannot rewind. Only one position can be rewound.".

(** [it.rewind()] *)
Definition iteratorRewind (it : CharacterIterator) : result CharacterIterator :=
  match previousTextPos it with
  | Some _ => Ret (mkIterator (backward it) (endPos it) (characterOptions it) (pos it)
                              (finished it) (previousTextPos it) true)
  | None => Throw (ModuleError rewindMessage)
  end.

(** ** Regular expressions and the default tokenizer *)

(** The patterns a word regular expression is built from, with the
    backtracking priorities of JavaScript. *)
Inductive Pattern :=
| Empty
| Class (cls : jschar -> bool)
| Seq (a b : Pattern)
| Alt (a b : Pattern)
| Star (a : Pattern).

Definition Plus (a : Pattern) : Pattern := Seq a (Star a).

(** The iterations of [a*], greedy, at most [n] of them: an iteration that
    matches nothing is not taken. *)
Fixpoint starLoop (matchA : jsstring -> (jsstring -> option jsstring) -> option jsstring)
         (k : jsstring -> option jsstring) (n : nat) (s : jsstring) : option jsstring :=
  match n with
  | 0 => k s
  | S n' =>
      match matchA s (fun s' => if length s' <? length s then starLoop matchA k n' s' else None) with
      | Some x => Some x
      | None => k s
      end
  end.

(** [matchPattern r s k]: match [r] at the start of [s] and hand what is
    left to [k]; the first alternative that lets [k] succeed wins. *)
Fixpoint matchPattern (r : Pattern) (s : jsstring) (k : jsstring -> option jsstring)
  : option jsstring :=
  match r with
  | Empty => k s
  | Class cls => match s with c :: s' => if cls c then k s' else None | [] => None end
  | Seq a b => matchPattern a s (fun s' => matchPattern b s' k)
  | Alt a b => match matchPattern a s k with Some x => Some x | None => matchPattern b s k end
  | Star a => starLoop (matchPattern a) k (S (length s)) s
  end.

(** The leftmost match in [s], which starts at index [i] of the subject:
    its index and its length. *)
Fixpoint search (r : Pattern) (s : jsstring) (i : nat) : option (nat * nat) :=
  match matchPattern r s (fun rest => Some rest) with
  | Some rest => Some (i, length s - length rest)
  | None => match s with [] => None | _ :: t => search r t (S i) end
  end.

Record RegExp := mkRegExp {
  source : Pattern;
  global : bool
}.

(** [regex.exec(str)] with [regex.lastIndex = lastIndex]: the match, and the
    new [lastIndex]. *)
Definition exec (regex : RegExp) (str : jsstring) (lastIndex : nat) : option (nat * nat) * nat :=
  if global regex then
    if lastIndex <=? length str then
      match search (source regex) (skipn lastIndex str) lastIndex with
      | Some (index, len) => (Some (index, len), index + len)
      | None => (None, 0)
      end
    else (None, 0)
  else (search (source regex) str 0, lastIndex).

Record Token := mkToken {
  isWord : bool;
  chars : list TextPosition
}.

(** [chars.slice(start, end)] *)
Definition slice {A} (l : list A) (start stop : nat) : list A := firstn (stop - start) (skipn start l).

(** The arguments of one [createTokenFromRange(start, end, isWord)]. *)
Definition TokenRange : Type := nat * nat * bool.

Definition tokenOfRange (chars : list TextPosition) (r : TokenRange) : Token :=
  let '(start, stop, isWord) := r in mkToken isWord (slice chars start stop).

(** [String(chars[i])] tested against [nonLineBreakWhiteSpaceRegex]: an index
    out of range gives ["undefined"]. *)
Definition isTrailingSpaceChar (chars : list TextPosition) (i : nat) : bool :=
  match nth_error chars i with
  | Some c => nonLineBreakWhiteSpaceRegex (character c)
  | None => false
  end.

(** [while (nonLineBreakWhiteSpaceRegex.test(chars[wordEnd])) ++wordEnd] *)
Fixpoint skipTrailingSpace (fuel : nat) (chars : list TextPosition) (wordEnd : nat) : nat :=
  match fuel with
  | 0 => wordEnd
  | S fuel' =>
      if isTrailingSpaceChar chars wordEnd then skipTrailingSpace fuel' chars (S wordEnd)
      else wordEnd
  end.

(** The [while ( (result = wordOptions.wordRegex.exec(word)) )] loop; the
    tokens are kept in reverse. *)
Fixpoint tokenizeLoop (fuel : nat) (regex : RegExp) (includeTrailingSpace : bool)
         (chars : list TextPosition) (word : jsstring) (lastIndex lastWordEnd : nat)
         (tokens : list TokenRange) : result (list TokenRange * nat) :=
  match fuel with
  | 0 => OutOfFuel
  | S fuel' =>
      match exec regex word lastIndex with
      | (None, _) => Ret (tokens, lastWordEnd)
      | (Some (index, len), lastIndex') =>
          let wordStart := index in
          let wordEnd := wordStart + len in
          (* Create token for non-word characters preceding this word *)
          let tokens := if lastWordEnd <? wordStart
                        then (lastWordEnd, wordStart, false) :: tokens else tokens in
          (* Get trailing space characters for word *)
          let wordEnd := if includeTrailingSpace
                         then skipTrailingSpace (length chars) chars wordEnd else wordEnd in
          tokenizeLoop fuel' regex includeTrailingSpace chars word lastIndex' wordEnd
                       ((wordStart, wordEnd, true) :: tokens)
      end
  end.

(** The ranges [defaultTokenizer] passes to [createTokenFromRange], in order. *)
Definition defaultTokenRanges (regex : RegExp) (includeTrailingSpace : bool)
           (chars : list TextPosition) : result (list TokenRange) :=
  let word := concat (map character chars) in
  '(tokens, lastWordEnd) <-
    tokenizeLoop (length word + 2) regex includeTrailingSpace chars word 0 0 [] ;;
  (* Create token for trailing non-word characters, if any exist *)
  let tokens := if lastWordEnd <? length chars
                then (lastWordEnd, length chars, false) :: tokens else tokens in
  Ret (rev tokens).

(** A tokenizer gets the characters and the word options and creates the
    tokens: it answers with the ranges of the tokens. *)
Definition Tokenizer : Type := RegExp -> bool -> list TextPosition -> result (list TokenRange).

Record WordOptions := mkWordOptions {
  wordRegex : RegExp;
  includeTrailingSpace : bool;
  tokenizer : Tokenizer
}.

Definition runTokenizer (wordOptions : WordOptions) (chars : list TextPosition)
  : result (list TokenRange) :=
  tokenizer wordOptions (wordRegex wordOptions) (includeTrailingSpace wordOptions) chars.


Definition alnum (c : jschar) : bool :=
  between 97 122 c || between 65 90 c || between 48 57 c.

(** [/[a-z0-9]+('[a-z0-9]+)*/gi] *)
Definition defaultWordRegex : RegExp :=
  mkRegExp (Seq (Plus (Class alnum)) (Star (Seq (Class (N.eqb 39)) (Plus (Class alnum))))) true.

Definition defaultWordOptions : WordOptions :=
  mkWordOptions defaultWordRegex false defaultTokenRanges.

(** ** Tokenized text provider *)

Record TokenizedTextProvider := mkProvider {
  forwardIterator : CharacterIterator;
  backwardIterator : CharacterIterator;
  providerWordOptions : WordOptions;
  forwardTokensBuffer : list Token;
  backwardTokensBuffer : list Token
}.

(** The loop of [consumeWord], on the iterator [it]; [newChars] is kept in
    reverse. *)
Fixpoint consumeWordLoop (fuel : nat) (it : CharacterIterator)
         (passedWordBoundary insideWord : bool) (newChars : list TextPosition)
  : result (list TextPosition * CharacterIterator) :=
  match fuel with
  | 0 => OutOfFuel
  | S fuel' =>
      '(textPos, it) <- iteratorNext it ;;
      match textPos with
      | None => Ret (rev newChars, it)
      | Some t =>
          if allWhiteSpaceRegex (character t) then
            if insideWord
            then consumeWordLoop fuel' it true false (t :: newChars)
            else consumeWordLoop fuel' it passedWordBoundary insideWord (t :: newChars)
          else if passedWordBoundary then
            it <- iteratorRewind it ;;
            Ret (rev newChars, it)
          else consumeWordLoop fuel' it passedWordBoundary true (t :: newChars)
      end
  end.

(** Consumes a word and the whitespace beyond it *)
Definition consumeWord (it : CharacterIterator) : result (list TextPosition * CharacterIterator) :=
  consumeWordLoop (iteratorFuel it + 2) it false false [].

(** [arrayIndexOf(tokens, chars[k].token)]: the token created last among
    those that hold the character at index [k]; [None] is the index -1. *)
Fixpoint tokenIndexFrom (ranges : list TokenRange) (k i : nat) (found : option nat) : option nat :=
  match ranges with
  | [] => found
  | (start, stop, _) :: r =>
      tokenIndexFrom r k (S i) (if (start <=? k) && (k <? stop) then Some i else found)
  end.

Definition tokenIndexOf (ranges : list TokenRange) (k : nat) : option nat :=
  tokenIndexFrom ranges k 0 None.

(** [tokens.slice(i)] and [tokens.slice(0, i + 1)] for an index that may be -1 *)
Definition sliceFromIndex {A} (l : list A) (i : option nat) : list A :=
  match i with Some i => skipn i l | None => skipn (length l - 1) l end.
Definition sliceToIndex {A} (l : list A) (i : option nat) : list A :=
  match i with Some i => firstn (S i) l | None => [] end.

Definition tokensOf (wordOptions : WordOptions) (chars : list TextPosition) : result (list Token) :=
  ranges <- runTokenizer wordOptions chars ;;
  Ret (map (tokenOfRange chars) ranges).

Definition createTokenizedTextProvider (pos : DomPosition) (characterOptions : CharacterOptions)
           (wordOptions : WordOptions) : result TokenizedTextProvider :=
  forwardIterator <- createCharacterIterator pos false None characterOptions ;;
  backwardIterator <- createCharacterIterator pos true None characterOptions ;;
  (* Get initial word surrounding initial position and tokenize it *)
  '(forwardChars, forwardIterator) <- consumeWord forwardIterator ;;
  '(consumed, backwardIterator) <- consumeWord backwardIterator ;;
  let backwardChars := rev consumed in
  let allChars := backwardChars ++ forwardChars in
  ranges <- runTokenizer wordOptions allChars ;;
  let tokens := map (tokenOfRange allChars) ranges in
  (* Create initial token buffers *)
  let forwardTokensBuffer :=
    match forwardChars with
    | [] => []
    | _ => sliceFromIndex tokens (tokenIndexOf ranges (length backwardChars))
    end in
  let backwardTokensBuffer :=
    match backwardChars with
    | [] => []
    | _ => sliceToIndex tokens (tokenIndexOf ranges (length backwardChars - 1))
    end in
  Ret (mkProvider forwardIterator backwardIterator wordOptions
                  forwardTokensBuffer backwardTokensBuffer).

(** The [while] of [nextEndToken]: down to one non-word token, consume
    character chunks until there is a word or nothing left to consume. *)
Fixpoint nextEndTokenLoop (fuel : nat) (p : TokenizedTextProvider) : result TokenizedTextProvider :=
  match fuel with
  | 0 => OutOfFuel
  | S fuel' =>
      match forwardTokensBuffer p with
      | [lastToken] =>
          if negb (isWord lastToken) then
            '(forwardChars, it) <- consumeWord (forwardIterator p) ;;
            let p := mkProvider it (backwardIterator p) (providerWordOptions p)
                                (forwardTokensBuffer p) (backwardTokensBuffer p) in
            match forwardChars with
            | [] => Ret p
            | _ =>
                (* Merge trailing non-word into next word and tokenize *)
                tokens <- tokensOf (providerWordOptions p) (chars lastToken ++ forwardChars) ;;
                nextEndTokenLoop fuel'
                  (mkProvider it (backwardIterator p) (providerWordOptions p)
                              tokens (backwardTokensBuffer p))
            end
          else Ret p
      | _ => Ret p
      end
  end.

(** [nextEndToken()]: [forwardTokensBuffer.shift()] after the loop. *)
Definition nextEndToken (p : TokenizedTextProvider) : result (option Token * TokenizedTextProvider) :=
  p <- nextEndTokenLoop (iteratorFuel (forwardIterator p) + 2) p ;;
  match forwardTokensBuffer p with
  | [] => Ret (None, p)
  | t :: rest => Ret (Some t, mkProvider (forwardIterator p) (backwardIterator p)
                                         (providerWordOptions p) rest (backwardTokensBuffer p))
  end.

(** [previousStartToken()]: the call of the tokenizer in its loop names a
    variable [options] that is declared nowhere, so reaching it raises a
    [ReferenceError]. *)
Definition previousStartToken (p : TokenizedTextProvider)
  : result (option Token * TokenizedTextProvider) :=
  p <-
    match backwardTokensBuffer p with
    | [lastToken] =>
        if negb (isWord lastToken) then
          '(backwardChars, it) <- consumeWord (backwardIterator p) ;;
          match backwardChars with
          | [] => Ret (mkProvider (forwardIterator p) it (providerWordOptions p)
                                  (forwardTokensBuffer p) (backwardTokensBuffer p))
          | _ => Throw ReferenceError
          end
        else Ret p
    | _ => Ret p
    end ;;
  match rev (backwardTokensBuffer p) with
  | [] => Ret (None, p)
  | t :: rest => Ret (Some t, mkProvider (forwardIterator p) (backwardIterator p)
                                         (providerWordOptions p) (forwardTokensBuffer p) (rev rest))
  end.

(** ** Options *)

(** [createOptions(optionsParam, defaults)] for an options object that is
    given in full. *)
Definition createOptions {A} (optionsParam : option A) (defaults : A) : A :=
  match optionsParam with Some o => o | None => defaults end.

Definition createWordOptions (options : option WordOptions) : WordOptions :=
  createOptions options defaultWordOptions.

Record MoveOptions := mkMoveOptions {
  moveWordOptions : option WordOptions;
  moveCharacterOptions : option CharacterOptions
}.
Definition defaultMoveOptions : MoveOptions := mkMoveOptions None None.

Record ExpandOptions := mkExpandOptions {
  expandWordOptions : option WordOptions;
  expandCharacterOptions : option CharacterOptions;
  trim : bool;
  trimStart : bool;
  trimEnd : bool
}.
Definition defaultExpandOptions : ExpandOptions := mkExpandOptions None None false true true.

(** ** Moving a position *)

Definition CHARACTER : string := "character".
Definition WORD : string := "word".

Record MoveResult := mkMoveResult {
  movedPosition : option DomPosition;
  unitsMoved : Z
}.

(** [while ( (textPos = charIterator.next()) && unitsMoved < absCount )]:
    the iterator, [unitsMoved], [newTextPos] and the last [textPos]. *)
Fixpoint moveCharacterLoop (fuel : nat) (it : CharacterIterator) (absCount unitsMoved : nat)
         (newTextPos : option TextPosition)
  : result (nat * option TextPosition * option TextPosition) :=
  match fuel with
  | 0 => OutOfFuel
  | S fuel' =>
      '(textPos, it) <- iteratorNext it ;;
      match textPos with
      | Some t =>
          if unitsMoved <? absCount
          then moveCharacterLoop fuel' it absCount (S unitsMoved) (Some t)
          else Ret (unitsMoved, newTextPos, textPos)
      | None => Ret (unitsMoved, newTextPos, textPos)
      end
  end.

(** [while ( (token = next()) && unitsMoved < absCount )] *)
Fixpoint moveWordLoop (fuel : nat) (p : TokenizedTextProvider) (backward : bool)
         (absCount unitsMoved : nat) (newTextPos : option TextPosition)
  : result (nat * option TextPosition) :=
  match fuel with
  | 0 => OutOfFuel
  | S fuel' =>
      '(token, p) <- (if backward then previousStartToken p else nextEndToken p) ;;
      match token with
      | Some token =>
          if unitsMoved <? absCount then
            if isWord token
            then moveWordLoop fuel' p backward absCount (S unitsMoved)
                              (if backward then nth_error (chars token) 0
                               else nth_error (chars token) (length (chars token) - 1))
            else moveWordLoop fuel' p backward absCount unitsMoved newTextPos
          else Ret (unitsMoved, newTextPos)
      | None => Ret (unitsMoved, newTextPos)
      end
  end.

Definition unitNotImplemented (unit : string) : JsError :=
  PlainError ("movePositionBy: unit '" ++ unit ++ "' not implemented")%string.

Definition movePositionBy (pos : DomPosition) (unit : string) (count : Z)
           (characterOptions : CharacterOptions) (wordOptions : WordOptions)
  : result MoveResult :=
  let absCount := Z.abs_nat count in
  if negb (count =? 0)%Z then
    let backward := (count <? 0)%Z in
    '(unitsMoved, newTextPos, nextTextPos) <-
      (if String.eqb unit CHARACTER then
         charIterator <- createCharacterIterator pos backward None characterOptions ;;
         moveCharacterLoop (posFuel pos + 2) charIterator absCount 0 None
       else if String.eqb unit WORD then
         tokenizedTextProvider <- createTokenizedTextProvider pos characterOptions wordOptions ;;
         '(unitsMoved, newTextPos) <-
           moveWordLoop (posFuel pos + 2) tokenizedTextProvider backward absCount 0 None ;;
         Ret (unitsMoved, newTextPos, None)
       else Throw (unitNotImplemented unit)) ;;
    (* Perform any necessary position tweaks *)
    let newPos := match newTextPos with Some t => Some (position t) | None => Some pos end in
    if backward then
      newPos <- previousVisiblePosition newPos ;;
      Ret (mkMoveResult newPos (- Z.of_nat unitsMoved))
    else
      match newTextPos with
      | Some t =>
          if isLeadingSpace t then
            (* Tweak the position for the case of a leading space: advance
               to the last possible equivalent visible position. *)
            nextTextPos <-
              (if String.eqb unit WORD then
                 charIterator <- createCharacterIterator pos false None characterOptions ;;
                 '(nextTextPos, _) <- iteratorNext charIterator ;;
                 Ret nextTextPos
               else Ret nextTextPos) ;;
            match nextTextPos with
            | Some nx =>
                newPos <- previousVisiblePosition (Some (position nx)) ;;
                Ret (mkMoveResult newPos (Z.of_nat unitsMoved))
            | None => Ret (mkMoveResult newPos (Z.of_nat unitsMoved))
            end
          else Ret (mkMoveResult newPos (Z.of_nat unitsMoved))
      | None => Ret (mkMoveResult newPos (Z.of_nat unitsMoved))
      end
  else Ret (mkMoveResult (Some pos) 0).

(** ** Ranges *)

(** Modelled from the spec: the range of the host library (Rangy core's
    [DomRange], which is not among the sources): two boundary positions of
    one document with the invariant start <= end in document order, which
    [setStart] and [setEnd] keep by moving the other boundary along. *)
Record Range := mkRange {
  startContainer : Loc;
  startOffset : nat;
  endContainer : Loc;
  endOffset : nat
}.

Definition getRangeStartPosition (range : Range) : DomPosition :=
  posAt (startContainer range) (startOffset range).
Definition getRangeEndPosition (range : Range) : DomPosition :=
  posAt (endContainer range) (endOffset range).

(** An offset argument: a number, or a node handed over in its place. *)
Inductive OffsetArg :=
| NumberArg (n : nat)
| NodeArg.

(** Modelled from the spec: document order of two boundary points, on the
    paths of their nodes from the root ([dom.comparePoints] of Rangy core).
    A comparison of a node with a number is false, whichever way round. *)
Fixpoint comparePaths (pathA pathB : list nat) (offsetA : OffsetArg) (offsetB : nat) : Z :=
  match pathA, pathB with
  | [], [] =>
      match offsetA with
      | NumberArg a => if a =? offsetB then 0%Z else if a <? offsetB then (-1)%Z else 1%Z
      | NodeArg => 1%Z
      end
  | [], k :: _ =>
      match offsetA with
      | NumberArg a => if a <=? k then (-1)%Z else 1%Z
      | NodeArg => 1%Z
      end
  | k :: _, [] => if k <? offsetB then (-1)%Z else 1%Z
  | i :: restA, j :: restB =>
      if i =? j then comparePaths restA restB offsetA offsetB
      else if i <? j then (-1)%Z else 1%Z
  end.

Definition comparePoints (nodeA : Loc) (offsetA : OffsetArg) (nodeB : Loc) (offsetB : nat) : Z :=
  comparePaths (rev (pathOf nodeA)) (rev (pathOf nodeB)) offsetA offsetB.

(** Modelled from the spec: [range.setStart(node, offset)] of the host: the
    offset must lie in the node; a start after the end collapses the range
    to the new start. *)
Definition setStart (range : Range) (n : option Loc) (o : nat) : result Range :=
  match n with
  | None => Throw TypeError
  | Some n =>
      if nodeType n =? 10 then Throw (DOMException "INVALID_NODE_TYPE_ERR")
      else if getNodeLength n <? o then Throw (DOMException "INDEX_SIZE_ERR")
      else if (comparePoints n (NumberArg o) (endContainer range) (endOffset range) =? 1)%Z
      then Ret (mkRange n o n o)
      else Ret (mkRange n o (endContainer range) (endOffset range))
  end.

(** Modelled from the spec: [range.setEnd(node, offset)] of the host. *)
Definition setEnd (range : Range) (n : option Loc) (o : nat) : result Range :=
  match n with
  | None => Throw TypeError
  | Some n =>
      if nodeType n =? 10 then Throw (DOMException "INVALID_NODE_TYPE_ERR")
      else if getNodeLength n <? o then Throw (DOMException "INDEX_SIZE_ERR")
      else if (comparePoints n (NumberArg o) (startContainer range) (startOffset range) =? -1)%Z
      then Ret (mkRange n o n o)
      else Ret (mkRange (startContainer range) (startOffset range) n o)
  end.

(** Modelled from the spec: [range.collapse(toStart)], [range.collapsed],
    [range.selectNodeContents(node)], [range.comparePoint(node, offset)],
    [api.createRange(doc)] and [range.getDocument()] of the host. *)
Definition collapse (range : Range) (toStart : bool) : Range :=
  if toStart
  then mkRange (startContainer range) (startOffset range) (startContainer range) (startOffset range)
  else mkRange (endContainer range) (endOffset range) (endContainer range) (endOffset range).

Definition collapsed (range : Range) : bool :=
  node_eqb (startContainer range) (endContainer range) && (startOffset range =? endOffset range).

Definition selectNodeContents (n : Loc) : Range := mkRange n 0 n (getNodeLength n).

Definition comparePoint (range : Range) (n : Loc) (o : nat) : Z :=
  if (comparePoints n (NumberArg o) (startContainer range) (startOffset range) <? 0)%Z then (-1)%Z
  else if (0 <? comparePoints n (NumberArg o) (endContainer range) (endOffset range))%Z then 1%Z
  else 0%Z.

Definition getDocument (n : Loc) : Loc := rootLoc (documentOf n).
Definition createRange (n : Loc) : Range := mkRange (getDocument n) 0 (getDocument n) 0.

(** ** Range text operations *)

Definition createRangeCharacterIterator (range : Range) (characterOptions : CharacterOptions)
           (backward : bool) : result CharacterIterator :=
  let rangeStart := getRangeStartPosition range in
  let rangeEnd := getRangeEndPosition range in
  let itStart := if backward then rangeEnd else rangeStart in
  let itEnd := if backward then rangeStart else rangeEnd in
  createCharacterIterator itStart backward (Some itEnd) characterOptions.

(** [while ( (textPos = it.next()) ) chars.push(textPos)]; [chars] in reverse. *)
Fixpoint collectCharacters (fuel : nat) (it : CharacterIterator) (chars : list TextPosition)
  : result (list TextPosition) :=
  match fuel with
  | 0 => OutOfFuel
  | S fuel' =>
      '(textPos, it) <- iteratorNext it ;;
      match textPos with
      | Some t => collectCharacters fuel' it (t :: chars)
      | None => Ret (rev chars)
      end
  end.

Definition getRangeCharacters (range : Range) (characterOptions : CharacterOptions)
  : result (list TextPosition) :=
  it <- createRangeCharacterIterator range characterOptions false ;;
  collectCharacters (iteratorFuel it + 2) it [].

(** [range.text(characterOptions)] *)
Definition text (range : Range) (characterOptions : option CharacterOptions) : result jsstring :=
  if collapsed range then Ret []
  else
    chars <- getRangeCharacters range (createOptions characterOptions defaultCharacterOptions) ;;
    Ret (concat (map character chars)).

(** [createRangeBoundaryMover(isStart, collapse)]: the range after the
    call and the units moved. *)
Definition moveBoundary (isStart collapseFirst : bool) (range : Range) (unit : string) (count : Z)
           (moveOptions : option MoveOptions) : result (Z * Range) :=
  let moveOptions := createOptions moveOptions defaultMoveOptions in
  let characterOptions := createOptions (moveCharacterOptions moveOptions) defaultCharacterOptions in
  let wordOptions := createWordOptions (moveWordOptions moveOptions) in
  let boundaryIsStart := if collapseFirst then (0 <=? count)%Z else isStart in
  let range := if collapseFirst then collapse range (negb boundaryIsStart) else range in
  let pos := if boundaryIsStart then getRangeStartPosition range else getRangeEndPosition range in
  moveResult <- movePositionBy pos unit count characterOptions wordOptions ;;
  match movedPosition moveResult with
  | None => Throw TypeError
  | Some newPos =>
      range <- (if boundaryIsStart then setStart range (node newPos) (offset newPos)
                else setEnd range (node newPos) (offset newPos)) ;;
      Ret (unitsMoved moveResult, range)
  end.

Definition moveStart := moveBoundary true false.
Definition moveEnd := moveBoundary false false.
Definition move := moveBoundary true true.

(** [while ( (textPos = it.next()) && allWhiteSpaceRegex.test(textPos.character) )] *)
Fixpoint trimCount (fuel : nat) (it : CharacterIterator) (trimCharCount : nat) : result nat :=
  match fuel with
  | 0 => OutOfFuel
  | S fuel' =>
      '(textPos, it) <- iteratorNext it ;;
      match textPos with
      | Some t =>
          if allWhiteSpaceRegex (character t) then trimCount fuel' it (S trimCharCount)
          else Ret trimCharCount
      | None => Ret trimCharCount
      end
  end.

(** [createRangeTrimmer(isStart)] *)
Definition trimBoundary (isStart : bool) (range : Range) (characterOptions : option CharacterOptions)
  : result (bool * Range) :=
  let characterOptions := createOptions characterOptions defaultCharacterOptions in
  it <- createRangeCharacterIterator range characterOptions (negb isStart) ;;
  trimCharCount <- trimCount (iteratorFuel it + 2) it 0 ;;
  if 0 <? trimCharCount then
    '(_, range) <-
      (if isStart
       then moveStart range CHARACTER (Z.of_nat trimCharCount)
                      (Some (mkMoveOptions None (Some characterOptions)))
       else moveEnd range CHARACTER (- Z.of_nat trimCharCount)
                    (Some (mkMoveOptions None (Some characterOptions)))) ;;
    Ret (true, range)
  else Ret (false, range).

(** What [expand] returns: [moved] for the word unit, the units [moveEnd]
    moved otherwise. *)
Inductive ExpandResult :=
| Moved (moved : bool)
| UnitsMoved (n : Z).

Definition firstPosition (token : option Token) : result DomPosition :=
  match token with
  | Some t => match chars t with c :: _ => Ret (position c) | [] => Throw TypeError end
  | None => Throw TypeError
  end.

Definition lastPosition (token : option Token) : result DomPosition :=
  match token with
  | Some t => match rev (chars t) with c :: _ => Ret (position c) | [] => Throw TypeError end
  | None => Throw TypeError
  end.

(** [range.expand(unit, expandOptions)]; the empty unit stands for a
    missing argument. *)
Definition expand (range : Range) (unit : string) (expandOptions : option ExpandOptions)
  : result (ExpandResult * Range) :=
  let expandOptions := createOptions expandOptions defaultExpandOptions in
  let characterOptions := createOptions (expandCharacterOptions expandOptions) defaultCharacterOptions in
  let unit := if String.eqb unit "" then CHARACTER else unit in
  if String.eqb unit WORD then
    let wordOptions := createWordOptions (expandWordOptions expandOptions) in
    let startPos := getRangeStartPosition range in
    let endPos := getRangeEndPosition range in
    startTokenizedTextProvider <- createTokenizedTextProvider startPos characterOptions wordOptions ;;
    '(startToken, _) <- nextEndToken startTokenizedTextProvider ;;
    first <- firstPosition startToken ;;
    newStartPos <- previousVisiblePosition (Some first) ;;
    endToken <-
      (if collapsed range then Ret startToken
       else
         endTokenizedTextProvider <- createTokenizedTextProvider endPos characterOptions wordOptions ;;
         '(endToken, _) <- previousStartToken endTokenizedTextProvider ;;
         Ret endToken) ;;
    newEndPos <- lastPosition endToken ;;
    match newStartPos with
    | None => Throw TypeError
    | Some newStartPos =>
        '(moved, range) <-
          (if negb (pos_equals newStartPos (Some startPos))
           then r <- setStart range (node newStartPos) (offset newStartPos) ;; Ret (true, r)
           else Ret (false, range)) ;;
        '(moved, range) <-
          (if negb (pos_equals newEndPos (Some endPos))
           then r <- setEnd range (node newEndPos) (offset newEndPos) ;; Ret (true, r)
           else Ret (moved, range)) ;;
        if trim expandOptions then
          '(moved, range) <-
            (if trimStart expandOptions
             then '(t, r) <- trimBoundary true range (Some characterOptions) ;; Ret (t || moved, r)
             else Ret (moved, range)) ;;
          '(moved, range) <-
            (if trimEnd expandOptions
             then '(t, r) <- trimBoundary false range (Some characterOptions) ;; Ret (t || moved, r)
             else Ret (moved, range)) ;;
          Ret (Moved moved, range)
        else Ret (Moved moved, range)
    end
  else
    '(n, range) <-
      moveEnd range CHARACTER 1
              (Some (mkMoveOptions (expandWordOptions expandOptions)
                                   (expandCharacterOptions expandOptions))) ;;
    Ret (UnitsMoved n, range).

(** [range.selectCharacters(containerNode, startIndex, endIndex, characterOptions)] *)
Definition selectCharacters (containerNode : Loc) (startIndex endIndex : Z)
           (characterOptions : option CharacterOptions) : result Range :=
  let moveOptions := Some (mkMoveOptions None characterOptions) in
  let range := collapse (selectNodeContents containerNode) true in
  '(_, range) <- moveStart range CHARACTER startIndex moveOptions ;;
  let range := collapse range true in
  '(_, range) <- moveEnd range CHARACTER (endIndex - startIndex) moveOptions ;;
  Ret range.

Record CharacterRange := mkCharacterRange {
  start : Z;
  end_ : Z
}.

(** [range.toCharacterRange(containerNode, characterOptions)]: character
    indexes are relative to the start of the node.  The call of
    [dom.comparePoints] hands over [this.endContainer] where the start offset
    is expected. *)
Definition toCharacterRange (range : Range) (containerNode : Loc)
           (characterOptions : option CharacterOptions) : result CharacterRange :=
  match parentNode containerNode with
  | None => Throw TypeError
  | Some parent =>
      let nodeIndex := getNodeIndex containerNode in
      let rangeStartsBeforeNode :=
        (comparePoints (startContainer range) NodeArg parent nodeIndex =? -1)%Z in
      let rangeBetween := range in
      startIndex <-
        (if rangeStartsBeforeNode then
           rangeBetween <- setStart rangeBetween (Some (startContainer range)) (startOffset range) ;;
           rangeBetween <- setEnd rangeBetween (Some parent) nodeIndex ;;
           t <- text rangeBetween characterOptions ;;
           Ret (- Z.of_nat (length t))%Z
         else
           rangeBetween <- setStart rangeBetween (Some parent) nodeIndex ;;
           rangeBetween <- setEnd rangeBetween (Some (startContainer range)) (startOffset range) ;;
           t <- text rangeBetween characterOptions ;;
           Ret (Z.of_nat (length t))) ;;
      t <- text range characterOptions ;;
      Ret (mkCharacterRange startIndex (startIndex + Z.of_nat (length t))%Z)
  end.

(** ** Find engine *)

(** Find options.  The find options object is also what
    [findTextFromPosition] hands to the character iterator as character
    options, so [collapseSpaceBeforeLineBreak] is read from it (absent, that
    is false, in the defaults). *)
Record FindOptions := mkFindOptions {
  caseSensitive : bool;
  withinRange : option Range;
  wholeWordsOnly : bool;
  wrap : bool;
  direction : string;
  findWordOptions : option WordOptions;
  findCharacterOptions : option CharacterOptions;
  findCollapseSpaceBeforeLineBreak : bool
}.

Definition defaultFindOptions : FindOptions :=
  mkFindOptions false None false false "forward" None None false.

Definition findOptionsAsCharacterOptions (findOptions : FindOptions) : CharacterOptions :=
  mkCharacterOptions (findCollapseSpaceBeforeLineBreak findOptions) false.

(** Modelled from the spec: [api.Selection.isDirectionBackward] of the host,
    for a direction given as a string. *)
Definition isDirectionBackward (dir : string) : bool :=
  test_oneOf_i ["backward"; "backwards"] dir.

(** [String.prototype.toLowerCase] on a code unit: the letters of ASCII and
    Latin-1; other code units are left as they are. *)
Definition lowerChar (c : jschar) : jschar :=
  if between 65 90 c || (between 192 222 c && negb (N.eqb c 215)) then (c + 32)%N else c.
Definition jsToLowerCase (s : jsstring) : jsstring := map lowerChar s.

Fixpoint isPrefix (a s : jsstring) : bool :=
  match a, s with
  | [], _ => true
  | x :: a', y :: s' => N.eqb x y && isPrefix a' s'
  | _ :: _, [] => false
  end.

(** [text.indexOf(searchTerm)]; [None] is -1. *)
Fixpoint indexOfFrom (s searchTerm : jsstring) (i : nat) : option nat :=
  if isPrefix searchTerm s then Some i
  else match s with [] => None | _ :: t => indexOfFrom t searchTerm (S i) end.
Definition indexOf (s searchTerm : jsstring) : option nat := indexOfFrom s searchTerm 0.

(** A search term: a string or a regular expression. *)
Inductive SearchTerm :=
| StringTerm (s : jsstring)
| RegExpTerm (r : RegExp).

Record FindResult := mkFindResult {
  startPos : option DomPosition;
  foundEndPos : DomPosition;
  valid : bool
}.

(** [isWholeWord] hands its word options to [expand] as expand options;
    none of the properties [expand] reads is one of a word options object,
    so [expand] runs on its defaults. *)
Definition wordOptionsAsExpandOptions (wordOptions : option WordOptions) : option ExpandOptions :=
  match wordOptions with
  | Some _ => Some defaultExpandOptions
  | None => None
  end.

Definition isWholeWord (startPos : option DomPosition) (endPos : DomPosition)
           (wordOptions : option WordOptions) : result bool :=
  match startPos with
  | None => Throw TypeError
  | Some startPos =>
      match node startPos with
      | None => Throw TypeError
      | Some n =>
          let range := createRange n in
          range <- setStart range (node startPos) (offset startPos) ;;
          range <- setEnd range (node endPos) (offset endPos) ;;
          '(moved, _) <- expand range WORD (wordOptionsAsExpandOptions wordOptions) ;;
          match moved with
          | Moved m => Ret (negb m)
          | UnitsMoved n => Ret (n =? 0)%Z
          end
      end
  end.

(** [handleMatch(startIndex, endIndex)] on the characters read so far; an
    index is [None] when the variable was never assigned. *)
Definition handleMatch (findOptions : FindOptions) (chars : list TextPosition)
           (startIndex endIndex : option nat) : result FindResult :=
  match startIndex, endIndex with
  | Some startIndex, Some endIndex =>
      match nth_error chars startIndex with
      | None => Throw TypeError
      | Some first =>
          startPos <- previousVisiblePosition (Some (position first)) ;;
          match (if endIndex =? 0 then None else nth_error chars (endIndex - 1)) with
          | None => Throw TypeError
          | Some last =>
              let endPos := position last in
              valid <- (if negb (wholeWordsOnly findOptions) then Ret true
                        else isWholeWord startPos endPos (findWordOptions findOptions)) ;;
              Ret (mkFindResult startPos endPos valid)
          end
      end
  | _, _ => Throw TypeError
  end.

(** The variables of the loop of [findTextFromPosition]. *)
Record FindState := mkFindState {
  findText_text : jsstring;
  findChars : list TextPosition;
  matchStartIndex : option nat;
  matchEndIndex : option nat;
  insideRegexMatch : bool;
  regexLastIndex : nat
}.

Fixpoint findLoop (fuel : nat) (it : CharacterIterator) (backward : bool)
         (searchTerm : SearchTerm) (findOptions : FindOptions) (st : FindState)
  : result (option FindResult * FindState) :=
  match fuel with
  | 0 => OutOfFuel
  | S fuel' =>
      '(textPos, it) <- iteratorNext it ;;
      match textPos with
      | None => Ret (None, st)
      | Some textPos =>
          let currentChar :=
            match searchTerm with
            | StringTerm _ =>
                if negb (caseSensitive findOptions) then jsToLowerCase (character textPos)
                else character textPos
            | RegExpTerm _ => character textPos
            end in
          let chars := if backward then textPos :: findChars st else findChars st ++ [textPos] in
          let text := if backward then currentChar ++ findText_text st
                      else findText_text st ++ currentChar in
          match searchTerm with
          | RegExpTerm regex =>
              match exec regex text (regexLastIndex st) with
              | (Some (index, len), lastIndex) =>
                  if insideRegexMatch st then
                    (* Check whether the match is now over *)
                    let matchStartIndex := index in
                    let matchEndIndex := matchStartIndex + len in
                    let st := mkFindState text chars (Some matchStartIndex) (Some matchEndIndex)
                                          true lastIndex in
                    if (negb backward && (matchEndIndex <? length text))
                       || (backward && (0 <? matchStartIndex))
                    then
                      returnValue <- handleMatch findOptions chars (Some matchStartIndex)
                                                 (Some matchEndIndex) ;;
                      Ret (Some returnValue, st)
                    else findLoop fuel' it backward searchTerm findOptions st
                  else
                    findLoop fuel' it backward searchTerm findOptions
                             (mkFindState text chars (matchStartIndex st) (matchEndIndex st)
                                          true lastIndex)
              | (None, lastIndex) =>
                  findLoop fuel' it backward searchTerm findOptions
                           (mkFindState text chars (matchStartIndex st) (matchEndIndex st)
                                        (insideRegexMatch st) lastIndex)
              end
          | StringTerm searchTerm' =>
              match indexOf text searchTerm' with
              | Some matchStartIndex =>
                  returnValue <- handleMatch findOptions chars (Some matchStartIndex)
                                             (Some (matchStartIndex + length searchTerm')) ;;
                  Ret (Some returnValue,
                       mkFindState text chars (Some matchStartIndex) (matchEndIndex st)
                                   (insideRegexMatch st) (regexLastIndex st))
              | None =>
                  findLoop fuel' it backward searchTerm findOptions
                           (mkFindState text chars None (matchEndIndex st)
                                        (insideRegexMatch st) (regexLastIndex st))
              end
          end
      end
  end.

Definition findTextFromPosition (initialPos : option DomPosition) (searchTerm : SearchTerm)
           (searchScopeRange : Range) (findOptions : FindOptions) : result (option FindResult) :=
  match initialPos with
  | None => Throw TypeError
  | Some initialPos =>
      let backward := isDirectionBackward (direction findOptions) in
      it <- createCharacterIterator initialPos backward
              (Some (if backward then getRangeStartPosition searchScopeRange
                     else getRangeEndPosition searchScopeRange))
              (findOptionsAsCharacterOptions findOptions) ;;
      '(returnValue, st) <-
        findLoop (posFuel initialPos + 2) it backward searchTerm findOptions
                 (mkFindState [] [] None None false 0) ;;
      (* Check whether regex match extends to the end of the range *)
      if insideRegexMatch st then
        returnValue <- handleMatch findOptions (findChars st) (matchStartIndex st) (matchEndIndex st) ;;
        Ret (Some returnValue)
      else Ret returnValue
  end.

(** The variables of the loop of [findText]. *)
Record SearchState := mkSearchState {
  searchPos : option DomPosition;
  searchScopeRange : Range;
  wrappedAround : bool
}.

(** One turn of the [while (true)] of [findText]: the value returned and
    the range then, or the variables of the next turn. *)
Definition findTextTurn (range : Range) (searchTerm : SearchTerm) (findOptions : FindOptions)
           (backward : bool) (initialPos : DomPosition) (st : SearchState)
  : result (bool * Range + SearchState) :=
  findResult <- findTextFromPosition (searchPos st) searchTerm (searchScopeRange st) findOptions ;;
  match findResult with
  | Some findResult =>
      if valid findResult then
        match startPos findResult with
        | None => Throw TypeError
        | Some s =>
            range <- setStart range (node s) (offset s) ;;
            range <- setEnd range (node (foundEndPos findResult)) (offset (foundEndPos findResult)) ;;
            Ret (inl (true, range))
        end
      else
        (* We've found a match that is not a whole word, so we carry on
           searching from the point immediately after the match *)
        Ret (inr (mkSearchState (if backward then startPos findResult
                                 else Some (foundEndPos findResult))
                                (searchScopeRange st) (wrappedAround st)))
  | None =>
      if wrap findOptions && negb (wrappedAround st) then
        (* No result found but we're wrapping around and limiting the scope
           to the unsearched part of the range *)
        if backward then
          scope <- setStart (searchScopeRange st) (node initialPos) (offset initialPos) ;;
          Ret (inr (mkSearchState (Some (getRangeEndPosition (searchScopeRange st))) scope true))
        else
          scope <- setEnd (searchScopeRange st) (node initialPos) (offset initialPos) ;;
          Ret (inr (mkSearchState (Some (getRangeStartPosition (searchScopeRange st))) scope true))
      else
        (* Nothing found and we can't wrap around, so we're done *)
        Ret (inl (false, range))
  end.

Fixpoint findTextLoop (fuel : nat) (range : Range) (searchTerm : SearchTerm)
         (findOptions : FindOptions) (backward : bool) (initialPos : DomPosition)
         (st : SearchState) : result (bool * Range) :=
  match fuel with
  | 0 => OutOfFuel
  | S fuel' =>
      turn <- findTextTurn range searchTerm findOptions backward initialPos st ;;
      match turn with
      | inl returned => Ret returned
      | inr st => findTextLoop fuel' range searchTerm findOptions backward initialPos st
      end
  end.

(** What [findText] sets up before its loop: the options, the search term,
    the scope and the initial position. *)
Definition prepareFindOptions (findOptions : option FindOptions) : FindOptions :=
  let findOptions := createOptions findOptions defaultFindOptions in
  (* Create word options if we're matching whole words only; we don't ever
     want trailing spaces for search results *)
  if wholeWordsOnly findOptions then
    let w := createWordOptions (findWordOptions findOptions) in
    mkFindOptions (caseSensitive findOptions) (withinRange findOptions) true (wrap findOptions)
                  (direction findOptions)
                  (Some (mkWordOptions (wordRegex w) false (tokenizer w)))
                  (findCharacterOptions findOptions)
                  (findCollapseSpaceBeforeLineBreak findOptions)
  else findOptions.

Definition prepareSearchTerm (searchTermParam : SearchTerm) (findOptions : FindOptions)
  : SearchTerm :=
  match searchTermParam with
  | StringTerm s => if negb (caseSensitive findOptions) then StringTerm (jsToLowerCase s)
                    else StringTerm s
  | RegExpTerm r => RegExpTerm r
  end.

Definition initialSearchScope (range : Range) (findOptions : FindOptions) : Range :=
  match withinRange findOptions with
  | Some r => r
  | None => selectNodeContents (getDocument (startContainer range))
  end.

Definition initialSearchPosition (range : Range) (findOptions : FindOptions) : DomPosition :=
  let backward := isDirectionBackward (direction findOptions) in
  let searchScopeRange := initialSearchScope range findOptions in
  let initialPos := if backward then getRangeEndPosition range else getRangeStartPosition range in
  (* Adjust initial position if it lies outside the search scope *)
  let comparison :=
    match node initialPos with
    | Some n => comparePoint searchScopeRange n (offset initialPos)
    | None => 0%Z
    end in
  if (comparison =? -1)%Z then getRangeStartPosition searchScopeRange
  else if (comparison =? 1)%Z then getRangeEndPosition searchScopeRange
  else initialPos.

(** [range.findText(searchTermParam, findOptions)]: what it returns and the
    range after the call. *)
Definition findText (range : Range) (searchTermParam : SearchTerm)
           (findOptions : option FindOptions) : result (bool * Range) :=
  let findOptions := prepareFindOptions findOptions in
  let backward := isDirectionBackward (direction findOptions) in
  let searchTerm := prepareSearchTerm searchTermParam findOptions in
  let initialPos := initialSearchPosition range findOptions in
  findTextLoop (posFuel initialPos + 2) range searchTerm findOptions backward initialPos
               (mkSearchState (Some initialPos) (initialSearchScope range findOptions) false).

End TextRange.

(** ** Selection save and restore ([selectionsaverestore.js]) *)

Module SaveRestore.

Record RangeInfo := mkRangeInfo {
  startMarkerId : string;
  endMarkerId : string
}.

(** The object [saveSelection] returns; [win] and [doc] are the window and
    document of the host state the functions below are run in. *)
Record SavedSelection := mkSavedSelection {
  rangeInfos : list RangeInfo;
  restored : bool
}.

Section Host.

(** The host (Rangy core and the DOM): its state holds the document, the
    selection and the ranges that were created; an element or a range is a
    reference into it. *)
Variable World : Type.
Variable RangeRef : Type.
Variable ElementRef : Type.
Variable removeAllRanges : World -> result World.
Variable createRange : World -> result (RangeRef * World).
Variable getElementById : World -> string -> option ElementRef.
Variable setStartBefore : RangeRef -> ElementRef -> World -> result World.
Variable setEndBefore : RangeRef -> ElementRef -> World -> result World.
Variable removeChild : ElementRef -> World -> result World.
Variable normalizeBoundaries : RangeRef -> World -> result World.
Variable addRange : RangeRef -> World -> result World.

Definition setRangeBoundary (range : RangeRef) (markerId : string) (atStart : bool) (w : World)
  : result World :=
  match getElementById w markerId with
  | None => Throw TypeError
  | Some markerEl =>
      w <- (if atStart then setStartBefore range markerEl w else setEndBefore range markerEl w) ;;
      removeChild markerEl w
  end.

(** The [for] loop of [restoreSelection] over [rangeInfos]. *)
Fixpoint restoreRanges (infos : list RangeInfo) (w : World) : result World :=
  match infos with
  | [] => Ret w
  | rangeInfo :: rest =>
      '(range, w) <- createRange w ;;
      w <- setRangeBoundary range (startMarkerId rangeInfo) true w ;;
      w <- setRangeBoundary range (endMarkerId rangeInfo) false w ;;
      w <- normalizeBoundaries range w ;;
      w <- addRange range w ;;
      restoreRanges rest w
  end.

(** [restoreSelection(savedSelection)]: the saved selection object and the
    host state after the call. *)
Definition restoreSelection (savedSelection : SavedSelection) (w : World)
  : result (SavedSelection * World) :=
  if negb (restored savedSelection) then
    w <- removeAllRanges w ;;
    w <- restoreRanges (rangeInfos savedSelection) w ;;
    Ret (mkSavedSelection (rangeInfos savedSelection) true, w)
  else Ret (savedSelection, w).

End Host.

(** A small host to run the functions in: the ids of the marker elements in
    the document, the ranges created so far (each with the markers its
    boundaries were set before) and the indices of the selected ranges. *)
Record ToyWorld := mkToyWorld {
  markers : list string;
  created : list (option string * option string);
  selection : list nat
}.

Definition toyRemoveAllRanges (w : ToyWorld) : result ToyWorld :=
  Ret (mkToyWorld (markers w) (created w) []).
Definition toyCreateRange (w : ToyWorld) : result (nat * ToyWorld) :=
  Ret (length (created w), mkToyWorld (markers w) (created w ++ [(None, None)]) (selection w)).
Definition toyGetElementById (w : ToyWorld) (id : string) : option string :=
  if existsb (String.eqb id) (markers w) then Some id else None.

Fixpoint updateNth {A} (l : list A) (i : nat) (f : A -> A) : list A :=
  match l, i with
  | [], _ => []
  | x :: r, 0 => f x :: r
  | x :: r, S i' => x :: updateNth r i' f
  end.

Definition toySetStartBefore (range : nat) (el : string) (w : ToyWorld) : result ToyWorld :=
  Ret (mkToyWorld (markers w) (updateNth (created w) range (fun r => (Some el, snd r))) (selection w)).
Definition toySetEndBefore (range : nat) (el : string) (w : ToyWorld) : result ToyWorld :=
  Ret (mkToyWorld (markers w) (updateNth (created w) range (fun r => (fst r, Some el))) (selection w)).
Definition toyRemoveChild (el : string) (w : ToyWorld) : result ToyWorld :=
  if existsb (String.eqb el) (markers w)
  then Ret (mkToyWorld (filter (fun m => negb (String.eqb el m)) (markers w)) (created w) (selection w))
  else Throw TypeError.
Definition toyNormalizeBoundaries (range : nat) (w : ToyWorld) : result ToyWorld := Ret w.
Definition toyAddRange (range : nat) (w : ToyWorld) : result ToyWorld :=
  Ret (mkToyWorld (markers w) (created w) (selection w ++ [range])).

Definition toyRestoreSelection : SavedSelection -> ToyWorld -> result (SavedSelection * ToyWorld) :=
  restoreSelection ToyWorld nat string toyRemoveAllRanges toyCreateRange toyGetElementById
                   toySetStartBefore toySetEndBefore toyRemoveChild toyNormalizeBoundaries
                   toyAddRange.

End SaveRestore.

(** ** Example documents *)

Definition styled (d : string) : Style := mkStyle d "normal" "visible".
Definition element (tag d : string) (cs : list Node) : Node := Inner (ElementShell tag (styled d)) cs.
Definition page (body : list Node) : Node :=
  Inner DocumentShell [element "HTML" "block" [element "BODY" "block" body]].

(** The node at a path from the root of a document (the root itself when
    there is none). *)
Definition at_path (d : Node) (path : list nat) : Loc :=
  match nodeAt (rootLoc d) path with Some n => n | None => rootLoc d end.

Definition showRange (r : Range) : (list nat * nat) * (list nat * nat) :=
  ((rev (pathOf (startContainer r)), startOffset r), (rev (pathOf (endContainer r)), endOffset r)).

(** [<div>a  b</div>] in the body. *)
Definition doubleSpaceDoc : Node := page [element "DIV" "block" [Text (js "a  b")]].
Definition doubleSpaceDiv : Loc := at_path doubleSpaceDoc [0; 0; 0].
Definition doubleSpaceText : Loc := at_path doubleSpaceDoc [0; 0; 0; 0].

(** [xy<div>abc</div>] in the body. *)
Definition siblingDoc : Node := page [Text (js "xy"); element "DIV" "block" [Text (js "abc")]].

(** [<p>hi <span style="display:none">abc</span>there</p>] in the body. *)
Definition hiddenSpanDoc : Node :=
  page [element "P" "block" [Text (js "hi "); element "SPAN" "none" [Text (js "abc")];
                              Text (js "there")]].
Definition hiddenText : Loc := at_path hiddenSpanDoc [0; 0; 0; 1; 0].

(** A sequence of characters for the tokenizer: one [TextPosition] per code
    unit of [s]. *)
Definition charactersOf (s : jsstring) : list TextPosition :=
  map (fun c => mkTextPosition [c] (posAt doubleSpaceDiv 0) false false false false) s.






(** [<p>a cat sat</p>] in the body, a range collapsed after "cat", and the
    find options [{wrap: true}] and [{wrap: false}]. *)
Definition catDoc : Node := page [element "P" "block" [Text (js "a cat sat")]].
Definition catText : Loc := at_path catDoc [0; 0; 0; 0].
Definition afterCat : Range := mkRange catText 6 catText 6.
Definition wrapping (b : bool) : FindOptions :=
  mkFindOptions false None false b "forward" None None false.

(** [<p>concatenate cat</p>] in the body, a range collapsed at its start,
    and the find options [{wholeWordsOnly: true}]. *)
Definition concatenateDoc : Node := page [element "P" "block" [Text (js "concatenate cat")]].
Definition concatenateText : Loc := at_path concatenateDoc [0; 0; 0; 0].
Definition concatenateStart : Range := mkRange concatenateText 0 concatenateText 0.
Definition wholeWords : FindOptions :=
  mkFindOptions false None true false "forward" None None false.




(** [<p style="white-space: pre-line">a \nb</p>] in the body: a space in
    front of a line feed. *)
Definition preLineDoc : Node :=
  page [Inner (ElementShell "P" (mkStyle "block" "pre-line" "visible"))
              [Text [97; 32; 10; 98]%N]].
Definition preLineText : Loc := at_path preLineDoc [0; 0; 0; 0].
Definition preLineParagraph : Loc := at_path preLineDoc [0; 0; 0].

(** [<div></div>] in the body: a document without characters. *)
Definition emptyDivDoc : Node := page [element "DIV" "block" []].


(** * Properties *)

(** ** Tactics for the [result] monad *)

Lemma bind_Ret {A B} (c : result A) (k : A -> result B) (b : B) :
  bind c k = Ret b -> exists a, c = Ret a /\ k a = Ret b.
Proof. destruct c; simpl; intros H; try discriminate; eauto. Qed.

Ltac inv H := inversion H; subst; clear H.

(** Splits a hypothesis [bind c k = Ret b] into the two calls. *)
Ltac unbind H :=
  let a := fresh "a" in
  let Ha := fresh "Hc" in
  apply bind_Ret in H; destruct H as [a [Ha H]].

(** One step of case analysis on a hypothesis [... = Ret b]: on the call
    that is bound first, or on what is matched on. *)
Ltac step H :=
  match type of H with
  | bind ?c _ = Ret _ => destruct c eqn:?; cbn [bind] in H; [ | discriminate | discriminate]
  | match ?x with _ => _ end = Ret _ => destruct x eqn:?; try discriminate
  end.

(** ** The character iterator protocol (C7) *)

Lemma iteratorStep_keeps tcb it textPos it' :
  iteratorStep tcb it = Ret (textPos, it') ->
  previousTextPos it' = previousTextPos it
  /\ returnPreviousTextPos it' = returnPreviousTextPos it.
Proof.
  unfold iteratorStep. destruct (finished it).
  - intros H; inv H; auto.
  - intros H. unbind H. unbind H. destruct a0 as [t f]. unbind H. inv H. auto.
Qed.

Lemma iteratorNextLoop_delivers tcb fuel : forall it c it1,
  iteratorNextLoop tcb fuel it = Ret (Some c, it1) ->
  previousTextPos it1 = Some c /\ returnPreviousTextPos it1 = returnPreviousTextPos it.
Proof.
  induction fuel as [|fuel IH]; simpl; intros it c it1 H; [discriminate|].
  unbind H. destruct a as [textPos it']. apply iteratorStep_keeps in Hc.
  destruct Hc as [_ Hflag]. destruct textPos as [t|]; [|discriminate].
  destruct (truthy (character t)).
  - inv H. simpl. auto.
  - apply IH in H. destruct H as [H1 H2]. split; congruence.
Qed.

Lemma iteratorNext_delivers tcb it c it1 :
  iteratorNext tcb it = Ret (Some c, it1) ->
  previousTextPos it1 = Some c /\ returnPreviousTextPos it1 = false.
Proof.
  unfold iteratorNext. destruct (returnPreviousTextPos it) eqn:Hflag.
  - intros H; inv H. simpl. auto.
  - intros H. apply iteratorNextLoop_delivers in H. destruct H; split; congruence.
Qed.

(** C7, amended. After a [next()] that returned the character [c],
    [rewind()] succeeds, the following [next()] returns [c] again and leaves
    the iterator as it was after the first delivery (so [c] is re-delivered
    once); a second [rewind()] in a row raises nothing and changes nothing;
    and [rewind()] on an iterator that has not returned any character yet,
    a new one in particular, raises the module's error. *)
Theorem rewind_protocol (tcb : bool) (it : CharacterIterator) :
  (forall c it1,
      iteratorNext tcb it = Ret (Some c, it1) ->
      exists it2,
        iteratorRewind it1 = Ret it2
        /\ iteratorNext tcb it2 = Ret (Some c, it1)
        /\ iteratorRewind it2 = Ret it2)
  /\ (previousTextPos it = None -> iteratorRewind it = Throw (ModuleError rewindMessage))
  /\ (forall startPos backward endPos options,
         createCharacterIterator tcb startPos backward endPos options = Ret it ->
         iteratorRewind it = Throw (ModuleError rewindMessage)).
Proof.
  split; [|split].
  - intros c it1 H. apply iteratorNext_delivers in H. destruct H as [Hprev Hflag].
    destruct it1 as [b e o p f prev flag]. simpl in *. subst.
    eexists. split; [reflexivity|]. split; reflexivity.
  - intros H. unfold iteratorRewind. rewrite H. reflexivity.
  - intros startPos b endPos options H. unfold createCharacterIterator in H.
    unbind H. inv H. reflexivity.
Qed.

(** The iterator over the contents of [<div>a  b</div>]. *)
Definition doubleSpaceIterator : result CharacterIterator :=
  createRangeCharacterIterator false (selectNodeContents doubleSpaceDiv) defaultCharacterOptions false.

Lemma doubleSpace_first_next :
  exists it c it1,
    doubleSpaceIterator = Ret it
    /\ iteratorNext false it = Ret (Some c, it1)
    /\ character c = js "a".
Proof.
  destruct doubleSpaceIterator as [it| |] eqn:Hit; try (vm_compute in Hit; discriminate).
  destruct (iteratorNext false it) as [[[c|] it1]| |] eqn:Hnext;
    try (vm_compute in Hit; inversion Hit; subst; vm_compute in Hnext; discriminate).
  exists it, c, it1. split; [reflexivity|]. split; [exact Hnext|].
  vm_compute in Hit; inversion Hit; subst; vm_compute in Hnext; inversion Hnext; reflexivity.
Qed.

Lemma rewind_protocol_witness :
  exists it c it1 it2,
    doubleSpaceIterator = Ret it
    /\ iteratorNext false it = Ret (Some c, it1)
    /\ character c = js "a"
    /\ iteratorRewind it1 = Ret it2
    /\ iteratorNext false it2 = Ret (Some c, it1)
    /\ iteratorRewind it2 = Ret it2
    /\ iteratorRewind it = Throw (ModuleError rewindMessage).
Proof.
  destruct doubleSpace_first_next as [it [c [it1 [Hit [Hnext Hc]]]]].
  destruct (rewind_protocol false it) as [H1 [_ H3]].
  destruct (H1 c it1 Hnext) as [it2 [Ha [Hb Hd]]].
  exists it, c, it1, it2. repeat (split; [assumption|]).
  unfold doubleSpaceIterator, createRangeCharacterIterator in Hit.
  exact (H3 _ _ _ _ Hit).
Defined.

(** C7 as stated fails: a second [rewind()] in a row raises no error. *)
Lemma double_rewind_raises_nothing :
  ~ (forall it c it1 it2,
        iteratorNext false it = Ret (Some c, it1) ->
        iteratorRewind it1 = Ret it2 ->
        exists e, iteratorRewind it2 = Throw e).
Proof.
  intros claim.
  destruct doubleSpace_first_next as [it [c [it1 [_ [Hnext _]]]]].
  destruct (iteratorNext_delivers _ _ _ _ Hnext) as [Hprev _].
  assert (Hr : iteratorRewind it1 =
               Ret (mkIterator (backward it1) (endPos it1) (characterOptions it1) (pos it1)
                               (finished it1) (previousTextPos it1) true)).
  { unfold iteratorRewind. rewrite Hprev. reflexivity. }
  destruct (claim it c it1 _ Hnext Hr) as [e He].
  unfold iteratorRewind in He. simpl in He. rewrite Hprev in He. discriminate.
Qed.

(** ** Unsupported units (C8) *)

(** C8, amended. With a unit that is neither "character" nor "word",
    [movePositionBy], and with it [moveStart], [moveEnd] and [move], raises
    its error for every count other than zero, before any iterator is
    created; for the count zero it raises nothing and returns the position
    unchanged with zero units moved; and [expand] never raises that error:
    it treats every unit other than "word" as "character". *)
Theorem unsupported_unit (tcb : bool) (unit : string) :
  unit <> CHARACTER -> unit <> WORD ->
  (forall pos count characterOptions wordOptions,
      count <> 0%Z ->
      movePositionBy tcb pos unit count characterOptions wordOptions
      = Throw (unitNotImplemented unit))
  /\ (forall isStart collapseFirst range count moveOptions,
         count <> 0%Z ->
         moveBoundary tcb isStart collapseFirst range unit count moveOptions
         = Throw (unitNotImplemented unit))
  /\ (forall pos characterOptions wordOptions,
         movePositionBy tcb pos unit 0 characterOptions wordOptions
         = Ret (mkMoveResult (Some pos) 0))
  /\ (forall range expandOptions,
         unit <> "" ->
         expand tcb range unit expandOptions
         = ('(n, r) <- moveEnd tcb range CHARACTER 1
                         (Some (mkMoveOptions
                                  (expandWordOptions (createOptions expandOptions defaultExpandOptions))
                                  (expandCharacterOptions (createOptions expandOptions defaultExpandOptions)))) ;;
            Ret (UnitsMoved n, r))).
Proof.
  intros Hc Hw.
  apply String.eqb_neq in Hc. apply String.eqb_neq in Hw.
  assert (Hmove : forall pos count characterOptions wordOptions,
             count <> 0%Z ->
             movePositionBy tcb pos unit count characterOptions wordOptions
             = Throw (unitNotImplemented unit)).
  { intros pos count co wo Hcount. unfold movePositionBy.
    apply Z.eqb_neq in Hcount. rewrite Hcount, Hc, Hw. reflexivity. }
  split; [exact Hmove|]. split; [|split].
  - intros isStart collapseFirst range count mo Hcount. unfold moveBoundary.
    rewrite Hmove by assumption. reflexivity.
  - intros pos co wo. reflexivity.
  - intros range eo Hne. apply String.eqb_neq in Hne. unfold expand.
    rewrite Hne, Hw. reflexivity.
Qed.

Lemma unsupported_unit_witness :
  movePositionBy false (posAt doubleSpaceDiv 0) "sentence" 3 defaultCharacterOptions defaultWordOptions
  = Throw (unitNotImplemented "sentence")
  /\ movePositionBy false (posAt doubleSpaceDiv 0) "sentence" 0 defaultCharacterOptions defaultWordOptions
     = Ret (mkMoveResult (Some (posAt doubleSpaceDiv 0)) 0).
Proof.
  assert (Hc : "sentence" <> CHARACTER) by discriminate.
  assert (Hw : "sentence" <> WORD) by discriminate.
  destruct (unsupported_unit false "sentence" Hc Hw) as [H1 [_ [H3 _]]].
  split; [apply H1; discriminate | apply H3].
Defined.

(** C8 as stated fails: for the count zero no error is raised. *)
Lemma unsupported_unit_zero_count :
  ~ (forall pos unit count characterOptions wordOptions,
        unit <> CHARACTER -> unit <> WORD ->
        exists e, movePositionBy false pos unit count characterOptions wordOptions = Throw e).
Proof.
  intros claim.
  destruct (claim (posAt doubleSpaceDiv 0) "sentence" 0%Z defaultCharacterOptions defaultWordOptions)
    as [e He]; try discriminate.
Qed.

(** ** Character ranges (C9) *)

(** C9. The character range [toCharacterRange] returns has [start <= end]:
    [end] is [start] plus the length of the text of the range. *)
Theorem toCharacterRange_ordered (tcb : bool) (range : Range) (containerNode : Loc)
        (characterOptions : option CharacterOptions) (cr : CharacterRange) :
  toCharacterRange tcb range containerNode characterOptions = Ret cr ->
  (start cr <= end_ cr)%Z
  /\ exists t, text tcb range characterOptions = Ret t
               /\ end_ cr = (start cr + Z.of_nat (length t))%Z.
Proof.
  unfold toCharacterRange. destruct (parentNode containerNode) as [parent|]; [|discriminate].
  intros H. unbind H. unbind H. inv H. simpl. split; [lia|]. eauto.
Qed.

(** The range from inside the text before the [div] of [siblingDoc] to
    inside the [div]: it starts two characters before the [div]. *)
Definition siblingRange : Range :=
  mkRange (at_path siblingDoc [0; 0; 0]) 1 (at_path siblingDoc [0; 0; 1; 0]) 2.

Lemma toCharacterRange_ordered_witness :
  toCharacterRange false siblingRange (at_path siblingDoc [0; 0; 1]) None
  = Ret (mkCharacterRange (-2) 2)
  /\ (-2 <= 2)%Z
  /\ exists t, text false siblingRange None = Ret t /\ 2%Z = (-2 + Z.of_nat (length t))%Z.
Proof.
  assert (H : toCharacterRange false siblingRange (at_path siblingDoc [0; 0; 1]) None
              = Ret (mkCharacterRange (-2) 2)) by (vm_compute; reflexivity).
  split; [exact H|].
  exact (toCharacterRange_ordered false siblingRange (at_path siblingDoc [0; 0; 1]) None _ H).
Defined.

(** ** Collapsed spaces (C5) *)

(** C5. The text of the contents of [<div>a  b</div>] is "a b": the first
    space of the run is a space, the second one the empty string. *)
Theorem double_space_collapses (tcb : bool) :
  text tcb (selectNodeContents doubleSpaceDiv) None = Ret (js "a b")
  /\ (t <- getCharacterAt tcb (posAt doubleSpaceText 2) None defaultCharacterOptions ;;
      Ret (character t)) = Ret (js " ")
  /\ (t <- getCharacterAt tcb (posAt doubleSpaceText 3) None defaultCharacterOptions ;;
      Ret (character t)) = Ret (js "").
Proof. repeat split; vm_compute; reflexivity. Qed.

(** ** Restoring a saved selection (C10) *)

Section RestoreSelection.

Variable World : Type.
Variable RangeRef : Type.
Variable ElementRef : Type.
Variable removeAllRanges : World -> result World.
Variable createRange : World -> result (RangeRef * World).
Variable getElementById : World -> string -> option ElementRef.
Variable setStartBefore : RangeRef -> ElementRef -> World -> result World.
Variable setEndBefore : RangeRef -> ElementRef -> World -> result World.
Variable removeChild : ElementRef -> World -> result World.
Variable normalizeBoundaries : RangeRef -> World -> result World.
Variable addRange : RangeRef -> World -> result World.

Let restore := SaveRestore.restoreSelection World RangeRef ElementRef removeAllRanges createRange
                 getElementById setStartBefore setEndBefore removeChild normalizeBoundaries addRange.

(** C10. A call of [restoreSelection] that returns leaves the saved
    selection marked as restored, and every later call on it returns at
    once: it changes neither the host state (selection, document, markers)
    nor the saved selection, whatever the host state is by then. *)
Theorem restoreSelection_idempotent (saved saved' : SaveRestore.SavedSelection) (w w' : World) :
  restore saved w = Ret (saved', w') ->
  SaveRestore.restored saved' = true
  /\ forall w2, restore saved' w2 = Ret (saved', w2).
Proof.
  unfold restore, SaveRestore.restoreSelection.
  destruct (SaveRestore.restored saved) eqn:Hr; simpl.
  - intros H; inv H. split; [assumption|]. intros w2. rewrite Hr. reflexivity.
  - intros H. unbind H. unbind H. inv H. simpl. split; [reflexivity|]. reflexivity.
Qed.

End RestoreSelection.

Definition toySaved : SaveRestore.SavedSelection :=
  SaveRestore.mkSavedSelection [SaveRestore.mkRangeInfo "s1" "e1"] false.
Definition toyStart : SaveRestore.ToyWorld :=
  SaveRestore.mkToyWorld ["e1"; "s1"] [] [7].

Lemma restoreSelection_idempotent_witness :
  SaveRestore.toyRestoreSelection toySaved toyStart
  = Ret (SaveRestore.mkSavedSelection [SaveRestore.mkRangeInfo "s1" "e1"] true,
         SaveRestore.mkToyWorld [] [(Some "s1", Some "e1")] [0])
  /\ forall w2,
       SaveRestore.toyRestoreSelection
         (SaveRestore.mkSavedSelection [SaveRestore.mkRangeInfo "s1" "e1"] true) w2
       = Ret (SaveRestore.mkSavedSelection [SaveRestore.mkRangeInfo "s1" "e1"] true, w2).
Proof.
  assert (H : SaveRestore.toyRestoreSelection toySaved toyStart
              = Ret (SaveRestore.mkSavedSelection [SaveRestore.mkRangeInfo "s1" "e1"] true,
                     SaveRestore.mkToyWorld [] [(Some "s1", Some "e1")] [0]))
    by (vm_compute; reflexivity).
  split; [exact H|].
  exact (proj2 (restoreSelection_idempotent _ _ _ _ _ _ _ _ _ _ _ _ _ _ _ H)).
Defined.

(** ** Forward then backward in the position graph (C4) *)

Lemma firstn_nth_skipn {A} (l : list A) (i : nat) (x : A) :
  nth_error l i = Some x -> firstn i l ++ x :: skipn (S i) l = l /\ i < length l.
Proof.
  revert i. induction l as [|a l IH]; intros [|i] H; simpl in *; try discriminate.
  - inv H. split; [reflexivity | lia].
  - destruct (IH i H) as [E L]. rewrite E. split; [reflexivity | lia].
Qed.

Lemma parentNode_childNode (n c : Loc) (i : nat) :
  childNode n i = Some c -> parentNode c = Some n /\ getNodeIndex c = i.
Proof.
  unfold childNode. destruct n as [foc ctx]. simpl.
  destruct foc as [sh cs| | | |]; try discriminate.
  destruct (nth_error cs i) as [x|] eqn:Hx; [|discriminate].
  intros H; inv H. destruct (firstn_nth_skipn _ _ _ Hx) as [E L].
  unfold parentNode, getNodeIndex. cbn [context focus lefts shell rights].
  simpl skipn in E. rewrite rev_involutive, E.
  split; [reflexivity|]. rewrite length_rev, length_firstn. lia.
Qed.

Lemma childNode_parentNode (n parent : Loc) :
  parentNode n = Some parent -> childNode parent (getNodeIndex n) = Some n.
Proof.
  unfold parentNode, getNodeIndex. destruct n as [foc [|[ls sh rs] up]]; simpl; [discriminate|].
  intros H; inv H. unfold childNode. cbn [focus context lefts shell rights].
  assert (Hn : nth_error (rev ls ++ foc :: rs) (length ls) = Some foc).
  { rewrite nth_error_app2 by (rewrite length_rev; lia).
    rewrite length_rev, Nat.sub_diag. reflexivity. }
  rewrite Hn.
  assert (Hf : firstn (length ls) (rev ls ++ foc :: rs) = rev ls).
  { rewrite <- (length_rev ls). rewrite firstn_app, firstn_all, Nat.sub_diag. simpl.
    apply app_nil_r. }
  assert (Hs : skipn (S (length ls)) (rev ls ++ foc :: rs) = rs).
  { rewrite <- (length_rev ls). rewrite skipn_app.
    rewrite skipn_all2 by lia.
    replace (S (length (rev ls)) - length (rev ls)) with 1 by lia. reflexivity. }
  rewrite Hf, Hs, rev_involutive. reflexivity.
Qed.

Lemma parent_is_no_character_data (n parent : Loc) :
  parentNode n = Some parent -> isCharacterDataNode parent = false.
Proof.
  unfold parentNode. destruct (context n) as [|f up]; [discriminate|].
  intros H; inv H. unfold isCharacterDataNode, nodeType. simpl.
  destruct (shell f); reflexivity.
Qed.

Lemma childNode_exists (n : Loc) (o : nat) :
  isCharacterDataNode n = false -> o <= getNodeLength n -> o <> getNodeLength n ->
  exists c, childNode n o = Some c.
Proof.
  unfold isCharacterDataNode, nodeType, getNodeLength, childNode.
  destruct (focus n) as [sh cs|d|d|t d|nm]; simpl; intros Hcd Hle Hne; try discriminate; try lia.
  destruct (nth_error cs o) as [c|] eqn:Hc; [eauto|].
  apply nth_error_None in Hc. lia.
Qed.




(** ** The default tokenizer (C3) *)


Lemma search_bounds (r : Pattern) : forall s i index len,
  search r s i = Some (index, len) -> i <= index /\ index + len <= i + length s.
Proof.
  induction s as [|c s IH]; intros i index len H; cbn [search] in H.
  - destruct (matchPattern r [] (fun rest => Some rest)) eqn:Hm; [|discriminate].
    injection H as <- <-. lia.
  - destruct (matchPattern r (c :: s) (fun rest => Some rest)) eqn:Hm.
    + injection H as <- <-. split; [lia|]. destruct (length j); simpl; lia.
    + apply IH in H. cbn [length]. lia.
Qed.

(** [exec] of a global regular expression: the match lies in the subject,
    at or after [lastIndex], and the new [lastIndex] is its end. *)
Lemma exec_global (regex : RegExp) (str : jsstring) (lastIndex index len lastIndex' : nat) :
  global regex = true ->
  exec regex str lastIndex = (Some (index, len), lastIndex') ->
  lastIndex <= index /\ index + len <= length str /\ lastIndex' = index + len.
Proof.
  intros Hg. unfold exec. rewrite Hg.
  destruct (lastIndex <=? length str) eqn:Hle; [|discriminate].
  apply Nat.leb_le in Hle.
  destruct (search (source regex) (skipn lastIndex str) lastIndex) as [[i l]|] eqn:Hs; [|discriminate].
  intros H; inv H. apply search_bounds in Hs. rewrite length_skipn in Hs. lia.
Qed.



















(** ** Wrapping around in [findText] (C6) *)



Lemma findTextLoop_step tcb fuel range term fo b ip st :
  findTextLoop tcb (S fuel) range term fo b ip st
  = (turn <- findTextTurn tcb range term fo b ip st ;;
     match turn with
     | inl returned => Ret returned
     | inr st' => findTextLoop tcb fuel range term fo b ip st'
     end).
Proof. reflexivity. Qed.



(** ** Whole words in [findText] (C2) *)

Lemma handleMatch_valid tcb fo cs si ei fr :
  handleMatch tcb fo cs si ei = Ret fr ->
  wholeWordsOnly fo = true ->
  isWholeWord tcb (startPos fr) (foundEndPos fr) (findWordOptions fo) = Ret (valid fr).
Proof.
  unfold handleMatch. intros H Hw.
  destruct si as [si|]; [|discriminate]. destruct ei as [ei|]; [|discriminate].
  destruct (nth_error cs si) as [first|]; [|discriminate].
  unbind H.
  destruct (if ei =? 0 then None else nth_error cs (ei - 1)) as [last|]; [|discriminate].
  rewrite Hw in H. simpl in H. unbind H. inv H. simpl. assumption.
Qed.

Lemma findLoop_valid tcb fuel : forall it b term fo st fr st',
  findLoop tcb fuel it b term fo st = Ret (Some fr, st') ->
  wholeWordsOnly fo = true ->
  isWholeWord tcb (startPos fr) (foundEndPos fr) (findWordOptions fo) = Ret (valid fr).
Proof.
  induction fuel as [|fuel IH]; intros it b term fo st fr st' H Hw; [discriminate|].
  cbn [findLoop] in H.
  unbind H. destruct a as [textPos it']. cbv beta iota in H.
  destruct textPos as [textPos|]; [|discriminate].
  destruct term as [term|regex].
  - match type of H with
    | match ?m with _ => _ end = _ => destruct m as [i|]
    end.
    + unbind H. inv H. eapply handleMatch_valid; eassumption.
    + eapply IH; eassumption.
  - match type of H with
    | match ?m with _ => _ end = _ => destruct m as [[[index len]|] lastIndex]
    end.
    + destruct (insideRegexMatch st).
      * match type of H with
        | (if ?c then _ else _) = _ => destruct c
        end.
        -- unbind H. inv H. eapply handleMatch_valid; eassumption.
        -- eapply IH; eassumption.
      * eapply IH; eassumption.
    + eapply IH; eassumption.
Qed.

Lemma findTextFromPosition_valid tcb pos term scope fo fr :
  findTextFromPosition tcb pos term scope fo = Ret (Some fr) ->
  wholeWordsOnly fo = true ->
  isWholeWord tcb (startPos fr) (foundEndPos fr) (findWordOptions fo) = Ret (valid fr).
Proof.
  unfold findTextFromPosition. intros H Hw. destruct pos as [pos|]; [|discriminate].
  unbind H. unbind H. destruct a0 as [returnValue st].
  destruct (insideRegexMatch st).
  - unbind H. inv H. eapply handleMatch_valid; eassumption.
  - inv H. eapply findLoop_valid; eassumption.
Qed.

(** [setStart] then [setEnd] give a range that does not depend on the range
    they are called on. *)
Lemma set_boundaries_fresh (ra rb : Range) (s : option Loc) (so : nat) (e : option Loc) (eo : nat) :
  (r <- setStart ra s so ;; setEnd r e eo) = (r <- setStart rb s so ;; setEnd r e eo).
Proof.
  unfold setStart. destruct s as [s|]; [|reflexivity].
  destruct (nodeType s =? 10); [reflexivity|].
  destruct (getNodeLength s <? so); [reflexivity|].
  destruct (comparePoints s (NumberArg so) (endContainer ra) (endOffset ra) =? 1)%Z,
           (comparePoints s (NumberArg so) (endContainer rb) (endOffset rb) =? 1)%Z;
    simpl; unfold setEnd; destruct e as [e|]; try reflexivity;
    simpl; destruct (nodeType e =? 10); try reflexivity;
    destruct (getNodeLength e <? eo); try reflexivity;
    destruct (comparePoints e (NumberArg eo) s so =? -1)%Z; reflexivity.
Qed.

(** [expand("word")] without trimming that reports no move returns the
    range it was given. *)
Lemma expand_not_moved tcb range r' :
  expand tcb range WORD None = Ret (Moved false, r') -> r' = range.
Proof.
  unfold expand.
  change (String.eqb WORD "") with false. cbv iota.
  change (String.eqb WORD WORD) with true. cbv iota.
  cbn [createOptions trim defaultExpandOptions expandWordOptions expandCharacterOptions].
  intros H. repeat step H. inv H.
  repeat match goal with
         | E : (if ?c then _ else _) = Ret _ |- _ => destruct c
         | E : bind _ _ = Ret _ |- _ => unbind E
         | E : Ret _ = Ret _ |- _ => inv E
         end; reflexivity.
Qed.

Lemma expand_as_word_options tcb range wordOptions :
  expand tcb range WORD (wordOptionsAsExpandOptions wordOptions) = expand tcb range WORD None.
Proof. destruct wordOptions; reflexivity. Qed.

Lemma findTextLoop_whole_word tcb fuel range term fo b ip : forall st r',
  findTextLoop tcb fuel range term fo b ip st = Ret (true, r') ->
  wholeWordsOnly fo = true ->
  expand tcb r' WORD None = Ret (Moved false, r').
Proof.
  induction fuel as [|fuel IH]; intros st r' H Hw; [discriminate|].
  rewrite findTextLoop_step in H. unbind H. destruct a as [returned|st'].
  - inv H. unfold findTextTurn in Hc. unbind Hc. destruct a as [fr|].
    + pose proof (findTextFromPosition_valid _ _ _ _ _ _ Hc0 Hw) as Hvalid.
      destruct (valid fr); [|discriminate].
      destruct (startPos fr) as [s|] eqn:Hs; [|discriminate].
      unbind Hc. unbind Hc. inv Hc.
      unfold isWholeWord in Hvalid. destruct (node s) as [n|] eqn:Hn; [|discriminate].
      unbind Hvalid. unbind Hvalid. unbind Hvalid. destruct a2 as [moved range'].
      rewrite expand_as_word_options in Hc4.
      assert (E : Ret a1 = Ret r').
      { pose proof (set_boundaries_fresh (createRange n) range (Some n) (offset s)
                      (node (foundEndPos fr)) (offset (foundEndPos fr))) as F.
        rewrite Hc, Hc1 in F. simpl in F. rewrite Hc3, Hc2 in F. exact F. }
      inv E. destruct moved as [m|n'].
      * destruct m; [discriminate|]. rewrite Hc4.
        rewrite (expand_not_moved _ _ _ Hc4). reflexivity.
      * exfalso. revert Hc4. clear. unfold expand.
        change (String.eqb WORD "") with false. cbv iota.
        change (String.eqb WORD WORD) with true. cbv iota.
        cbn [createOptions trim defaultExpandOptions expandWordOptions expandCharacterOptions].
        intros H; repeat step H; try discriminate.
    + destruct (wrap fo && negb (wrappedAround st)); [|discriminate].
      destruct b; unbind Hc; discriminate.
  - eapply IH; eassumption.
Qed.

(** C2. When [findText] with [wholeWordsOnly] returns true, the range it
    has set is word-aligned: [expand("word")] on it reports no move and
    leaves it as it is.  In any turn of the search (with the options as
    [findText] has prepared them), a match found is valid exactly when
    [isWholeWord], that is [expand("word")] reporting no move, says so for
    its boundaries; and a match that is not valid is not returned by the
    turn that finds it: the search goes on from the end of that match
    (searching forward; from its start searching backward), in the same
    scope. *)
Theorem whole_word_match (tcb : bool) (range : Range) (term : SearchTerm) (fo : FindOptions)
        (r' : Range) :
  wholeWordsOnly fo = true ->
  findText tcb range term (Some fo) = Ret (true, r') ->
  expand tcb r' WORD None = Ret (Moved false, r')
  /\ (forall st fr,
         findTextFromPosition tcb (searchPos st) term (searchScopeRange st)
                              (prepareFindOptions (Some fo)) = Ret (Some fr) ->
         isWholeWord tcb (startPos fr) (foundEndPos fr)
                     (findWordOptions (prepareFindOptions (Some fo))) = Ret (valid fr))
  /\ (forall b ip st fr,
         findTextFromPosition tcb (searchPos st) term (searchScopeRange st)
                              (prepareFindOptions (Some fo)) = Ret (Some fr) ->
         valid fr = false ->
         findTextTurn tcb range term (prepareFindOptions (Some fo)) b ip st
         = Ret (inr (mkSearchState (if b then startPos fr else Some (foundEndPos fr))
                                   (searchScopeRange st) (wrappedAround st)))).
Proof.
  intros Hw H.
  assert (Hw' : wholeWordsOnly (prepareFindOptions (Some fo)) = true).
  { unfold prepareFindOptions. simpl. rewrite Hw. reflexivity. }
  split; [|split].
  - unfold findText in H. eapply findTextLoop_whole_word; [exact H | exact Hw'].
  - intros st fr Hf. eapply findTextFromPosition_valid; eassumption.
  - intros b ip st fr Hf Hv. unfold findTextTurn. rewrite Hf. simpl. rewrite Hv. reflexivity.
Qed.

Lemma whole_word_match_witness :
  findText false concatenateStart (StringTerm (js "cat")) (Some wholeWords)
  = Ret (true, mkRange concatenateText 12 concatenateText 15)
  /\ expand false (mkRange concatenateText 12 concatenateText 15) WORD None
     = Ret (Moved false, mkRange concatenateText 12 concatenateText 15).
Proof.
  assert (H : findText false concatenateStart (StringTerm (js "cat")) (Some wholeWords)
              = Ret (true, mkRange concatenateText 12 concatenateText 15))
    by (vm_compute; reflexivity).
  split; [exact H|].
  exact (proj1 (whole_word_match false concatenateStart (StringTerm (js "cat")) wholeWords _
                                 eq_refl H)).
Defined.

(** ** Selecting characters and reading them back (C1) *)

(** *** Document order of positions *)

(** The number of positions before the first position of a node, from its
    context, and of the positions of a node before one of its offsets. *)
Definition frameWeight (f : Frame) : nat :=
  S (length (lefts f)) + list_sum (map positionCount (lefts f)).
Definition startRank (ctx : list Frame) : nat := list_sum (map frameWeight ctx).
Definition localRank (foc : Node) (o : nat) : nat :=
  match foc with
  | Inner _ cs => o + list_sum (map positionCount (firstn o cs))
  | _ => o
  end.
(** The number of positions of the document before the position [(n, o)]. *)
Definition rank (n : Loc) (o : nat) : nat := startRank (context n) + localRank (focus n) o.

(** A position as a word: the child indices from the root, then the
    offset; an offset [o] lies before the child of index [o] and after the
    child of index [o - 1]. *)
Definition codeOf (path : list nat) (o : nat) : list nat :=
  map (fun k => 2 * k + 1) path ++ [2 * o].
Definition code (n : Loc) (o : nat) : list nat := codeOf (rev (pathOf n)) o.

Inductive lexlt : list nat -> list nat -> Prop :=
| lexlt_nil x l : lexlt [] (x :: l)
| lexlt_lt a b l l' : a < b -> lexlt (a :: l) (b :: l')
| lexlt_eq a l l' : lexlt l l' -> lexlt (a :: l) (a :: l').

Lemma lexlt_irrefl l : ~ lexlt l l.
Proof. induction l as [|a l IH]; intros H; inversion H; subst; [lia | auto]. Qed.

Lemma lexlt_trans a b c : lexlt a b -> lexlt b c -> lexlt a c.
Proof.
  intros Hab. revert c. induction Hab as [x l|a b l l' Hlt|a l l' H IH]; intros c Hbc;
    inversion Hbc; subst.
  - constructor.
  - constructor.
  - apply lexlt_lt. lia.
  - apply lexlt_lt. assumption.
  - apply lexlt_lt. assumption.
  - apply lexlt_eq. auto.
Qed.

Lemma lexlt_prefix pre a b : lexlt a b -> lexlt (pre ++ a) (pre ++ b).
Proof. induction pre; simpl; intros; [assumption | apply lexlt_eq; auto]. Qed.

(** [comparePoints] answering "before" means before in this order. *)
Lemma comparePaths_before pa : forall pb a b,
  comparePaths pa pb (NumberArg a) b = (-1)%Z -> lexlt (codeOf pa a) (codeOf pb b).
Proof.
  unfold codeOf.
  induction pa as [|i pa IH]; intros [|j pb] a b H; simpl in H.
  - destruct (a =? b) eqn:E; [discriminate|]. destruct (a <? b) eqn:L; [|discriminate].
    apply Nat.ltb_lt in L. simpl. apply lexlt_lt. lia.
  - destruct (a <=? j) eqn:L; [|discriminate]. apply Nat.leb_le in L.
    simpl. apply lexlt_lt. lia.
  - destruct (i <? b) eqn:L; [|discriminate]. apply Nat.ltb_lt in L.
    simpl. apply lexlt_lt. lia.
  - destruct (i =? j) eqn:E.
    + apply Nat.eqb_eq in E. subst j. simpl. apply lexlt_eq. apply IH. assumption.
    + destruct (i <? j) eqn:L; [|discriminate]. apply Nat.ltb_lt in L.
      simpl. apply lexlt_lt. lia.
Qed.

Lemma comparePoints_not_before (n : Loc) (o : nat) (n' : Loc) (o' : nat) :
  lexlt (code n' o') (code n o) ->
  (comparePoints n (NumberArg o) n' o' =? -1)%Z = false.
Proof.
  intros H. apply Z.eqb_neq. intros E. apply comparePaths_before in E.
  exact (lexlt_irrefl _ (lexlt_trans _ _ _ H E)).
Qed.


Lemma pos_equals_code (n : Loc) (o : nat) (n' : Loc) (o' : nat) :
  pos_equals (posAt n o) (Some (posAt n' o')) = true -> code n o = code n' o'.
Proof.
  unfold pos_equals, posAt, optnode_eqb, node_eqb, code. simpl.
  destruct (list_eq_dec Nat.eq_dec (pathOf n) (pathOf n')) as [E|]; [|discriminate].
  simpl. intros H. apply Nat.eqb_eq in H. rewrite E, H. reflexivity.
Qed.

Lemma pos_equals_refl (n : Loc) (o : nat) : pos_equals (posAt n o) (Some (posAt n o)) = true.
Proof.
  unfold pos_equals, posAt, optnode_eqb, node_eqb. simpl.
  destruct (list_eq_dec Nat.eq_dec (pathOf n) (pathOf n)); [|congruence].
  simpl. apply Nat.eqb_refl.
Qed.

Lemma lexlt_not_equal (n : Loc) (o : nat) (n' : Loc) (o' : nat) :
  lexlt (code n o) (code n' o') -> pos_equals (posAt n o) (Some (posAt n' o')) = false.
Proof.
  intros H. destruct (pos_equals (posAt n o) (Some (posAt n' o'))) eqn:E; [|reflexivity].
  apply pos_equals_code in E. rewrite E in H. destruct (lexlt_irrefl _ H).
Qed.

(** *** Positions and ranks along the tree *)

Lemma pathOf_child (n p : Loc) :
  parentNode n = Some p -> pathOf n = getNodeIndex n :: pathOf p.
Proof.
  unfold parentNode, pathOf, getNodeIndex. destruct (context n) as [|f up]; [discriminate|].
  intros H; inv H. reflexivity.
Qed.

Lemma documentOf_parent (n p : Loc) : parentNode n = Some p -> documentOf p = documentOf n.
Proof.
  unfold parentNode, documentOf. destruct n as [foc [|f up]]; simpl; [discriminate|].
  intros H; inv H. reflexivity.
Qed.

Lemma list_sum_firstn_le (l : list nat) (k : nat) : list_sum (firstn k l) <= list_sum l.
Proof.
  revert k. induction l as [|a l IH]; intros [|k]; simpl; try lia. specialize (IH k). lia.
Qed.

Lemma list_sum_firstn_S (l : list nat) (k : nat) :
  list_sum (firstn k l) <= list_sum (firstn (S k) l).
Proof.
  revert k. induction l as [|a l IH]; intros [|k]; simpl; try lia.
  specialize (IH k). simpl in IH. lia.
Qed.

Lemma localRank_end (n : Loc) :
  S (localRank (focus n) (getNodeLength n)) = positionCount (focus n).
Proof.
  unfold localRank, getNodeLength. destruct (focus n) as [sh cs|d|d|t d|nm]; simpl; try reflexivity.
  rewrite firstn_all. reflexivity.
Qed.

Lemma localRank_le (n : Loc) (o : nat) :
  o <= getNodeLength n -> localRank (focus n) o < positionCount (focus n).
Proof.
  unfold localRank, getNodeLength. destruct (focus n) as [sh cs|d|d|t d|nm]; simpl; try lia.
  intros H. rewrite <- firstn_map.
  pose proof (list_sum_firstn_le (map positionCount cs) o). lia.
Qed.

Lemma localRank_next (foc : Node) (o : nat) : localRank foc o < localRank foc (S o).
Proof.
  unfold localRank. destruct foc as [sh cs|d|d|t d|nm]; try lia.
  rewrite <- !firstn_map.
  pose proof (list_sum_firstn_S (map positionCount cs) o). lia.
Qed.

Lemma list_sum_rev (l : list nat) : list_sum (rev l) = list_sum l.
Proof. induction l as [|a l IH]; simpl; [reflexivity|]. rewrite list_sum_app. simpl. lia. Qed.

(** Up: from the end of a node to after it in its parent. *)
Lemma rank_up (n p : Loc) :
  parentNode n = Some p ->
  rank p (getNodeIndex n + 1) = S (rank n (getNodeLength n))
  /\ getNodeIndex n + 1 <= getNodeLength p.
Proof.
  pose proof (localRank_end n) as He. revert He.
  unfold parentNode, rank, getNodeIndex, getNodeLength.
  destruct n as [foc [|[ls sh rs] up]]; simpl; [discriminate|].
  intros He H; inv H. simpl. unfold startRank. simpl.
  replace (length ls + 1) with (length (rev ls) + 1) by (rewrite length_rev; reflexivity).
  rewrite firstn_app_2. simpl.
  rewrite map_app, list_sum_app, map_rev, list_sum_rev. simpl.
  rewrite length_app, !length_rev. simpl. split; lia.
Qed.

(** Down: from before a child to the start of the child. *)
Lemma rank_down (n ch : Loc) (o : nat) :
  childNode n o = Some ch -> rank ch 0 = S (rank n o) /\ o < getNodeLength n.
Proof.
  unfold childNode, rank. destruct n as [foc ctx]. simpl.
  destruct foc as [sh cs| | | |]; try discriminate.
  destruct (nth_error cs o) as [x|] eqn:Hx; [|discriminate].
  intros H; inv H. destruct (firstn_nth_skipn _ _ _ Hx) as [_ L]. simpl.
  unfold startRank. simpl. unfold frameWeight. simpl.
  rewrite length_rev, length_firstn, map_rev.
  rewrite list_sum_rev.
  assert (H0 : localRank x 0 = 0) by (destruct x; reflexivity).
  rewrite H0. unfold getNodeLength. simpl. split; lia.
Qed.

Lemma rank_next (n : Loc) (o : nat) : rank n o < rank n (S o).
Proof. unfold rank. pose proof (localRank_next (focus n) o). lia. Qed.

Lemma startRank_bound (ctx : list Frame) : forall foc,
  startRank ctx + positionCount foc <= positionCount (rootNode foc ctx).
Proof.
  induction ctx as [|[ls sh rs] up IH]; intros foc; [unfold startRank; simpl; lia|].
  cbn [rootNode shell lefts rights].
  specialize (IH (Inner sh (rev ls ++ foc :: rs))). cbn [positionCount] in IH.
  unfold startRank in *. cbn [map list_sum]. unfold frameWeight at 1. cbn [lefts].
  rewrite map_app, list_sum_app, length_app, length_rev, map_rev in IH. simpl in IH.
  rewrite list_sum_rev in IH.
  change (list_sum (?a :: ?l)) with (a + list_sum l). lia.
Qed.

Lemma rank_bound (n : Loc) (o : nat) :
  o <= getNodeLength n -> rank n o < positionCount (documentOf n).
Proof.
  intros H. unfold rank, documentOf.
  pose proof (startRank_bound (context n) (focus n)).
  pose proof (localRank_le n o H). lia.
Qed.

(** The codes of the three steps. *)
Lemma code_up (n p : Loc) (o : nat) :
  parentNode n = Some p -> lexlt (code n o) (code p (getNodeIndex n + 1)).
Proof.
  intros H. unfold code, codeOf. rewrite (pathOf_child _ _ H). simpl.
  rewrite map_app, <- app_assoc. apply lexlt_prefix. simpl. apply lexlt_lt. lia.
Qed.

Lemma code_next (n : Loc) (o : nat) : lexlt (code n o) (code n (o + 1)).
Proof. unfold code, codeOf. apply lexlt_prefix. apply lexlt_lt. lia. Qed.

Lemma code_down (n ch : Loc) (o : nat) :
  childNode n o = Some ch -> lexlt (code n o) (code ch 0).
Proof.
  intros H. destruct (parentNode_childNode _ _ _ H) as [Hp Hi].
  unfold code, codeOf. rewrite (pathOf_child _ _ Hp), Hi. simpl.
  rewrite map_app, <- app_assoc. apply lexlt_prefix. simpl. apply lexlt_lt. lia.
Qed.

(** *** One step of the visible walk *)

(** Where [nextVisiblePosition] goes from a position of a node that is not
    collapsed: up to the parent, on in the node, or down into a child. *)
Lemma nextVisiblePosition_shape (tcb : bool) (n : Loc) (o : nat) (q : DomPosition) :
  o <= getNodeLength n ->
  isCollapsedNode tcb n = Ret false ->
  (o = getNodeLength n ->
   forall parent, parentNode n = Some parent -> isCollapsedNode tcb parent = Ret false) ->
  nextVisiblePosition tcb (posAt n o) = Ret (Some q) ->
  (o = getNodeLength n
   /\ exists parent, parentNode n = Some parent /\ q = posAt parent (getNodeIndex n + 1))
  \/ (o < getNodeLength n /\ q = posAt n (o + 1))
  \/ (exists ch, childNode n o = Some ch /\ containsPositions ch = true
                 /\ isCollapsedNode tcb ch = Ret false /\ q = posAt ch 0).
Proof.
  intros Hle Hvis Hparent Hnext.
  unfold nextVisiblePosition, nextPosition, isCollapsedNodeOf in Hnext. simpl in Hnext.
  destruct (o =? getNodeLength n) eqn:Hend.
  - apply Nat.eqb_eq in Hend.
    destruct (parentNode n) as [parent|] eqn:Hp; simpl in Hnext; [|discriminate].
    rewrite (Hparent Hend parent eq_refl) in Hnext. simpl in Hnext.
    injection Hnext as Hq; subst q. left. eauto.
  - apply Nat.eqb_neq in Hend.
    destruct (isCharacterDataNode n) eqn:Hcd; simpl in Hnext.
    + rewrite Hvis in Hnext. simpl in Hnext. injection Hnext as Hq; subst q.
      right; left. split; [lia | reflexivity].
    + destruct (childNode_exists n o Hcd Hle Hend) as [ch Hc]. rewrite Hc in Hnext.
      destruct (parentNode_childNode _ _ _ Hc) as [Hcp Hci].
      destruct (containsPositions ch) eqn:Hcpos; simpl in Hnext.
      * destruct (isCollapsedNode tcb ch) as [collapsed| |] eqn:Hcc; simpl in Hnext;
          try discriminate.
        destruct collapsed; injection Hnext as Hq; subst q.
        -- rewrite Hcp, Hci. right; left. split; [lia | reflexivity].
        -- right; right. exists ch. auto.
      * rewrite Hvis in Hnext. simpl in Hnext. injection Hnext as Hq; subst q.
        right; left. split; [lia | reflexivity].
Qed.

(** The step back, for a node whose parent matters only at its end. *)
Lemma nextVisiblePosition_back (tcb : bool) (n : Loc) (o : nat) (q : DomPosition) :
  o <= getNodeLength n ->
  isCollapsedNode tcb n = Ret false ->
  containsPositions n = true ->
  (o = getNodeLength n ->
   forall parent, parentNode n = Some parent -> isCollapsedNode tcb parent = Ret false) ->
  nextVisiblePosition tcb (posAt n o) = Ret (Some q) ->
  previousVisiblePosition tcb (Some q) = Ret (Some (posAt n o)).
Proof.
  intros Hle Hvis Hpos Hparent Hnext.
  unfold nextVisiblePosition, nextPosition, isCollapsedNodeOf in Hnext. simpl in Hnext.
  destruct (o =? getNodeLength n) eqn:Hend.
  - apply Nat.eqb_eq in Hend.
    destruct (parentNode n) as [parent|] eqn:Hp; simpl in Hnext; [|discriminate].
    rewrite (Hparent Hend parent eq_refl) in Hnext. simpl in Hnext.
    injection Hnext as Hq; subst q o.
    unfold previousVisiblePosition, previousPosition, isCollapsedNodeOf. simpl.
    replace (getNodeIndex n + 1 =? 0) with false by (symmetry; apply Nat.eqb_neq; lia).
    rewrite (parent_is_no_character_data _ _ Hp).
    replace (getNodeIndex n + 1 - 1) with (getNodeIndex n) by lia.
    rewrite (childNode_parentNode _ _ Hp), Hpos. simpl. rewrite Hvis. reflexivity.
  - apply Nat.eqb_neq in Hend.
    destruct (isCharacterDataNode n) eqn:Hcd; simpl in Hnext.
    + rewrite Hvis in Hnext. simpl in Hnext. injection Hnext as Hq; subst q.
      unfold previousVisiblePosition, previousPosition, isCollapsedNodeOf. simpl.
      replace (o + 1 =? 0) with false by (symmetry; apply Nat.eqb_neq; lia).
      rewrite Hcd. simpl. rewrite Hvis. simpl.
      replace (o + 1 - 1) with o by lia. reflexivity.
    + destruct (childNode_exists n o Hcd Hle Hend) as [ch Hc]. rewrite Hc in Hnext.
      destruct (parentNode_childNode _ _ _ Hc) as [Hcp Hci].
      destruct (containsPositions ch) eqn:Hcpos; simpl in Hnext.
      * destruct (isCollapsedNode tcb ch) as [collapsed| |] eqn:Hcc; simpl in Hnext;
          try discriminate.
        destruct collapsed; injection Hnext as Hq; subst q.
        -- unfold previousVisiblePosition, previousPosition, isCollapsedNodeOf. simpl.
           rewrite Hcp, Hci. simpl.
           replace (o + 1 =? 0) with false by (symmetry; apply Nat.eqb_neq; lia).
           rewrite Hcd.
           replace (o + 1 - 1) with o by lia.
           rewrite Hc, Hcpos. simpl. rewrite Hcc. simpl. rewrite Hcp, Hci. reflexivity.
        -- unfold previousVisiblePosition, previousPosition, isCollapsedNodeOf. simpl.
           rewrite Hcp, Hci. simpl. rewrite Hvis. reflexivity.
      * rewrite Hvis in Hnext. simpl in Hnext. injection Hnext as Hq; subst q.
        unfold previousVisiblePosition, previousPosition, isCollapsedNodeOf. simpl.
        replace (o + 1 =? 0) with false by (symmetry; apply Nat.eqb_neq; lia).
        rewrite Hcd.
        replace (o + 1 - 1) with o by lia.
        rewrite Hc, Hcpos. simpl. rewrite Hvis. reflexivity.
Qed.

(** *** The positions of a container *)

Section Container.

Variable tcb : bool.
Variable c : Loc.
Hypothesis c_visible : isCollapsedNode tcb c = Ret false.
Hypothesis c_positions : containsPositions c = true.

(** The nodes under the container that the walk visits: each one up to the
    container is not collapsed and contains positions. *)
Inductive inside : Loc -> Prop :=
| inside_self : inside c
| inside_child n p :
    parentNode n = Some p -> inside p ->
    isCollapsedNode tcb n = Ret false -> containsPositions n = true ->
    inside n.

Lemma inside_visible n : inside n -> isCollapsedNode tcb n = Ret false.
Proof. intros H; destruct H; assumption. Qed.

Lemma inside_positions n : inside n -> containsPositions n = true.
Proof. intros H; destruct H; assumption. Qed.

Lemma inside_path n : inside n -> exists extra, pathOf n = extra ++ pathOf c.
Proof.
  induction 1 as [|n p Hp Hin [extra IH] Hv Hc].
  - exists []. reflexivity.
  - exists (getNodeIndex n :: extra). rewrite (pathOf_child _ _ Hp), IH. reflexivity.
Qed.

Lemma inside_document n : inside n -> documentOf n = documentOf c.
Proof.
  induction 1 as [|n p Hp Hin IH Hv Hc]; [reflexivity|].
  rewrite <- (documentOf_parent _ _ Hp). assumption.
Qed.

Lemma inside_same_path n : inside n -> pathOf n = pathOf c -> n = c.
Proof.
  intros H E. destruct H as [|n p Hp Hin Hv Hc]; [reflexivity|].
  destruct (inside_path _ Hin) as [extra Hx].
  rewrite (pathOf_child _ _ Hp), Hx in E.
  apply (f_equal (@length nat)) in E. simpl in E. rewrite length_app in E. lia.
Qed.

Lemma inside_equals n o e :
  inside n -> pos_equals (posAt n o) (Some (posAt c e)) = true -> posAt n o = posAt c e.
Proof.
  intros Hin H. unfold pos_equals, posAt, optnode_eqb, node_eqb in H. simpl in H.
  destruct (list_eq_dec Nat.eq_dec (pathOf n) (pathOf c)) as [E|]; [|discriminate].
  simpl in H. apply Nat.eqb_eq in H. rewrite (inside_same_path _ Hin E), H. reflexivity.
Qed.

(** A step from a position of the container, other than its last one, stays
    in the container, moves forward in document order, and is undone by
    [previousVisiblePosition]. *)
Lemma inside_step n o q :
  inside n -> o <= getNodeLength n ->
  posAt n o <> posAt c (getNodeLength c) ->
  nextVisiblePosition tcb (posAt n o) = Ret (Some q) ->
  exists n' o', q = posAt n' o' /\ inside n' /\ o' <= getNodeLength n'
    /\ rank n o < rank n' o' /\ lexlt (code n o) (code n' o')
    /\ previousVisiblePosition tcb (Some q) = Ret (Some (posAt n o)).
Proof.
  intros Hin Hle Hne Hnext.
  assert (Hparent : o = getNodeLength n ->
            forall parent, parentNode n = Some parent ->
                           inside parent /\ isCollapsedNode tcb parent = Ret false).
  { intros Ho parent Hp. destruct Hin as [|n p Hp' Hin Hv Hc].
    - subst o. congruence.
    - rewrite Hp in Hp'. inv Hp'. split; [assumption | apply inside_visible; assumption]. }
  assert (Hback : previousVisiblePosition tcb (Some q) = Ret (Some (posAt n o))).
  { apply nextVisiblePosition_back; auto using inside_visible, inside_positions.
    intros Ho parent Hp. apply (Hparent Ho parent Hp). }
  destruct (nextVisiblePosition_shape tcb n o q Hle (inside_visible _ Hin)) as
    [[Ho [parent [Hp Hq]]] | [[Ho Hq] | [ch [Hch [Hcp [Hcv Hq]]]]]]; auto.
  - intros Ho parent Hp. apply (Hparent Ho parent Hp).
  - destruct (Hparent Ho parent Hp) as [Hpin _].
    destruct (rank_up _ _ Hp) as [Hr Hl]. subst o.
    exists parent, (getNodeIndex n + 1). repeat split; auto.
    + lia.
    + apply code_up. assumption.
  - exists n, (o + 1). repeat split; auto.
    + lia.
    + replace (o + 1) with (S o) by lia. apply rank_next.
    + apply code_next.
  - destruct (parentNode_childNode _ _ _ Hch) as [Hp Hi].
    destruct (rank_down _ _ _ Hch) as [Hr Hl].
    exists ch, 0. repeat split; auto.
    + eapply inside_child; eauto.
    + lia.
    + lia.
    + apply code_down. assumption.
Qed.

End Container.

(** *** The character at a position *)

Ltac steps :=
  repeat match goal with
  | H : bind ?c _ = Ret _ |- _ => destruct c eqn:?; cbn [bind] in H; [ | discriminate | discriminate]
  | H : match ?x with _ => _ end = Ret _ |- _ => destruct x eqn:?; try discriminate
  | H : Ret _ = Ret _ |- _ => inv H
  end.

Ltac finish :=
  repeat match goal with |- context [if ?b then _ else _] => destruct b end; simpl; lia.

Lemma charAt_short (s : jsstring) (i : nat) : length (charAt s i) <= 1.
Proof. unfold charAt. destruct (nth_error s i); simpl; lia. Qed.

Lemma getTrailingSpaceAt_short (tcb : bool) : forall foc ctx s,
  getTrailingSpaceAt tcb foc ctx = Ret s -> length s <= 1.
Proof.
  fix IH 1. intros foc ctx s H. destruct foc as [sh cs|d|d|t d|nm]; simpl in H.
  - destruct (String.eqb _ "br"); [inv H; simpl; lia|].
    destruct (String.eqb _ "inline").
    + match type of H with
      | ?g ?a ?b cs = Ret _ =>
          assert (Hgo : forall rest answer before,
                     (forall s0, answer tt = Ret s0 -> length s0 <= 1) ->
                     forall s0, g answer before rest = Ret s0 -> length s0 <= 1)
      end.
      { induction rest as [|x r IHr]; intros answer before Ha s0 E.
        - apply Ha. assumption.
        - destruct (negb (isIgnoredNode tcb
                     {| focus := x;
                        context := {| lefts := before; shell := sh; rights := r |} :: ctx |})).
          + apply IHr in E; [assumption|].
            intros s1 E1. destruct (_ =? 1); [apply IH in E1; assumption | inv E1; simpl; lia].
          + apply IHr in E; assumption. }
      apply Hgo in H; [assumption|]. intros s0 E. inv E. simpl. lia.
    + steps; finish.
  - steps; finish.
  - steps; finish.
  - steps; finish.
  - steps; finish.
Qed.

Lemma getLeadingSpace_short (tcb : bool) (el : Loc) (s : jsstring) :
  getLeadingSpace tcb el = Ret s -> length s <= 1.
Proof.
  unfold getLeadingSpace. intros H. steps; finish.
Qed.

Lemma getPossibleCharacterAt_spec (tcb : bool) (p : DomPosition) (o : option CharacterOptions)
      (t : TextPosition) :
  getPossibleCharacterAt tcb p o = Ret t -> position t = p /\ length (character t) <= 1.
Proof.
  unfold getPossibleCharacterAt. intros H.
  destruct (0 <? offset p); [|inv H; simpl; split; [reflexivity | lia]].
  destruct (node p) as [n|]; [|discriminate].
  destruct (focus n) as [sh cs|d|d|tg d|nm].
  2: { pose proof (charAt_short d (offset p - 1)).
       steps; simpl; split; try reflexivity; try lia; assumption. }
  all: apply bind_Ret in H; destruct H as [passed [Hp H]].
  all: assert (Hpassed : position passed = p /\ length (character passed) <= 1)
      by (clear H; steps; simpl; split; try reflexivity; try lia;
          match goal with
          | E : getTrailingSpace _ _ = Ret _ |- _ => apply getTrailingSpaceAt_short in E; assumption
          end).
  all: destruct Hpassed as [Hpp Hpl]; clear Hp.
  all: steps; simpl; split; try assumption; try reflexivity; try lia.
  all: match goal with
       | E : getLeadingSpace _ _ = Ret _ |- _ => apply getLeadingSpace_short in E; assumption
       end.
Qed.

Lemma getCharacterAt_spec (tcb : bool) (p : DomPosition) (pre : option (list TextPosition))
      (opts : CharacterOptions) (t : TextPosition) :
  getCharacterAt tcb p pre opts = Ret t -> position t = p /\ length (character t) <= 1.
Proof.
  unfold getCharacterAt. intros H.
  apply bind_Ret in H; destruct H as [possible [Hp H]].
  apply getPossibleCharacterAt_spec in Hp.
  destruct (truthy (character possible) && spacesRegex (character possible)); [|inv H; assumption].
  apply bind_Ret in H; destruct H as [preceding [_ H]].
  assert (Hs : forall c, position (setCharacter possible c) = position possible) by reflexivity.
  destruct Hp as [Hpp Hpl].
  steps; simpl; split; try assumption; try reflexivity; try lia.
Qed.

Lemma getCharacterAt_start (tcb : bool) (n : Loc) (opts : CharacterOptions) :
  getCharacterAt tcb (posAt n 0) None opts
  = Ret (mkTextPosition [] (posAt n 0) false false false false).
Proof. reflexivity. Qed.

Lemma truthy_length (t : TextPosition) :
  length (character t) <= 1 ->
  length (character t) = if truthy (character t) then 1 else 0.
Proof. destruct (character t) as [|a [|b s]]; simpl; lia. Qed.

(** *** The walk of a forward iterator *)

Section Walks.

Variable tcb : bool.
Variable opts : CharacterOptions.

(** [Run p l q]: the positions [nextVisiblePosition] visits from [p] to [q]
    with the text position [getCharacterAt] finds at each of them. *)
Inductive Run : DomPosition -> list TextPosition -> DomPosition -> Prop :=
| Run_nil p : Run p [] p
| Run_cons p q t l r :
    nextVisiblePosition tcb p = Ret (Some q) ->
    getCharacterAt tcb q None opts = Ret t ->
    Run q l r -> Run p (t :: l) r.

(** A text position with a character. *)
Definition shown (t : TextPosition) : bool := truthy (character t).
Definition blank (l : list TextPosition) : Prop := Forall (fun t => shown t = false) l.

(** The test for the end position in the iterator. *)
Definition here (e : option DomPosition) (q : DomPosition) : bool :=
  match e with Some _ => pos_equals q e | None => false end.
Definition unhit (e : option DomPosition) (l : list TextPosition) : Prop :=
  Forall (fun t => here e (position t) = false) l.

(** A forward iterator at [p]. *)
Definition fwd (e : option DomPosition) (p : DomPosition) (fin : bool)
           (prev : option TextPosition) : CharacterIterator :=
  mkIterator false e opts (Some p) fin prev false.

Lemma Run_nil_inv p r : Run p [] r -> r = p.
Proof. intros H; inversion H; reflexivity. Qed.

Lemma Run_cons_inv p t l r :
  Run p (t :: l) r ->
  exists q, nextVisiblePosition tcb p = Ret (Some q)
            /\ getCharacterAt tcb q None opts = Ret t /\ position t = q /\ Run q l r.
Proof.
  intros H; inversion H; subst. exists q. repeat split; auto.
  match goal with E : getCharacterAt _ _ _ _ = Ret _ |- _ => apply getCharacterAt_spec in E; apply E end.
Qed.

Lemma Run_app p l1 q l2 r : Run p l1 q -> Run q l2 r -> Run p (l1 ++ l2) r.
Proof. induction 1; simpl; intros; [assumption | econstructor; eauto]. Qed.

Lemma Run_split l1 : forall p l2 r,
  Run p (l1 ++ l2) r -> exists q, Run p l1 q /\ Run q l2 r.
Proof.
  induction l1 as [|t l1 IH]; simpl; intros p l2 r H.
  - exists p. split; [constructor | assumption].
  - destruct (Run_cons_inv _ _ _ _ H) as [q [Hn [Hc [_ Hr]]]].
    destruct (IH _ _ _ Hr) as [q' [H1 H2]].
    exists q'. split; [econstructor; eauto | assumption].
Qed.

Lemma Run_last l : forall p t q, Run p (l ++ [t]) q -> q = position t.
Proof.
  induction l as [|x l IH]; simpl; intros p t q H;
    destruct (Run_cons_inv _ _ _ _ H) as [q0 [Hn [Hc [Hp Hr]]]].
  - apply Run_nil_inv in Hr. congruence.
  - eapply IH; eauto.
Qed.

Lemma Run_positions p l q : Run p l q -> Forall (fun t => length (character t) <= 1) l.
Proof.
  induction 1; constructor; [|assumption].
  apply getCharacterAt_spec in H0. apply H0.
Qed.

Lemma split_shown (l : list TextPosition) :
  blank l \/ exists l1 t l2, l = l1 ++ t :: l2 /\ blank l1 /\ shown t = true.
Proof.
  induction l as [|x l IH]; [left; constructor|].
  destruct (shown x) eqn:Hx.
  - right. exists [], x, l. repeat split; [constructor | assumption].
  - destruct IH as [Hb | [l1 [t [l2 [E [Hb Ht]]]]]].
    + left. constructor; assumption.
    + right. exists (x :: l1), t, l2. subst l. repeat split; [constructor|]; assumption.
Qed.

Lemma filter_blank (l : list TextPosition) : blank l -> filter shown l = [].
Proof. induction 1; simpl; [reflexivity|]. rewrite H. assumption. Qed.

(** One step of the iterator. *)
Lemma iteratorStep_fwd e p prev q t :
  nextVisiblePosition tcb p = Ret (Some q) ->
  getCharacterAt tcb q None opts = Ret t ->
  iteratorStep tcb (fwd e p false prev) = Ret (Some t, fwd e q (here e q) prev).
Proof.
  intros H1 H2. unfold iteratorStep, fwd. simpl. rewrite H1. simpl. rewrite H2. reflexivity.
Qed.

Lemma iteratorStep_inv e p prev x it1 :
  iteratorStep tcb (fwd e p false prev) = Ret (x, it1) ->
  (exists q t, nextVisiblePosition tcb p = Ret (Some q)
               /\ getCharacterAt tcb q None opts = Ret t
               /\ x = Some t /\ it1 = fwd e q (here e q) prev)
  \/ (nextVisiblePosition tcb p = Ret None /\ x = None
      /\ it1 = mkIterator false e opts None true prev false).
Proof.
  unfold iteratorStep, fwd. simpl. intros H.
  destruct (nextVisiblePosition tcb p) as [[q|]| |]; simpl in H; try discriminate.
  - destruct (getCharacterAt tcb q None opts) as [t| |] eqn:Hc; simpl in H; try discriminate.
    inv H. left. exists q, t. repeat split; auto.
  - inv H. right. auto.
Qed.

Lemma iteratorNextLoop_finished fuel e q prev :
  iteratorNextLoop tcb (S fuel) (fwd e q true prev) = Ret (None, fwd e q true prev).
Proof. reflexivity. Qed.

(** What [next()] of the iterator answers from [p]. *)
Inductive NextSpec (e : option DomPosition) (p : DomPosition) (prev : option TextPosition)
  : option TextPosition -> CharacterIterator -> Prop :=
| NS_char l t q :
    Run p (l ++ [t]) q -> blank l -> unhit e l -> shown t = true ->
    NextSpec e p prev (Some t) (fwd e q (here e q) (Some t))
| NS_hit l t q :
    Run p (l ++ [t]) q -> blank (l ++ [t]) -> unhit e l -> here e q = true ->
    NextSpec e p prev None (fwd e q true prev)
| NS_end l q :
    Run p l q -> blank l -> unhit e l -> nextVisiblePosition tcb q = Ret None ->
    NextSpec e p prev None (mkIterator false e opts None true prev false).

Lemma NextSpec_cons e p q t prev res it' :
  nextVisiblePosition tcb p = Ret (Some q) ->
  getCharacterAt tcb q None opts = Ret t ->
  shown t = false -> here e q = false ->
  NextSpec e q prev res it' -> NextSpec e p prev res it'.
Proof.
  intros H1 H2 Hb Hh H.
  assert (Hq : position t = q) by (apply getCharacterAt_spec in H2; apply H2).
  destruct H as [l t' q' Hr Hbl Hu Hs | l t' q' Hr Hbl Hu Hs | l q' Hr Hbl Hu Hs].
  - apply (NS_char e p prev (t :: l)); auto.
    + simpl. econstructor; eauto.
    + constructor; assumption.
    + constructor; [rewrite Hq|]; assumption.
  - apply (NS_hit e p prev (t :: l) t'); auto.
    + simpl. econstructor; eauto.
    + simpl. constructor; assumption.
    + constructor; [rewrite Hq|]; assumption.
  - apply (NS_end e p prev (t :: l) q'); auto.
    + econstructor; eauto.
    + constructor; assumption.
    + constructor; [rewrite Hq|]; assumption.
Qed.

Lemma iteratorNextLoop_inv e fuel : forall p prev res it',
  iteratorNextLoop tcb fuel (fwd e p false prev) = Ret (res, it') ->
  NextSpec e p prev res it'.
Proof.
  induction fuel as [|fuel IH]; intros p prev res it' H; [discriminate|].
  cbn [iteratorNextLoop] in H.
  destruct (iteratorStep tcb (fwd e p false prev)) as [[x it1]| |] eqn:Hs; simpl in H;
    try discriminate.
  apply iteratorStep_inv in Hs.
  destruct Hs as [[q [t [H1 [H2 [Hx Hi]]]]] | [H1 [Hx Hi]]]; subst x it1.
  - destruct (truthy (character t)) eqn:Ht.
    + inv H. apply (NS_char e p prev [] t q); try constructor; auto.
      econstructor; eauto. constructor.
    + destruct (here e q) eqn:Hh.
      * destruct fuel; [discriminate|]. rewrite iteratorNextLoop_finished in H. inv H.
        apply (NS_hit e p prev [] t q); try constructor; auto.
        econstructor; eauto. constructor.
      * apply (NextSpec_cons e p q t); auto.
  - inv H. apply (NS_end e p prev [] p); try constructor; auto.
Qed.

Lemma iteratorNextLoop_char e l : forall fuel p prev t q,
  Run p (l ++ [t]) q -> blank l -> unhit e l -> shown t = true -> length l < fuel ->
  iteratorNextLoop tcb fuel (fwd e p false prev) = Ret (Some t, fwd e q (here e q) (Some t)).
Proof.
  induction l as [|x l IH]; intros fuel p prev t q Hr Hb Hu Ht Hf;
    (destruct fuel as [|fuel]; [simpl in Hf; lia|]); simpl in Hr;
    destruct (Run_cons_inv _ _ _ _ Hr) as [q0 [Hn [Hc [Hp Hr']]]].
  - apply Run_nil_inv in Hr'. subst q. cbn [iteratorNextLoop].
    rewrite (iteratorStep_fwd e p prev q0 t Hn Hc).
    cbn [bind]. unfold shown in Ht. rewrite Ht. reflexivity.
  - cbn [iteratorNextLoop]. rewrite (iteratorStep_fwd e p prev q0 x Hn Hc).
    cbn [bind]. inversion Hb as [|? ? Hbx Hbl]; subst. inversion Hu as [|? ? Hux Hul]; subst.
    unfold shown in Hbx. rewrite Hbx. rewrite Hux. apply IH; auto. simpl in Hf. lia.
Qed.

Lemma iteratorNextLoop_hit e l : forall fuel p prev t q,
  Run p (l ++ [t]) q -> blank (l ++ [t]) -> unhit e l -> here e q = true ->
  length l + 1 < fuel ->
  iteratorNextLoop tcb fuel (fwd e p false prev) = Ret (None, fwd e q true prev).
Proof.
  induction l as [|x l IH]; intros fuel p prev t q Hr Hb Hu Ht Hf;
    (destruct fuel as [|fuel]; [simpl in Hf; lia|]); simpl in Hr;
    destruct (Run_cons_inv _ _ _ _ Hr) as [q0 [Hn [Hc [Hp Hr']]]].
  - apply Run_nil_inv in Hr'. subst q. cbn [iteratorNextLoop].
    rewrite (iteratorStep_fwd e p prev q0 t Hn Hc).
    cbn [bind]. inversion Hb as [|? ? Hbx Hbl]; subst. unfold shown in Hbx. rewrite Hbx, Ht.
    destruct fuel; [simpl in Hf; lia|]. apply iteratorNextLoop_finished.
  - cbn [iteratorNextLoop]. rewrite (iteratorStep_fwd e p prev q0 x Hn Hc).
    cbn [bind]. simpl in Hb.
    inversion Hb as [|? ? Hbx Hbl]; subst. inversion Hu as [|? ? Hux Hul]; subst.
    unfold shown in Hbx. rewrite Hbx. rewrite Hux.
    eapply IH; eauto. simpl in Hf. lia.
Qed.

End Walks.

(** *** Collecting and counting characters along a walk *)

Section Collect.

Variable tcb : bool.
Variable opts : CharacterOptions.

Lemma posFuel_S (p : DomPosition) : exists f, posFuel p = S f.
Proof.
  unfold posFuel, walkFuel. destruct (node p).
  - exists (2 * positionCount (documentOf l) + 1). lia.
  - exists 1. reflexivity.
Qed.

Lemma iteratorNext_fwd e p fin prev :
  iteratorNext tcb (fwd opts e p fin prev) = iteratorNextLoop tcb (posFuel p) (fwd opts e p fin prev).
Proof. reflexivity. Qed.

Lemma iteratorNext_finished e q prev :
  iteratorNext tcb (fwd opts e q true prev) = Ret (None, fwd opts e q true prev).
Proof.
  rewrite iteratorNext_fwd. destruct (posFuel_S q) as [f Hf]. rewrite Hf. reflexivity.
Qed.

Lemma blank_length (l : list TextPosition) : length (filter shown l) = 0 -> blank l.
Proof.
  induction l as [|x l IH]; cbn [filter]; intros H; [constructor|].
  destruct (shown x) eqn:Hx; [discriminate|]. constructor; [assumption | exact (IH H)].
Qed.

Lemma Forall_removelast {A} (P : A -> Prop) (l : list A) : Forall P l -> Forall P (removelast l).
Proof.
  induction 1 as [|x l Hx Hl IH]; simpl; [constructor|].
  destruct l; [constructor|]. constructor; assumption.
Qed.

Lemma unhit_None (l : list TextPosition) : unhit None l.
Proof. induction l; constructor; auto. Qed.

(** The characters of a walk that ends at the end position of the iterator. *)
Lemma collect_fwd e : forall n L p prev acc F q,
  length (filter shown L) = n ->
  Run tcb opts p L q -> L <> [] -> unhit e (removelast L) -> here e q = true ->
  (forall x, In x (p :: map position L) -> length L + 1 < posFuel x) ->
  n + 1 < F ->
  collectCharacters tcb F (fwd opts e p false prev) acc = Ret (rev acc ++ filter shown L).
Proof.
  induction n as [|n IH]; intros L p prev acc F q Hn Hr Hne Hu Hh Hfuel HF.
  - destruct F as [|F]; [lia|]. cbn [collectCharacters]. rewrite iteratorNext_fwd.
    destruct (exists_last Hne) as [l [t E]]. subst L. rewrite removelast_last in Hu.
    rewrite (iteratorNextLoop_hit tcb opts e l (posFuel p) p prev t q); auto.
    + cbn [bind]. rewrite (filter_blank _ (blank_length _ Hn)), app_nil_r. reflexivity.
    + apply blank_length. assumption.
    + specialize (Hfuel p (or_introl eq_refl)). rewrite length_app in Hfuel. simpl in Hfuel. lia.
  - destruct (split_shown L) as [Hb | [l1 [t [l2 [E [Hb Ht]]]]]].
    { rewrite (filter_blank _ Hb) in Hn. discriminate. }
    subst L. destruct F as [|F]; [lia|]. cbn [collectCharacters]. rewrite iteratorNext_fwd.
    replace (l1 ++ t :: l2) with ((l1 ++ [t]) ++ l2) in Hr by (rewrite <- app_assoc; reflexivity).
    destruct (Run_split _ _ _ _ _ _ Hr) as [q1 [Hr1 Hr2]].
    assert (Hq1 : q1 = position t) by (eapply Run_last; eauto).
    assert (Hu1 : unhit e l1).
    { destruct l2.
      - rewrite removelast_last in Hu. assumption.
      - rewrite removelast_app in Hu by discriminate. apply Forall_app in Hu. apply Hu. }
    rewrite (iteratorNextLoop_char tcb opts e l1 (posFuel p) p prev t q1); auto.
    2: { specialize (Hfuel p (or_introl eq_refl)). rewrite length_app in Hfuel. lia. }
    cbn [bind]. rewrite filter_app, (filter_blank _ Hb) in *. simpl in *. rewrite Ht in *.
    simpl in Hn. destruct l2 as [|t2 l2].
    + apply Run_nil_inv in Hr2. subst q. rewrite Hh.
      destruct F as [|F]; [lia|]. cbn [collectCharacters].
      rewrite iteratorNext_finished. cbn [bind]. simpl. reflexivity.
    + assert (Hh1 : here e q1 = false).
      { rewrite removelast_app in Hu by discriminate. apply Forall_app in Hu.
        destruct Hu as [_ Hu]. simpl in Hu. inversion Hu; subst. assumption. }
      rewrite Hh1. rewrite (IH (t2 :: l2) q1 (Some t) (t :: acc) F q); auto.
      * simpl. rewrite <- app_assoc. reflexivity.
      * discriminate.
      * rewrite removelast_app in Hu by discriminate. apply Forall_app in Hu.
        destruct Hu as [_ Hu]. simpl in Hu. inversion Hu; subst. assumption.
      * intros x Hx.
        assert (Hin : In x (p :: map position (l1 ++ t :: t2 :: l2))).
        { right. rewrite map_app. apply in_or_app. right. simpl.
          destruct Hx as [Hx | Hx]; [left; congruence | right; assumption]. }
        specialize (Hfuel x Hin). rewrite length_app in Hfuel. simpl in *. lia.
      * lia.
Qed.

(** What a successful collection tells about the walk. *)
Lemma collect_inv e : forall F p prev acc chars,
  collectCharacters tcb F (fwd opts e p false prev) acc = Ret chars ->
  exists L q, Run tcb opts p L q /\ unhit e (removelast L)
    /\ chars = rev acc ++ filter shown L
    /\ ((L <> [] /\ here e q = true)
        \/ (nextVisiblePosition tcb q = Ret None /\ unhit e L)).
Proof.
  induction F as [|F IH]; intros p prev acc chars H; [discriminate|].
  cbn [collectCharacters] in H. rewrite iteratorNext_fwd in H.
  destruct (iteratorNextLoop tcb (posFuel p) (fwd opts e p false prev)) as [[res it']| |] eqn:Hn;
    cbn [bind] in H; try discriminate.
  apply iteratorNextLoop_inv in Hn.
  destruct Hn as [l t q Hr Hb Hu Ht | l t q Hr Hb Hu Hh | l q Hr Hb Hu He].
  - assert (Hq : q = position t) by (eapply Run_last; eauto).
    destruct (here e q) eqn:Hh.
    + destruct F as [|F]; [discriminate|]. cbn [collectCharacters] in H.
      rewrite iteratorNext_finished in H. cbn [bind] in H. inv H.
      exists (l ++ [t]), (position t). repeat split; auto.
      * rewrite removelast_last. assumption.
      * rewrite filter_app, (filter_blank _ Hb). simpl. rewrite Ht. reflexivity.
      * left. split; [destruct l; discriminate | assumption].
    + destruct (IH _ _ _ _ H) as [L' [q' [Hr' [Hu' [Hc Hend]]]]].
      assert (Hut : unhit e (l ++ [t])).
      { apply Forall_app. split; [assumption|]. constructor; [|constructor]. congruence. }
      exists ((l ++ [t]) ++ L'), q'. repeat split.
      * eapply Run_app; eauto.
      * destruct L' as [|x L'].
        -- rewrite app_nil_r, removelast_last. assumption.
        -- rewrite removelast_app by discriminate. apply Forall_app. split; assumption.
      * rewrite Hc. rewrite !filter_app, (filter_blank _ Hb). simpl. rewrite Ht.
        simpl. rewrite <- app_assoc. reflexivity.
      * destruct Hend as [[Hne Hh'] | [Hnone Hu'']].
        -- left. split; [destruct l; discriminate | assumption].
        -- right. split; [assumption|]. apply Forall_app. split; assumption.
  - inv H. exists (l ++ [t]), q. repeat split; auto.
    + rewrite removelast_last. assumption.
    + rewrite (filter_blank _ Hb), app_nil_r. reflexivity.
    + left. split; [destruct l; discriminate | assumption].
  - inv H. exists l, q. repeat split; auto.
    + apply Forall_removelast. assumption.
    + rewrite (filter_blank _ Hb), app_nil_r. reflexivity.
Qed.

(** The loop of [movePositionBy] over a walk: [m] more characters to read. *)
Lemma moveCharacterLoop_spec : forall m L p q prev u cur F u' newT nextT,
  Run tcb opts p L q ->
  (forall x, In x (p :: map position L) -> length L + 1 < posFuel x) ->
  m <= length (filter shown L) -> m < F ->
  moveCharacterLoop tcb F (fwd opts None p false prev) (u + m) u cur = Ret (u', newT, nextT) ->
  exists L1 L2, L = L1 ++ L2 /\ length (filter shown L1) = m
    /\ (m = 0 -> L1 = [] /\ newT = cur)
    /\ (0 < m -> exists L0 t, L1 = L0 ++ [t] /\ shown t = true /\ newT = Some t)
    /\ (forall l t L3, L2 = l ++ t :: L3 -> blank l -> shown t = true -> nextT = Some t).
Proof.
  induction m as [|m IH]; intros L p q prev u cur F u' newT nextT Hr Hfuel Hm HF H;
    (destruct F as [|F]; [lia|]); cbn [moveCharacterLoop] in H; rewrite iteratorNext_fwd in H.
  - exists [], L. split; [|split; [|split; [|split]]]; try reflexivity.
    + intros _. split; [reflexivity|].
      destruct (iteratorNextLoop tcb (posFuel p) (fwd opts None p false prev)) as [[[x|] it']| |];
        cbn [bind] in H; try discriminate.
      * replace (u <? u + 0) with false in H by (symmetry; apply Nat.ltb_ge; lia). inv H. reflexivity.
      * inv H. reflexivity.
    + intros Hlt. lia.
    + intros l t L3 E Hb Ht. subst L.
      replace (l ++ t :: L3) with ((l ++ [t]) ++ L3) in Hr by (rewrite <- app_assoc; reflexivity).
      destruct (Run_split _ _ _ _ _ _ Hr) as [q1 [Hr1 Hr2]].
      rewrite (iteratorNextLoop_char tcb opts None l (posFuel p) p prev t q1) in H; auto.
      * cbn [bind] in H.
        replace (u <? u + 0) with false in H by (symmetry; apply Nat.ltb_ge; lia). inv H. reflexivity.
      * apply unhit_None.
      * specialize (Hfuel p (or_introl eq_refl)). rewrite length_app in Hfuel. lia.
  - destruct (split_shown L) as [Hb | [l1 [t [l2 [E [Hb Ht]]]]]].
    { rewrite (filter_blank _ Hb) in Hm. simpl in Hm. lia. }
    subst L.
    replace (l1 ++ t :: l2) with ((l1 ++ [t]) ++ l2) in Hr by (rewrite <- app_assoc; reflexivity).
    destruct (Run_split _ _ _ _ _ _ Hr) as [q1 [Hr1 Hr2]].
    rewrite (iteratorNextLoop_char tcb opts None l1 (posFuel p) p prev t q1) in H; auto.
    2: apply unhit_None.
    2: { specialize (Hfuel p (or_introl eq_refl)). rewrite length_app in Hfuel. lia. }
    cbn [bind] in H.
    replace (u <? u + S m) with true in H by (symmetry; apply Nat.ltb_lt; lia).
    replace (u + S m) with (S u + m) in H by lia. unfold here in H.
    assert (Hq1 : q1 = position t) by (eapply Run_last; eauto).
    rewrite filter_app, (filter_blank _ Hb) in Hm. simpl in Hm. rewrite Ht in Hm. simpl in Hm.
    destruct (IH l2 q1 q (Some t) (S u) (Some t) F u' newT nextT Hr2) as
      [L1 [L2 [E [Hc [H0 [Hpos Hnext]]]]]]; auto; try lia.
    { intros x Hx.
      assert (Hin : In x (p :: map position (l1 ++ t :: l2))).
      { right. rewrite map_app. apply in_or_app. right. simpl.
        destruct Hx as [Hx | Hx]; [left; congruence | right; assumption]. }
      specialize (Hfuel x Hin). rewrite length_app in Hfuel. simpl in *. lia. }
    exists (l1 ++ t :: L1), L2. split; [|split; [|split; [|split]]].
    + rewrite E, <- app_assoc. reflexivity.
    + rewrite filter_app, (filter_blank _ Hb). simpl. rewrite Ht. simpl. lia.
    + intros Hz. discriminate.
    + intros _. destruct m as [|m].
      * destruct (H0 eq_refl) as [E1 E2]. subst L1. exists l1, t. auto.
      * destruct (Hpos (Nat.lt_0_succ m)) as [L0 [t' [E1 [Ht' E2]]]].
        exists (l1 ++ t :: L0), t'. subst L1. rewrite <- app_assoc. auto.
    + assumption.
Qed.

End Collect.

(** *** Walks in a container *)

Definition rankP (p : DomPosition) : nat :=
  match node p with Some n => rank n (offset p) | None => 0 end.
Definition codeP (p : DomPosition) : list nat :=
  match node p with Some n => code n (offset p) | None => [] end.

Section ContainerWalk.

Variable tcb : bool.
Variable opts : CharacterOptions.
Variable c : Loc.
Hypothesis c_visible : isCollapsedNode tcb c = Ret false.
Hypothesis c_positions : containsPositions c = true.

(** The last position of the container. *)
Definition lastOf : DomPosition := posAt c (getNodeLength c).

(** A run that starts in the container and does not step on from its last
    position. *)
Inductive Walk : DomPosition -> list TextPosition -> DomPosition -> Prop :=
| Walk_nil n o : inside tcb c n -> o <= getNodeLength n -> Walk (posAt n o) [] (posAt n o)
| Walk_cons n o q t l r :
    inside tcb c n -> o <= getNodeLength n -> posAt n o <> lastOf ->
    nextVisiblePosition tcb (posAt n o) = Ret (Some q) ->
    getCharacterAt tcb q None opts = Ret t ->
    Walk q l r -> Walk (posAt n o) (t :: l) r.

Lemma Walk_Run p l q : Walk p l q -> Run tcb opts p l q.
Proof. induction 1; econstructor; eauto. Qed.

Lemma Walk_start p l q :
  Walk p l q -> exists n o, p = posAt n o /\ inside tcb c n /\ o <= getNodeLength n.
Proof. destruct 1; eauto. Qed.

Lemma Walk_end p l q :
  Walk p l q -> exists n o, q = posAt n o /\ inside tcb c n /\ o <= getNodeLength n.
Proof. induction 1; eauto. Qed.

Lemma Walk_app p l1 q l2 r : Walk p l1 q -> Walk q l2 r -> Walk p (l1 ++ l2) r.
Proof. induction 1; simpl; intros; [assumption | econstructor; eauto]. Qed.

Lemma Walk_split l1 : forall p l2 r,
  Walk p (l1 ++ l2) r -> exists q, Walk p l1 q /\ Walk q l2 r.
Proof.
  induction l1 as [|t l1 IH]; simpl; intros p l2 r H.
  - destruct (Walk_start _ _ _ H) as [n [o [E [Hin Hle]]]]. subst p.
    exists (posAt n o). split; [constructor; assumption | assumption].
  - inversion H; subst.
    match goal with Hw : Walk _ (l1 ++ l2) _ |- _ => destruct (IH _ _ _ Hw) as [q' [Hw1 Hw2]] end.
    exists q'. split; [econstructor; eauto | assumption].
Qed.

(** A run from a position of the container is a walk as long as it has not
    met the last position. *)
Lemma Run_Walk l : forall n o q,
  Run tcb opts (posAt n o) l q ->
  inside tcb c n -> o <= getNodeLength n ->
  (l <> [] -> posAt n o <> lastOf) ->
  unhit (Some lastOf) (removelast l) ->
  Walk (posAt n o) l q.
Proof.
  induction l as [|t l IH]; intros n o q Hr Hin Hle Hne Hu.
  - apply Run_nil_inv in Hr. subst q. constructor; assumption.
  - destruct (Run_cons_inv _ _ _ _ _ _ Hr) as [q1 [Hn [Hc [Hp Hr']]]].
    assert (Hs : posAt n o <> lastOf) by (apply Hne; discriminate).
    destruct (inside_step tcb c c_visible c_positions n o q1 Hin Hle Hs Hn)
      as [n1 [o1 [E [Hin1 [Hle1 _]]]]].
    clear Hr. subst q1. rewrite E in *. econstructor; eauto. apply IH; auto.
    + intros Hl E'. destruct l as [|t' l]; [congruence|].
      simpl in Hu. inversion Hu as [|? ? Hx Hrest]; subst.
      rewrite E, E' in Hx. unfold here, lastOf in Hx. rewrite pos_equals_refl in Hx. discriminate.
    + destruct l as [|t' l]; [constructor|]. simpl in Hu. inversion Hu; subst. assumption.
Qed.

Lemma Walk_measure p l q :
  Walk p l q ->
  rankP p + length l <= rankP q /\ (l <> [] -> lexlt (codeP p) (codeP q)).
Proof.
  induction 1 as [n o Hin Hle | n o q t l r Hin Hle Hne Hn Hc Hw [IHr IHc]].
  - split; [simpl; lia | congruence].
  - destruct (inside_step tcb c c_visible c_positions n o q Hin Hle Hne Hn)
      as [n1 [o1 [E [Hin1 [Hle1 [Hr [Hcode _]]]]]]].
    subst q. unfold rankP, codeP in *. simpl in *. split; [lia|].
    intros _. destruct l as [|t' l].
    + inversion Hw; subst. assumption.
    + eapply lexlt_trans; [exact Hcode | apply IHc; discriminate].
Qed.

Lemma codeP_not_equal p q :
  (exists n o, p = posAt n o) -> (exists n o, q = posAt n o) ->
  lexlt (codeP p) (codeP q) -> pos_equals p (Some q) = false.
Proof.
  intros [n [o Ep]] [n' [o' Eq]] H. subst. apply lexlt_not_equal. assumption.
Qed.

(** No position of a walk before its last one is the last one. *)
Lemma Walk_unhit p l q : Walk p l q -> unhit (Some q) (removelast l).
Proof.
  induction 1 as [n o Hin Hle | n o q t l r Hin Hle Hne Hn Hc Hw IH]; [constructor|].
  destruct l as [|t' l]; [constructor|].
  change (removelast (t :: t' :: l)) with (t :: removelast (t' :: l)).
  constructor; [|assumption].
  assert (Hp : position t = q) by (apply getCharacterAt_spec in Hc; apply Hc).
  rewrite Hp. unfold here.
  destruct (Walk_start _ _ _ Hw) as [n1 [o1 [E1 _]]].
  destruct (Walk_end _ _ _ Hw) as [n2 [o2 [E2 _]]].
  apply codeP_not_equal; eauto.
  apply (Walk_measure _ _ _ Hw). discriminate.
Qed.

Lemma Walk_first_unhit p l q : Walk p l q -> l <> [] -> pos_equals p (Some q) = false.
Proof.
  intros Hw Hne.
  destruct (Walk_start _ _ _ Hw) as [n1 [o1 [E1 _]]].
  destruct (Walk_end _ _ _ Hw) as [n2 [o2 [E2 _]]].
  apply codeP_not_equal; eauto. apply (Walk_measure _ _ _ Hw). assumption.
Qed.

Lemma Walk_positions p l q :
  Walk p l q ->
  Forall (fun x => exists n o, x = posAt n o /\ inside tcb c n /\ o <= getNodeLength n)
         (p :: map position l).
Proof.
  induction 1 as [n o Hin Hle | n o q t l r Hin Hle Hne Hn Hc Hw IH].
  - constructor; [eauto | constructor].
  - constructor; [eauto|]. simpl.
    assert (Hp : position t = q) by (apply getCharacterAt_spec in Hc; apply Hc).
    rewrite Hp. assumption.
Qed.

(** The fuel of the iterator covers every walk. *)
Lemma Walk_fuel p l q :
  Walk p l q -> forall x, In x (p :: map position l) -> length l + 2 < posFuel x.
Proof.
  intros Hw x Hx.
  pose proof (Walk_positions _ _ _ Hw) as Hall. rewrite Forall_forall in Hall.
  destruct (Hall x Hx) as [n [o [E [Hin Hle]]]]. subst x.
  unfold posFuel, walkFuel. simpl. rewrite (inside_document tcb c n Hin).
  destruct (Walk_measure _ _ _ Hw) as [Hr _].
  destruct (Walk_end _ _ _ Hw) as [n2 [o2 [E2 [Hin2 Hle2]]]]. subst q.
  unfold rankP in Hr. simpl in Hr.
  pose proof (rank_bound n2 o2 Hle2) as Hb. rewrite (inside_document tcb c n2 Hin2) in Hb. lia.
Qed.

(** A step of a walk is undone by [previousVisiblePosition]. *)
Lemma Walk_back x t q :
  Walk x [t] q -> previousVisiblePosition tcb (Some q) = Ret (Some x) /\ q = position t.
Proof.
  intros H. inversion H as [|n o q1 t' l' r Hin Hle Hne Hn Hc Hw]; subst.
  inversion Hw; subst.
  destruct (inside_step tcb c c_visible c_positions n o _ Hin Hle Hne Hn)
    as [n1 [o1 [E [_ [_ [_ [_ Hback]]]]]]].
  split; [assumption|]. apply getCharacterAt_spec in Hc. symmetry. apply Hc.
Qed.

Lemma Walk_nil_inv p q : Walk p [] q -> q = p.
Proof. intros H; inversion H; reflexivity. Qed.

(** The walk does not end before the last position of the container. *)
Lemma inside_goes_on n o :
  inside tcb c n -> posAt n o <> lastOf ->
  nextVisiblePosition tcb (posAt n o) <> Ret None.
Proof.
  intros Hin Hne H.
  unfold nextVisiblePosition, nextPosition, isCollapsedNodeOf in H. simpl in H.
  destruct (o =? getNodeLength n) eqn:Hend.
  - apply Nat.eqb_eq in Hend. subst o.
    inversion Hin as [|n' p Hp Hin' Hv Hc]; subst; [unfold lastOf in Hne; congruence|].
    rewrite Hp in H. simpl in H.
    destruct (isCollapsedNode tcb p) as [[|]| |]; discriminate.
  - destruct (isCharacterDataNode n).
    + simpl in H. destruct (isCollapsedNode tcb n) as [[|]| |]; discriminate.
    + destruct (childNode n o) as [ch|]; [|discriminate].
      destruct (containsPositions ch); simpl in H.
      * destruct (isCollapsedNode tcb ch) as [[|]| |]; discriminate.
      * destruct (isCollapsedNode tcb n) as [[|]| |]; discriminate.
Qed.

End ContainerWalk.

(** *** Text, moves and boundaries over a walk *)

(** The last character of a text is the leading line break of a block. *)
Definition endsWithLeadingSpace (chars : list TextPosition) : bool :=
  match rev chars with t :: _ => isLeadingSpace t | [] => false end.

Lemma shown_text_length (l : list TextPosition) :
  Forall (fun t => length (character t) <= 1) l ->
  length (concat (map character (filter shown l))) = length (filter shown l).
Proof.
  induction 1 as [|t l Ht Hl IH]; [reflexivity|]. cbn [filter].
  destruct (shown t) eqn:Hs; [|assumption].
  cbn [map concat length]. rewrite length_app, IH.
  rewrite (truthy_length t Ht). unfold shown in Hs. rewrite Hs. reflexivity.
Qed.

Lemma setStart_inv range n o r :
  setStart range (Some n) o = Ret r ->
  (nodeType n =? 10) = false /\ (getNodeLength n <? o) = false
  /\ collapse r true = mkRange n o n o.
Proof.
  unfold setStart. intros H.
  destruct (nodeType n =? 10); [discriminate|].
  destruct (getNodeLength n <? o); [discriminate|].
  destruct (_ =? 1)%Z; inv H; auto.
Qed.

Lemma setEnd_inv range n o r :
  setEnd range (Some n) o = Ret r ->
  (comparePoints n (NumberArg o) (startContainer range) (startOffset range) =? -1)%Z = false ->
  (nodeType n =? 10) = false /\ (getNodeLength n <? o) = false
  /\ r = mkRange (startContainer range) (startOffset range) n o.
Proof.
  unfold setEnd. intros H Hc.
  destruct (nodeType n =? 10); [discriminate|].
  destruct (getNodeLength n <? o); [discriminate|].
  rewrite Hc in H. inv H. auto.
Qed.

Lemma moveStart_inv tcb range i co res :
  moveStart tcb range CHARACTER i (Some (mkMoveOptions None co)) = Ret res ->
  exists mr s,
    movePositionBy tcb (getRangeStartPosition range) CHARACTER i
                   (createOptions co defaultCharacterOptions) (createWordOptions None) = Ret mr
    /\ movedPosition mr = Some s
    /\ setStart range (node s) (offset s) = Ret (snd res).
Proof.
  unfold moveStart, moveBoundary. cbn [createOptions moveCharacterOptions moveWordOptions].
  intros H.
  destruct (movePositionBy _ _ _ _ _ _) as [mr| |] eqn:Hm; cbn [bind] in H; try discriminate.
  destruct (movedPosition mr) as [s|] eqn:Hs; [|discriminate].
  destruct (setStart range (node s) (offset s)) as [r| |] eqn:Hr; cbn [bind] in H; try discriminate.
  inv H. exists mr, s. auto.
Qed.

Lemma moveEnd_inv tcb range i co res :
  moveEnd tcb range CHARACTER i (Some (mkMoveOptions None co)) = Ret res ->
  exists mr s,
    movePositionBy tcb (getRangeEndPosition range) CHARACTER i
                   (createOptions co defaultCharacterOptions) (createWordOptions None) = Ret mr
    /\ movedPosition mr = Some s
    /\ setEnd range (node s) (offset s) = Ret (snd res).
Proof.
  unfold moveEnd, moveBoundary. cbn [createOptions moveCharacterOptions moveWordOptions].
  intros H.
  destruct (movePositionBy _ _ _ _ _ _) as [mr| |] eqn:Hm; cbn [bind] in H; try discriminate.
  destruct (movedPosition mr) as [s|] eqn:Hs; [|discriminate].
  destruct (setEnd range (node s) (offset s)) as [r| |] eqn:Hr; cbn [bind] in H; try discriminate.
  inv H. exists mr, s. auto.
Qed.

Section ContainerText.

Variable tcb : bool.
Variable opts : CharacterOptions.
Variable c : Loc.
Hypothesis c_visible : isCollapsedNode tcb c = Ret false.
Hypothesis c_positions : containsPositions c = true.

(** The characters of the container are those of the walk through it. *)
Lemma chars_walk chars :
  0 < getNodeLength c ->
  getRangeCharacters tcb (selectNodeContents c) opts = Ret chars ->
  exists L, Walk tcb opts c (posAt c 0) L (lastOf c) /\ chars = filter shown L.
Proof.
  intros Hlen H.
  unfold getRangeCharacters, createRangeCharacterIterator, createCharacterIterator in H.
  cbn [getRangeStartPosition getRangeEndPosition selectNodeContents startContainer startOffset
       endContainer endOffset isCollapsedNodeOf posAt node] in H.
  rewrite c_visible in H. cbn [bind] in H.
  change (mkIterator false (Some (mkPos (Some c) (getNodeLength c))) opts
            (Some (mkPos (Some c) 0)) false None false)
    with (fwd opts (Some (lastOf c)) (posAt c 0) false None) in H.
  apply collect_inv in H. destruct H as [L [q [Hr [Hu [Hc Hend]]]]].
  assert (Hw : Walk tcb opts c (posAt c 0) L q).
  { apply Run_Walk; auto.
    - constructor.
    - lia.
    - intros _ E. unfold lastOf, posAt in E. inversion E. lia. }
  destruct (Walk_end _ _ _ _ _ _ Hw) as [n [o [E [Hin Hle]]]]. subst q.
  destruct Hend as [[Hne Hh] | [Hnone Hu']].
  - apply (inside_equals tcb c) in Hh; [|assumption]. fold (lastOf c) in Hh. rewrite Hh in Hw.
    exists L. split; [assumption|]. rewrite Hc. reflexivity.
  - exfalso. apply (inside_goes_on tcb c n o Hin); [|assumption].
    intros E. destruct L as [|t0 L0].
    + apply Walk_nil_inv in Hw. unfold lastOf, posAt in *. rewrite E in Hw. inversion Hw. lia.
    + destruct (@exists_last _ (t0 :: L0)) as [l [t HL]]; [discriminate|]. rewrite HL in *.
      apply Forall_app in Hu'. destruct Hu' as [_ Hu']. inversion Hu' as [|? ? Hx _]; subst.
      rewrite <- (Run_last _ _ _ _ _ _ Hr) in Hx. rewrite E in Hx.
      unfold here, lastOf in Hx. rewrite pos_equals_refl in Hx. discriminate.
Qed.

(** [movePositionBy] by [m] characters forward over a walk. *)
Lemma move_walk m L p e wo mr :
  Walk tcb opts c p L e ->
  m <= length (filter shown L) ->
  (m = length (filter shown L) ->
   forall L0 t, filter shown L = L0 ++ [t] -> isLeadingSpace t = false) ->
  movePositionBy tcb p CHARACTER (Z.of_nat m) opts wo = Ret mr ->
  exists L1 L2 s, movedPosition mr = Some s /\ L = L1 ++ L2
    /\ Walk tcb opts c p L1 s /\ Walk tcb opts c s L2 e /\ length (filter shown L1) = m.
Proof.
  intros Hw Hm Hlead H. destruct m as [|m].
  - unfold movePositionBy in H. simpl in H. inv H.
    destruct (Walk_start _ _ _ _ _ _ Hw) as [n [o [E [Hin Hle]]]]. subst p.
    exists [], L, (posAt n o). repeat split; auto. constructor; assumption.
  - unfold movePositionBy in H. rewrite Zabs2Nat.id in H.
    replace (Z.of_nat (S m) =? 0)%Z with false in H by (symmetry; apply Z.eqb_neq; lia).
    replace (Z.of_nat (S m) <? 0)%Z with false in H by (symmetry; apply Z.ltb_ge; lia).
    cbn [negb] in H. change (String.eqb CHARACTER CHARACTER) with true in H.
    change (String.eqb CHARACTER WORD) with false in H. cbv iota in H.
    unfold createCharacterIterator in H. cbn [bind] in H.
    change (mkIterator false None opts (Some p) false None false)
      with (fwd opts None p false None) in H.
    destruct (moveCharacterLoop tcb (posFuel p + 2) (fwd opts None p false None) (S m) 0 None)
      as [[[u newT] nextT]| |] eqn:Hloop; cbn [bind] in H; try discriminate.
    change (S m) with (0 + S m) in Hloop at 1.
    apply (moveCharacterLoop_spec tcb opts (S m) L p e) in Hloop; auto.
    2: eapply Walk_Run; eassumption.
    2: { intros x Hx. pose proof (Walk_fuel _ _ _ c_visible c_positions _ _ _ Hw x Hx). lia. }
    2: { pose proof (Walk_fuel _ _ _ c_visible c_positions _ _ _ Hw p (or_introl eq_refl)).
         pose proof (filter_length_le shown L). lia. }
    destruct Hloop as [L1 [L2 [E [Hc [_ [Hpos Hnext]]]]]].
    destruct (Hpos (Nat.lt_0_succ m)) as [L0 [t [E1 [Ht E2]]]]. subst L L1 newT.
    destruct (Walk_split tcb opts c _ _ _ _ Hw) as [s1 [Hw1 Hw2]].
    assert (Hs1 : s1 = position t) by (eapply Run_last; eapply Walk_Run; eauto).
    destruct (isLeadingSpace t) eqn:Hl.
    + destruct (split_shown L2) as [Hb | [l [t2 [L3 [E [Hb Ht2]]]]]].
      { exfalso. rewrite filter_app, (filter_blank _ Hb), app_nil_r in *.
        rewrite filter_app in *. simpl in *. rewrite Ht in *.
        rewrite (Hlead (eq_sym Hc) _ _ eq_refl) in Hl. discriminate. }
      subst L2. rewrite (Hnext l t2 L3 eq_refl Hb Ht2) in H. cbn [bind] in H.
      destruct (Walk_split tcb opts c _ _ _ _ Hw2) as [x [Hwx Hw3]].
      change (t2 :: L3) with ([t2] ++ L3) in Hw3.
      destruct (Walk_split tcb opts c _ _ _ _ Hw3) as [s2 [Hw4 Hw5]].
      destruct (Walk_back _ _ _ c_visible c_positions _ _ _ Hw4) as [Hback Hs2].
      rewrite <- Hs2, Hback in H. cbn [bind] in H. inv H.
      exists ((L0 ++ [t]) ++ l), (t2 :: L3), x. split; [|split; [|split; [|split]]].
      * reflexivity.
      * rewrite <- !app_assoc. reflexivity.
      * eapply Walk_app; eauto.
      * exact Hw3.
      * rewrite filter_app, (filter_blank _ Hb), app_nil_r. assumption.
    + inv H. exists (L0 ++ [t]), L2, (position t). repeat split; auto.
Qed.

End ContainerText.

(** The text of a range whose end the walk from its start reaches. *)
Lemma text_fwd tcb co na oa nb ob L :
  Run tcb (createOptions co defaultCharacterOptions) (posAt na oa) L (posAt nb ob) ->
  L <> [] ->
  unhit (Some (posAt nb ob)) (removelast L) ->
  pos_equals (posAt na oa) (Some (posAt nb ob)) = false ->
  isCollapsedNode tcb nb = Ret false ->
  (forall x, In x (posAt na oa :: map position L) -> length L + 1 < posFuel x) ->
  text tcb (mkRange na oa nb ob) co = Ret (concat (map character (filter shown L))).
Proof.
  intros Hr Hne Hu Hneq Hvis Hfuel.
  unfold text, collapsed. cbn [startContainer startOffset endContainer endOffset].
  change (node_eqb na nb && (oa =? ob)) with (pos_equals (posAt na oa) (Some (posAt nb ob))).
  rewrite Hneq.
  unfold getRangeCharacters, createRangeCharacterIterator, createCharacterIterator,
    getRangeStartPosition, getRangeEndPosition.
  cbn [getRangeStartPosition getRangeEndPosition startContainer startOffset
       endContainer endOffset isCollapsedNodeOf posAt node].
  rewrite Hvis. cbn [bind].
  pose proof (collect_fwd tcb (createOptions co defaultCharacterOptions) (Some (posAt nb ob))
                (length (filter shown L)) L (posAt na oa) None []
                (posFuel (posAt na oa) + 2) (posAt nb ob) eq_refl Hr Hne Hu) as Hcf.
  unfold fwd in Hcf. unfold iteratorFuel. cbn [pos]. rewrite Hcf; auto.
  - unfold here. apply pos_equals_refl.
  - pose proof (Hfuel _ (or_introl eq_refl)) as Hf.
    pose proof (filter_length_le shown L). lia.
Qed.



Lemma parent_nodeType (n p : Loc) : parentNode n = Some p -> (nodeType p =? 10) = false.
Proof.
  unfold parentNode. destruct (context n) as [|f up]; [discriminate|].
  intros H; inv H. unfold nodeType. simpl. destruct (shell f); reflexivity.
Qed.

(** *** The round trip *)

Section RoundTrip.

Variable tcb : bool.
Variable co : option CharacterOptions.
Variable c parent : Loc.
Hypothesis c_parent : parentNode c = Some parent.
Hypothesis c_visible : isCollapsedNode tcb c = Ret false.
Hypothesis c_positions : containsPositions c = true.






(** The walk through the container and its text. *)
Lemma text_walk T :
  text tcb (selectNodeContents c) co = Ret T ->
  exists L, Walk tcb (createOptions co defaultCharacterOptions) c (posAt c 0) L (lastOf c)
    /\ length T = length (filter shown L)
    /\ ((forall chars,
           getRangeCharacters tcb (selectNodeContents c) (createOptions co defaultCharacterOptions)
           = Ret chars ->
           endsWithLeadingSpace chars = false) ->
        forall L0 t, filter shown L = L0 ++ [t] -> isLeadingSpace t = false).
Proof.
  intros H. unfold text, collapsed in H.
  assert (Hcol : node_eqb (startContainer (selectNodeContents c))
                          (endContainer (selectNodeContents c))
                 && (startOffset (selectNodeContents c) =? endOffset (selectNodeContents c))
                 = (0 =? getNodeLength c)).
  { unfold selectNodeContents, node_eqb. simpl.
    destruct (list_eq_dec Nat.eq_dec (pathOf c) (pathOf c)); [reflexivity | congruence]. }
  rewrite Hcol in H.
  destruct (getNodeLength c) as [|len] eqn:Hlen.
  - exists []. split; [|split].
    + unfold lastOf. rewrite Hlen. constructor; [constructor | lia].
    + simpl in H. inv H. reflexivity.
    + intros _ L0 t E. destruct L0; discriminate.
  - replace (0 =? S len) with false in H by reflexivity.
    destruct (getRangeCharacters tcb (selectNodeContents c)
                (createOptions co defaultCharacterOptions)) as [chars| |] eqn:Hc;
      cbn [bind] in H; try discriminate.
    inv H.
    destruct (chars_walk tcb (createOptions co defaultCharacterOptions) c c_visible c_positions
                chars) as [L [Hw E]]; auto; [lia|].
    exists L. split; [assumption|]. split.
    + subst chars. apply shown_text_length. eapply Run_positions. eapply Walk_Run. eassumption.
    + intros Hends L0 t E0. specialize (Hends _ eq_refl). subst chars.
      unfold endsWithLeadingSpace in Hends. rewrite E0, rev_app_distr in Hends. exact Hends.
Qed.


End RoundTrip.



(** * Further properties *)

(** ** The position graph in document order *)

(** [comparePoints] answers "before" for a position that is before in the
    order of the codes. *)
Lemma comparePaths_lexlt pa : forall pb a b,
  lexlt (codeOf pa a) (codeOf pb b) -> comparePaths pa pb (NumberArg a) b = (-1)%Z.
Proof.
  unfold codeOf.
  induction pa as [|i pa IH]; intros [|j pb] a b H; simpl in H; simpl.
  - inversion H as [| ? ? ? ? Hlt | ? ? ? Hl]; subst.
    + replace (a =? b) with false by (symmetry; apply Nat.eqb_neq; lia).
      replace (a <? b) with true by (symmetry; apply Nat.ltb_lt; lia). reflexivity.
    + inversion Hl.
  - inversion H as [| ? ? ? ? Hlt | ? ? ? Hl]; subst.
    + replace (a <=? j) with true by (symmetry; apply Nat.leb_le; lia). reflexivity.
    + lia.
  - inversion H as [| ? ? ? ? Hlt | ? ? ? Hl]; subst.
    + replace (i <? b) with true by (symmetry; apply Nat.ltb_lt; lia). reflexivity.
    + lia.
  - inversion H as [| ? ? ? ? Hlt | ? ? ? Hl]; subst.
    + replace (i =? j) with false by (symmetry; apply Nat.eqb_neq; lia).
      replace (i <? j) with true by (symmetry; apply Nat.ltb_lt; lia). reflexivity.
    + assert (E : i = j) by lia. subst j. rewrite Nat.eqb_refl. apply IH. assumption.
Qed.

Lemma comparePoints_lexlt (n : Loc) (o : nat) (n' : Loc) (o' : nat) :
  lexlt (code n o) (code n' o') -> comparePoints n (NumberArg o) n' o' = (-1)%Z.
Proof. apply comparePaths_lexlt. Qed.

Lemma rank_mono (n : Loc) (a b : nat) : a <= b -> rank n a <= rank n b.
Proof.
  induction 1 as [|b Hle IH]; [lia|]. pose proof (rank_next n b). lia.
Qed.

(** A position and the one after its node in the parent. *)
Lemma after_node (n p : Loc) (o : nat) :
  parentNode n = Some p -> o <= getNodeLength n ->
  getNodeIndex n + 1 <= getNodeLength p
  /\ lexlt (code n o) (code p (getNodeIndex n + 1))
  /\ rank n o < rank p (getNodeIndex n + 1)
  /\ documentOf p = documentOf n.
Proof.
  intros Hp Hle. destruct (rank_up _ _ Hp) as [Hr Hl].
  pose proof (rank_mono n o (getNodeLength n) Hle).
  repeat split; [assumption | apply code_up; assumption | lia | apply documentOf_parent; assumption].
Qed.

(** A position and the one before its node in the parent. *)
Lemma code_before (n p : Loc) (o : nat) :
  parentNode n = Some p -> lexlt (code p (getNodeIndex n)) (code n o).
Proof.
  intros H. unfold code, codeOf. rewrite (pathOf_child _ _ H). simpl.
  rewrite map_app, <- app_assoc. apply lexlt_prefix. simpl. apply lexlt_lt. lia.
Qed.

Lemma before_node (n p : Loc) (o : nat) :
  parentNode n = Some p ->
  getNodeIndex n <= getNodeLength p
  /\ lexlt (code p (getNodeIndex n)) (code n o)
  /\ rank p (getNodeIndex n) < rank n o + 1
  /\ documentOf p = documentOf n.
Proof.
  intros Hp. destruct (rank_up _ _ Hp) as [_ Hl].
  destruct (rank_down _ _ _ (childNode_parentNode _ _ Hp)) as [Hr _].
  pose proof (rank_mono n 0 o (Nat.le_0_l o)).
  repeat split; [lia | apply code_before; assumption | lia | apply documentOf_parent; assumption].
Qed.

Ltac split4 := split; [|split; [|split]].

(** What a step forward keeps and gains, for any position of a document. *)
Lemma nextVisiblePosition_step (tcb : bool) (n : Loc) (o : nat) (n' : Loc) (o' : nat) :
  o <= getNodeLength n ->
  nextVisiblePosition tcb (posAt n o) = Ret (Some (posAt n' o')) ->
  o' <= getNodeLength n' /\ lexlt (code n o) (code n' o')
  /\ rank n o < rank n' o' /\ documentOf n' = documentOf n.
Proof.
  intros Hle H.
  assert (Hup : forall p, parentNode n = Some p ->
                forall b, isCollapsedNode tcb p = Ret b ->
                (if b then Ret (Some (mkPos (parentNode p) (getNodeIndex p + 1)))
                 else Ret (Some (posAt p (getNodeIndex n + 1)))) = Ret (Some (posAt n' o')) ->
                o' <= getNodeLength n' /\ lexlt (code n o) (code n' o')
                /\ rank n o < rank n' o' /\ documentOf n' = documentOf n).
  { intros p Hp b Hb E. destruct (after_node n p o Hp Hle) as [H1 [H2 [H3 H4]]].
    destruct b.
    - destruct (parentNode p) as [g|] eqn:Hg; [|discriminate].
      inversion E; subst.
      destruct (after_node p n' (getNodeIndex n + 1) Hg H1) as [G1 [G2 [G3 G4]]].
      split4; [assumption | eapply lexlt_trans; eassumption | lia | congruence].
    - inversion E; subst. split4; assumption. }
  unfold nextVisiblePosition, nextPosition, isCollapsedNodeOf in H. simpl in H.
  destruct (o =? getNodeLength n) eqn:Hend.
  - destruct (parentNode n) as [p|] eqn:Hp; simpl in H; [|discriminate].
    destruct (isCollapsedNode tcb p) as [b| |] eqn:Hb; simpl in H; try discriminate.
    apply (Hup p eq_refl b Hb). destruct b; assumption.
  - apply Nat.eqb_neq in Hend.
    assert (Hsame : forall b, isCollapsedNode tcb n = Ret b ->
              (if b then Ret (Some (mkPos (parentNode n) (getNodeIndex n + 1)))
               else Ret (Some (posAt n (o + 1)))) = Ret (Some (posAt n' o')) ->
              o' <= getNodeLength n' /\ lexlt (code n o) (code n' o')
              /\ rank n o < rank n' o' /\ documentOf n' = documentOf n).
    { intros b Hb E. destruct b.
      - destruct (parentNode n) as [p|] eqn:Hp; [|discriminate].
        inversion E; subst. apply after_node; assumption.
      - inversion E; subst. split4; [lia | apply code_next | | reflexivity].
        replace (o + 1) with (S o) by lia. apply rank_next. }
    destruct (isCharacterDataNode n) eqn:Hcd; simpl in H.
    + destruct (isCollapsedNode tcb n) as [b| |] eqn:Hb; simpl in H; try discriminate.
      apply (Hsame b eq_refl). destruct b; assumption.
    + destruct (childNode n o) as [ch|] eqn:Hch; [|discriminate].
      destruct (parentNode_childNode _ _ _ Hch) as [Hcp Hci].
      destruct (rank_down _ _ _ Hch) as [Hr Hl].
      destruct (containsPositions ch); simpl in H.
      * destruct (isCollapsedNode tcb ch) as [b| |] eqn:Hb; simpl in H; try discriminate.
        destruct b.
        -- rewrite Hcp in H. inversion H; subst.
           split4; [lia | apply code_next | | reflexivity].
           replace (getNodeIndex ch + 1) with (S (getNodeIndex ch)) by lia. apply rank_next.
        -- inversion H; subst. split4; [lia | apply code_down; assumption | lia
                          | symmetry; apply documentOf_parent; assumption].
      * destruct (isCollapsedNode tcb n) as [b| |] eqn:Hb; simpl in H; try discriminate.
        apply (Hsame b eq_refl). destruct b; assumption.
Qed.

(** What a step backward keeps and gains. *)
Lemma previousVisiblePosition_step (tcb : bool) (n : Loc) (o : nat) (n' : Loc) (o' : nat) :
  o <= getNodeLength n ->
  previousVisiblePosition tcb (Some (posAt n o)) = Ret (Some (posAt n' o')) ->
  o' <= getNodeLength n' /\ lexlt (code n' o') (code n o)
  /\ rank n' o' < rank n o /\ documentOf n' = documentOf n.
Proof.
  intros Hle H.
  assert (Hout : forall m x, parentNode m = Some x -> x = x ->
            forall k, lexlt (code m k) (code n o) \/ (m = n /\ k = o) ->
            rank m 0 <= rank n o -> documentOf m = documentOf n ->
            forall b, isCollapsedNode tcb x = Ret b ->
            (if b then Ret (Some (mkPos (parentNode x) (getNodeIndex x)))
             else Ret (Some (posAt x (getNodeIndex m)))) = Ret (Some (posAt n' o')) ->
            o' <= getNodeLength n' /\ lexlt (code n' o') (code n o)
            /\ rank n' o' < rank n o /\ documentOf n' = documentOf n).
  { intros m x Hm _ k Hk Hr Hd b Hb E.
    destruct (before_node m x k Hm) as [H1 [H2 [_ H4]]].
    destruct (rank_down _ _ _ (childNode_parentNode _ _ Hm)) as [Hr0 _].
    assert (Hlt : lexlt (code x (getNodeIndex m)) (code n o)).
    { destruct Hk as [Hk | [E1 E2]]; [eapply lexlt_trans; eassumption | subst; assumption]. }
    destruct b.
    - destruct (parentNode x) as [g|] eqn:Hg; [|discriminate].
      inversion E; subst.
      destruct (before_node x n' (getNodeIndex m) Hg) as [G1 [G2 [G3 G4]]].
      split4; [assumption | eapply lexlt_trans; eassumption | lia | congruence].
    - inversion E; subst. split4; [assumption | assumption | lia | congruence]. }
  unfold previousVisiblePosition, previousPosition, isCollapsedNodeOf in H. simpl in H.
  destruct (o =? 0) eqn:Hz.
  - apply Nat.eqb_eq in Hz. subst o.
    destruct (parentNode n) as [p|] eqn:Hp; simpl in H; [|discriminate].
    destruct (isCollapsedNode tcb p) as [b| |] eqn:Hb; simpl in H; try discriminate.
    apply (Hout n p Hp eq_refl 0 (or_intror (conj eq_refl eq_refl)) (Nat.le_refl _) eq_refl b Hb).
    destruct b; assumption.
  - apply Nat.eqb_neq in Hz.
    assert (Hsame : forall b, isCollapsedNode tcb n = Ret b ->
              (if b then Ret (Some (mkPos (parentNode n) (getNodeIndex n)))
               else Ret (Some (posAt n (o - 1)))) = Ret (Some (posAt n' o')) ->
              o' <= getNodeLength n' /\ lexlt (code n' o') (code n o)
              /\ rank n' o' < rank n o /\ documentOf n' = documentOf n).
    { intros b Hb E. destruct b.
      - destruct (parentNode n) as [p|] eqn:Hp; [|discriminate].
        inversion E; subst.
        destruct (before_node n n' 0 Hp) as [H1 [H2 [H3 H4]]].
        pose proof (code_before n n' o Hp).
        pose proof (rank_next n (o - 1)). pose proof (rank_mono n 0 (o - 1) (Nat.le_0_l _)).
        replace (S (o - 1)) with o in * by lia.
        split4; [assumption | assumption | lia | assumption].
      - inversion E; subst.
        pose proof (code_next n' (o - 1)) as Hc. pose proof (rank_next n' (o - 1)) as Hr.
        replace (o - 1 + 1) with o in Hc by lia. replace (S (o - 1)) with o in Hr by lia.
        split4; [lia | assumption | assumption | reflexivity]. }
    destruct (isCharacterDataNode n) eqn:Hcd; simpl in H.
    + destruct (isCollapsedNode tcb n) as [b| |] eqn:Hb; simpl in H; try discriminate.
      apply (Hsame b eq_refl). destruct b; assumption.
    + destruct (childNode n (o - 1)) as [ch|] eqn:Hch; [|discriminate].
      destruct (parentNode_childNode _ _ _ Hch) as [Hcp Hci].
      destruct (rank_down _ _ _ Hch) as [Hr Hl].
      destruct (rank_up _ _ Hcp) as [Hru _]. rewrite Hci in Hru.
      replace (o - 1 + 1) with o in Hru by lia.
      destruct (containsPositions ch); simpl in H.
      * destruct (isCollapsedNode tcb ch) as [b| |] eqn:Hb; simpl in H; try discriminate.
        destruct b.
        -- rewrite Hcp in H. inversion H; subst.
           pose proof (code_next n' (getNodeIndex ch)) as Hc.
           pose proof (rank_next n' (getNodeIndex ch)) as Hr'.
           replace (getNodeIndex ch + 1) with o in Hc by lia.
           replace (S (getNodeIndex ch)) with o in Hr' by lia.
           split4; [lia | assumption | assumption | reflexivity].
        -- inversion H; subst.
           pose proof (code_up _ _ (getNodeLength n') Hcp) as Hc.
           rewrite Hci in Hc. replace (o - 1 + 1) with o in Hc by lia.
           split4; [lia | assumption | lia | symmetry; apply documentOf_parent; assumption].
      * destruct (isCollapsedNode tcb n) as [b| |] eqn:Hb; simpl in H; try discriminate.
        apply (Hsame b eq_refl). destruct b; assumption.
Qed.

(** X1. From any position of a document, the position that
    [nextVisiblePosition] returns lies in its node and is strictly later in
    document order.  (The position returned has no node when a collapsed
    root is skipped; then it is no position of the document.) *)
Theorem nextVisiblePosition_is_later (tcb : bool) (n : Loc) (o : nat) (n' : Loc) (o' : nat) :
  o <= getNodeLength n ->
  nextVisiblePosition tcb (posAt n o) = Ret (Some (posAt n' o')) ->
  o' <= getNodeLength n' /\ comparePoints n (NumberArg o) n' o' = (-1)%Z.
Proof.
  intros Hle H.
  destruct (nextVisiblePosition_step tcb n o n' o' Hle H) as [Hv [Hc _]].
  split; [exact Hv|]. apply comparePoints_lexlt. exact Hc.
Qed.

Lemma nextVisiblePosition_is_later_witness :
  nextVisiblePosition false (posAt doubleSpaceText 4) = Ret (Some (posAt doubleSpaceDiv 1))
  /\ 1 <= getNodeLength doubleSpaceDiv
  /\ comparePoints doubleSpaceText (NumberArg 4) doubleSpaceDiv 1 = (-1)%Z.
Proof.
  assert (H : nextVisiblePosition false (posAt doubleSpaceText 4)
              = Ret (Some (posAt doubleSpaceDiv 1))) by (vm_compute; reflexivity).
  split; [exact H|].
  apply (nextVisiblePosition_is_later false doubleSpaceText 4 doubleSpaceDiv 1).
  - vm_compute. lia.
  - exact H.
Defined.

(** X2. From any position of a document, the position that
    [previousVisiblePosition] returns lies in its node and is strictly
    earlier in document order. *)
Theorem previousVisiblePosition_is_earlier (tcb : bool) (n : Loc) (o : nat) (n' : Loc) (o' : nat) :
  o <= getNodeLength n ->
  previousVisiblePosition tcb (Some (posAt n o)) = Ret (Some (posAt n' o')) ->
  o' <= getNodeLength n' /\ comparePoints n' (NumberArg o') n o = (-1)%Z.
Proof.
  intros Hle H.
  destruct (previousVisiblePosition_step tcb n o n' o' Hle H) as [Hv [Hc _]].
  split; [exact Hv|]. apply comparePoints_lexlt. exact Hc.
Qed.

Lemma previousVisiblePosition_is_earlier_witness :
  previousVisiblePosition false (Some (posAt doubleSpaceDiv 1))
  = Ret (Some (posAt doubleSpaceText 4))
  /\ 4 <= getNodeLength doubleSpaceText
  /\ comparePoints doubleSpaceText (NumberArg 4) doubleSpaceDiv 1 = (-1)%Z.
Proof.
  assert (H : previousVisiblePosition false (Some (posAt doubleSpaceDiv 1))
              = Ret (Some (posAt doubleSpaceText 4))) by (vm_compute; reflexivity).
  split; [exact H|].
  apply (previousVisiblePosition_is_earlier false doubleSpaceDiv 1 doubleSpaceText 4).
  - vm_compute. lia.
  - exact H.
Defined.

(** ** The characters of a range *)

Lemma createCharacterIterator_fwd tcb p e opts it :
  createCharacterIterator tcb p false e opts = Ret it ->
  exists e', it = fwd opts e' p false None.
Proof.
  unfold createCharacterIterator. intros H.
  match type of H with bind ?c _ = _ => destruct c as [e'| |]; simpl in H; try discriminate end.
  inv H. exists e'. reflexivity.
Qed.

(** The characters of a range are the shown ones of a run from its start. *)
Lemma getRangeCharacters_run tcb range opts chars :
  getRangeCharacters tcb range opts = Ret chars ->
  exists L q, Run tcb opts (getRangeStartPosition range) L q /\ chars = filter shown L.
Proof.
  unfold getRangeCharacters, createRangeCharacterIterator. intros H.
  destruct (createCharacterIterator tcb (getRangeStartPosition range) false
              (Some (getRangeEndPosition range)) opts) as [it| |] eqn:Hit;
    cbn [bind] in H; try discriminate.
  destruct (createCharacterIterator_fwd _ _ _ _ _ Hit) as [e' E]. subst it.
  apply collect_inv in H. destruct H as [L [q [Hr [_ [Hc _]]]]].
  exists L, q. split; [assumption|]. rewrite Hc. reflexivity.
Qed.

(** X3. Every character that [getRangeCharacters] returns is one UTF-16
    code unit, so the text of a range has as many code units as the range
    has characters. *)
Theorem range_characters_are_code_units tcb range opts chars :
  getRangeCharacters tcb range opts = Ret chars ->
  Forall (fun t => length (character t) = 1) chars
  /\ length (concat (map character chars)) = length chars.
Proof.
  intros H. destruct (getRangeCharacters_run _ _ _ _ H) as [L [q [Hr Hc]]]. subst chars.
  pose proof (Run_positions _ _ _ _ _ Hr) as Hshort.
  split; [|apply shown_text_length; assumption].
  clear Hr H. induction Hshort as [|t l Ht Hl IH]; [constructor|]. cbn [filter].
  destruct (shown t) eqn:Hs; [|assumption].
  constructor; [|assumption].
  rewrite (truthy_length t Ht). unfold shown in Hs. rewrite Hs. reflexivity.
Qed.

Lemma range_characters_are_code_units_witness :
  exists chars,
    getRangeCharacters false (selectNodeContents doubleSpaceDiv) defaultCharacterOptions = Ret chars
    /\ length chars = 3
    /\ Forall (fun t => length (character t) = 1) chars
    /\ length (concat (map character chars)) = length chars.
Proof.
  destruct (getRangeCharacters false (selectNodeContents doubleSpaceDiv) defaultCharacterOptions)
    as [chars| |] eqn:H; [| vm_compute in H; discriminate | vm_compute in H; discriminate].
  exists chars. split; [reflexivity|]. split.
  - vm_compute in H. inversion H. reflexivity.
  - exact (range_characters_are_code_units false (selectNodeContents doubleSpaceDiv)
             defaultCharacterOptions chars H).
Defined.

(** *** Hidden elements *)

Lemma getAncestorsAndSelf_child (n p : Loc) :
  parentNode n = Some p -> getAncestorsAndSelf n = getAncestorsAndSelf p ++ [n].
Proof.
  unfold parentNode, getAncestorsAndSelf, getAncestors.
  destruct n as [foc [|f up]]; simpl; [discriminate|]. intros H; inv H. reflexivity.
Qed.

Lemma isHidden_parent tcb (n p : Loc) :
  parentNode n = Some p -> isHidden tcb n = false -> isHidden tcb p = false.
Proof.
  intros Hp. unfold isHidden. rewrite (getAncestorsAndSelf_child _ _ Hp), existsb_app.
  intros H. apply orb_false_elim in H. apply H.
Qed.

Lemma isCollapsedNode_shows tcb (n : Loc) :
  isCollapsedNode tcb n = Ret false -> isHidden tcb n = false.
Proof.
  unfold isCollapsedNode. intros H.
  destruct (isHidden tcb n); [|reflexivity].
  rewrite orb_true_r in H. simpl in H. discriminate.
Qed.

(** A position whose node, if any, is in no hidden element. *)
Definition shownPosition (tcb : bool) (p : DomPosition) : Prop :=
  forall m, node p = Some m -> isHidden tcb m = false.

Lemma shownPosition_up tcb (n : Loc) (k : nat) :
  isHidden tcb n = false -> shownPosition tcb (mkPos (parentNode n) k).
Proof. intros H m E. simpl in E. eapply isHidden_parent; eauto. Qed.

Lemma nextVisiblePosition_shown tcb (p q : DomPosition) :
  shownPosition tcb p ->
  nextVisiblePosition tcb p = Ret (Some q) -> shownPosition tcb q.
Proof.
  intros Hs H. unfold nextVisiblePosition, nextPosition, isCollapsedNodeOf in H.
  destruct (node p) as [n|] eqn:Hn; [|discriminate].
  specialize (Hs n Hn).
  assert (Hat : forall x k b, isHidden tcb x = false -> isCollapsedNode tcb x = Ret b ->
              (if b then Ret (Some (mkPos (parentNode x) (getNodeIndex x + 1)))
               else Ret (Some (posAt x k))) = Ret (Some q) -> shownPosition tcb q).
  { intros x k b Hx Hb E. destruct b; inversion E; subst.
    - apply shownPosition_up. assumption.
    - intros m Em. simpl in Em. inversion Em; subst. assumption. }
  destruct (offset p =? getNodeLength n).
  - destruct (parentNode n) as [par|] eqn:Hp; simpl in H; [|discriminate].
    destruct (isCollapsedNode tcb par) as [b| |] eqn:Hb; simpl in H; try discriminate.
    apply (Hat par (getNodeIndex n + 1) b (isHidden_parent _ _ _ Hp Hs) Hb).
    destruct b; assumption.
  - destruct (isCharacterDataNode n); simpl in H.
    + destruct (isCollapsedNode tcb n) as [b| |] eqn:Hb; simpl in H; try discriminate.
      apply (Hat n (offset p + 1) b Hs Hb). destruct b; assumption.
    + destruct (childNode n (offset p)) as [ch|] eqn:Hch; [|discriminate].
      destruct (parentNode_childNode _ _ _ Hch) as [Hcp Hci].
      destruct (containsPositions ch); simpl in H.
      * destruct (isCollapsedNode tcb ch) as [b| |] eqn:Hb; simpl in H; try discriminate.
        destruct b; inversion H; subst.
        -- rewrite Hcp. intros m Em. simpl in Em. inversion Em; subst. assumption.
        -- intros m Em. simpl in Em. inversion Em; subst.
           apply isCollapsedNode_shows. assumption.
      * destruct (isCollapsedNode tcb n) as [b| |] eqn:Hb; simpl in H; try discriminate.
        apply (Hat n (offset p + 1) b Hs Hb). destruct b; assumption.
Qed.

Lemma Run_shown tcb opts p L q :
  Run tcb opts p L q -> shownPosition tcb p ->
  Forall (fun t => shownPosition tcb (position t)) L.
Proof.
  induction 1 as [|p q t l r Hn Hc Hr IH]; intros Hs; [constructor|].
  assert (Hq : shownPosition tcb q) by (eapply nextVisiblePosition_shown; eauto).
  constructor; [|apply IH; assumption].
  apply getCharacterAt_spec in Hc. destruct Hc as [E _]. rewrite E. assumption.
Qed.

(** X4. The characters of a range that starts outside every hidden
    ([display: none]) element are all taken at positions of nodes that are
    in no hidden element. *)
Theorem hidden_elements_give_no_characters tcb range opts chars :
  isHidden tcb (startContainer range) = false ->
  getRangeCharacters tcb range opts = Ret chars ->
  Forall (fun t => forall m, node (position t) = Some m -> isHidden tcb m = false) chars.
Proof.
  intros Hs H. destruct (getRangeCharacters_run _ _ _ _ H) as [L [q [Hr Hc]]]. subst chars.
  assert (Hall : Forall (fun t => shownPosition tcb (position t)) L).
  { apply (Run_shown _ _ _ _ _ Hr). intros m E. simpl in E. inversion E; subst. assumption. }
  clear Hr H. induction Hall as [|t l Ht Hl IH]; [constructor|]. cbn [filter].
  destruct (shown t); [constructor|]; assumption.
Qed.

Lemma hidden_elements_give_no_characters_witness :
  exists chars,
    getRangeCharacters false (selectNodeContents (at_path hiddenSpanDoc [0; 0; 0]))
                       defaultCharacterOptions = Ret chars
    /\ concat (map character chars) = js "hi there"
    /\ Forall (fun t => forall m, node (position t) = Some m -> isHidden false m = false) chars.
Proof.
  destruct (getRangeCharacters false (selectNodeContents (at_path hiddenSpanDoc [0; 0; 0]))
              defaultCharacterOptions) as [chars| |] eqn:H;
    [| vm_compute in H; discriminate | vm_compute in H; discriminate].
  exists chars. split; [reflexivity|]. split.
  - vm_compute in H. inversion H. reflexivity.
  - apply (hidden_elements_give_no_characters false
             (selectNodeContents (at_path hiddenSpanDoc [0; 0; 0])) defaultCharacterOptions chars).
    + vm_compute. reflexivity.
    + exact H.
Defined.

(** *** A space in front of a line feed in [pre-line] text *)

(** X5. In a text node whose parent has [white-space: pre-line],
    [getCharacterAt] raises a [TypeError] at a space that follows no other
    space and is followed by a line feed: [getPossibleCharacterAt] reads
    [options.collapseSpaces] there, and no caller hands it any options. *)
Theorem pre_line_space_raises tcb (n p : Loc) (d : jsstring) (o : nat)
        (pre : option (list TextPosition)) (opts : CharacterOptions) :
  focus n = Text d ->
  parentNode n = Some p ->
  getComputedStyleProperty p whiteSpace = Ret "pre-line" ->
  0 < o ->
  spacesMinusLineBreaksRegex (charAt d (o - 1)) = true ->
  (1 <? o) && spacesMinusLineBreaksRegex (charAt d (o - 2)) = false ->
  charAt d o = newline ->
  getCharacterAt tcb (posAt n o) pre opts = Throw TypeError.
Proof.
  intros Hf Hp Hws Ho Hsp Hprev Hnl.
  unfold getCharacterAt, getPossibleCharacterAt. cbn [posAt offset node].
  replace (0 <? o) with true by (symmetry; apply Nat.ltb_lt; assumption).
  rewrite Hf. unfold getTextNodeProperties. rewrite Hp, Hws. cbn [bind].
  change (String.eqb "pre-line" "pre-line") with true. cbv iota. cbn [bind].
  cbn [nodeCollapseSpaces spaceRegex preLine].
  rewrite Hsp, Hprev, Hnl. reflexivity.
Qed.

Lemma pre_line_space_raises_witness :
  getCharacterAt false (posAt preLineText 2) None defaultCharacterOptions = Throw TypeError
  /\ text false (selectNodeContents preLineParagraph) None = Throw TypeError.
Proof.
  split; [|vm_compute; reflexivity].
  apply (pre_line_space_raises false preLineText preLineParagraph [97; 32; 10; 98]%N 2 None
           defaultCharacterOptions); try (vm_compute; reflexivity). lia.
Defined.

(** ** Moving by units *)

Lemma moveCharacterLoop_units tcb fuel : forall it absCount u cur u' newT nextT,
  moveCharacterLoop tcb fuel it absCount u cur = Ret (u', newT, nextT) ->
  u <= absCount -> u <= u' /\ u' <= absCount.
Proof.
  induction fuel as [|fuel IH]; intros it absCount u cur u' newT nextT H Hu; [discriminate|].
  cbn [moveCharacterLoop] in H.
  destruct (iteratorNext tcb it) as [[[t|] it']| |]; cbn [bind] in H; try discriminate.
  - destruct (u <? absCount) eqn:Hlt.
    + apply Nat.ltb_lt in Hlt. apply IH in H; lia.
    + inv H. lia.
  - inv H. lia.
Qed.

Lemma moveWordLoop_units tcb fuel : forall p backward absCount u cur u' newT,
  moveWordLoop tcb fuel p backward absCount u cur = Ret (u', newT) ->
  u <= absCount -> u <= u' /\ u' <= absCount.
Proof.
  induction fuel as [|fuel IH]; intros p backward absCount u cur u' newT H Hu; [discriminate|].
  cbn [moveWordLoop] in H.
  match type of H with bind ?c _ = _ => destruct c as [[[t|] p']| |] end;
    cbn [bind] in H; try discriminate.
  - destruct (u <? absCount) eqn:Hlt.
    + apply Nat.ltb_lt in Hlt. destruct (isWord t); apply IH in H; lia.
    + inv H. lia.
  - inv H. lia.
Qed.

(** X6. [movePositionBy] never reports more units than it was asked to
    move, and reports them with the sign of the count. *)
Theorem movePositionBy_units tcb pos unit count characterOptions wordOptions mr :
  movePositionBy tcb pos unit count characterOptions wordOptions = Ret mr ->
  (Z.abs (unitsMoved mr) <= Z.abs count)%Z
  /\ (0 <= count -> 0 <= unitsMoved mr)%Z
  /\ (count <= 0 -> unitsMoved mr <= 0)%Z.
Proof.
  unfold movePositionBy. intros H.
  destruct (count =? 0)%Z eqn:Hz; cbn [negb] in H.
  { inv H. simpl. lia. }
  apply Z.eqb_neq in Hz.
  match type of H with bind ?c _ = _ => destruct c as [[[u newT] nextT]| |] eqn:Hloop end;
    cbn [bind] in H; try discriminate.
  assert (Hu : u <= Z.abs_nat count).
  { destruct (String.eqb unit CHARACTER).
    - match type of Hloop with bind ?c _ = _ => destruct c as [it| |] end;
        cbn [bind] in Hloop; try discriminate.
      apply moveCharacterLoop_units in Hloop; lia.
    - destruct (String.eqb unit WORD); [|discriminate].
      match type of Hloop with bind ?c _ = _ => destruct c as [prov| |] end;
        cbn [bind] in Hloop; try discriminate.
      match type of Hloop with bind ?c _ = _ => destruct c as [[u0 t0]| |] eqn:Hw end;
        cbn [bind] in Hloop; try discriminate.
      inv Hloop. apply moveWordLoop_units in Hw; lia. }
  clear Hloop.
  destruct (count <? 0)%Z eqn:Hneg.
  - apply Z.ltb_lt in Hneg. steps. simpl. lia.
  - apply Z.ltb_ge in Hneg. steps; simpl; lia.
Qed.

Lemma movePositionBy_units_witness :
  exists mr,
    movePositionBy false (posAt doubleSpaceDiv 0) CHARACTER 7 defaultCharacterOptions
                   defaultWordOptions = Ret mr
    /\ unitsMoved mr = 3%Z
    /\ (Z.abs (unitsMoved mr) <= Z.abs 7)%Z
    /\ (0 <= 7 -> 0 <= unitsMoved mr)%Z
    /\ (7 <= 0 -> unitsMoved mr <= 0)%Z.
Proof.
  destruct (movePositionBy false (posAt doubleSpaceDiv 0) CHARACTER 7 defaultCharacterOptions
              defaultWordOptions) as [mr| |] eqn:H;
    [| vm_compute in H; discriminate | vm_compute in H; discriminate].
  exists mr. split; [reflexivity|]. split.
  - vm_compute in H. inversion H. reflexivity.
  - exact (movePositionBy_units false _ _ _ _ _ mr H).
Defined.

(** The units the loop counts when the walk has the characters asked for. *)
Lemma moveCharacterLoop_exact tcb opts : forall m L p q prev u cur F u' newT nextT,
  Run tcb opts p L q ->
  (forall x, In x (p :: map position L) -> length L + 1 < posFuel x) ->
  m <= length (filter shown L) -> m < F ->
  moveCharacterLoop tcb F (fwd opts None p false prev) (u + m) u cur = Ret (u', newT, nextT) ->
  u' = u + m.
Proof.
  induction m as [|m IH]; intros L p q prev u cur F u' newT nextT Hr Hfuel Hm HF H.
  - apply moveCharacterLoop_units in H; lia.
  - destruct F as [|F]; [lia|]. cbn [moveCharacterLoop] in H. rewrite iteratorNext_fwd in H.
    destruct (split_shown L) as [Hb | [l1 [t [l2 [E [Hb Ht]]]]]].
    { rewrite (filter_blank _ Hb) in Hm. simpl in Hm. lia. }
    subst L.
    replace (l1 ++ t :: l2) with ((l1 ++ [t]) ++ l2) in Hr by (rewrite <- app_assoc; reflexivity).
    destruct (Run_split _ _ _ _ _ _ Hr) as [q1 [Hr1 Hr2]].
    rewrite (iteratorNextLoop_char tcb opts None l1 (posFuel p) p prev t q1) in H; auto.
    2: apply unhit_None.
    2: { specialize (Hfuel p (or_introl eq_refl)). rewrite length_app in Hfuel. lia. }
    cbn [bind] in H.
    replace (u <? u + S m) with true in H by (symmetry; apply Nat.ltb_lt; lia).
    replace (u + S m) with (S u + m) in * by lia. unfold here in H.
    assert (Hq1 : q1 = position t) by (eapply Run_last; eauto).
    rewrite filter_app, (filter_blank _ Hb) in Hm. simpl in Hm. rewrite Ht in Hm. simpl in Hm.
    apply (IH l2 q1 q (Some t) (S u) (Some t) F u' newT nextT Hr2); auto; try lia.
    intros x Hx.
    assert (Hin : In x (p :: map position (l1 ++ t :: l2))).
    { right. rewrite map_app. apply in_or_app. right. simpl.
      destruct Hx as [Hx | Hx]; [left; congruence | right; assumption]. }
    specialize (Hfuel x Hin). rewrite length_app in Hfuel. simpl in *. lia.
Qed.

(** X7. From the start of a container that is not collapsed and contains
    positions, moving by a number of characters that its text has moves by
    exactly that number. *)
Theorem movePositionBy_available tcb co (c : Loc) (T : jsstring) (m : nat) wordOptions mr :
  isCollapsedNode tcb c = Ret false ->
  containsPositions c = true ->
  text tcb (selectNodeContents c) co = Ret T ->
  m <= length T ->
  movePositionBy tcb (posAt c 0) CHARACTER (Z.of_nat m)
                 (createOptions co defaultCharacterOptions) wordOptions = Ret mr ->
  unitsMoved mr = Z.of_nat m.
Proof.
  intros Hvis Hpos HT Hm H.
  set (opts := createOptions co defaultCharacterOptions) in *.
  destruct (text_walk tcb co c Hvis Hpos T HT) as [L [Hw [HN _]]]. fold opts in Hw.
  destruct m as [|m].
  { unfold movePositionBy in H. simpl in H. inv H. reflexivity. }
  unfold movePositionBy in H. rewrite Zabs2Nat.id in H.
  replace (Z.of_nat (S m) =? 0)%Z with false in H by (symmetry; apply Z.eqb_neq; lia).
  replace (Z.of_nat (S m) <? 0)%Z with false in H by (symmetry; apply Z.ltb_ge; lia).
  cbn [negb] in H. change (String.eqb CHARACTER CHARACTER) with true in H.
  change (String.eqb CHARACTER WORD) with false in H. cbv iota in H.
  unfold createCharacterIterator in H. cbn [bind] in H.
  change (mkIterator false None opts (Some (posAt c 0)) false None false)
    with (fwd opts None (posAt c 0) false None) in H.
  destruct (moveCharacterLoop tcb (posFuel (posAt c 0) + 2) (fwd opts None (posAt c 0) false None)
              (S m) 0 None) as [[[u newT] nextT]| |] eqn:Hloop; cbn [bind] in H; try discriminate.
  change (S m) with (0 + S m) in Hloop at 1.
  apply (moveCharacterLoop_exact tcb opts (S m) L (posAt c 0) (lastOf c)) in Hloop.
  - subst u. steps; reflexivity.
  - eapply Walk_Run; eassumption.
  - intros x Hx. pose proof (Walk_fuel tcb opts c Hvis Hpos _ _ _ Hw x Hx). lia.
  - lia.
  - pose proof (Walk_fuel tcb opts c Hvis Hpos _ _ _ Hw _ (or_introl eq_refl)).
    pose proof (filter_length_le shown L). lia.
Qed.

Lemma movePositionBy_available_witness :
  exists mr,
    movePositionBy false (posAt doubleSpaceDiv 0) CHARACTER 3 defaultCharacterOptions
                   defaultWordOptions = Ret mr
    /\ unitsMoved mr = 3%Z.
Proof.
  destruct (movePositionBy false (posAt doubleSpaceDiv 0) CHARACTER 3 defaultCharacterOptions
              defaultWordOptions) as [mr| |] eqn:H;
    [| vm_compute in H; discriminate | vm_compute in H; discriminate].
  exists mr. split; [reflexivity|].
  apply (movePositionBy_available false None doubleSpaceDiv (js "a b") 3 defaultWordOptions mr).
  - vm_compute. reflexivity.
  - vm_compute. reflexivity.
  - vm_compute. reflexivity.
  - simpl. lia.
  - exact H.
Defined.

(** ** What [selectCharacters] selects *)

Section Selected.

Variable tcb : bool.
Variable co : option CharacterOptions.
Variable c : Loc.
Hypothesis c_visible : isCollapsedNode tcb c = Ret false.
Hypothesis c_positions : containsPositions c = true.

(** The walk through the container spells its text. *)
Lemma text_walk_chars T :
  text tcb (selectNodeContents c) co = Ret T ->
  exists L, Walk tcb (createOptions co defaultCharacterOptions) c (posAt c 0) L (lastOf c)
    /\ T = concat (map character (filter shown L))
    /\ ((forall chars,
           getRangeCharacters tcb (selectNodeContents c) (createOptions co defaultCharacterOptions)
           = Ret chars ->
           endsWithLeadingSpace chars = false) ->
        forall L0 t, filter shown L = L0 ++ [t] -> isLeadingSpace t = false).
Proof.
  intros H. unfold text, collapsed in H.
  assert (Hcol : node_eqb (startContainer (selectNodeContents c))
                          (endContainer (selectNodeContents c))
                 && (startOffset (selectNodeContents c) =? endOffset (selectNodeContents c))
                 = (0 =? getNodeLength c)).
  { unfold selectNodeContents, node_eqb. simpl.
    destruct (list_eq_dec Nat.eq_dec (pathOf c) (pathOf c)); [reflexivity | congruence]. }
  rewrite Hcol in H.
  destruct (getNodeLength c) as [|len] eqn:Hlen.
  - exists []. split; [|split].
    + unfold lastOf. rewrite Hlen. constructor; [constructor | lia].
    + simpl in H. inv H. reflexivity.
    + intros _ L0 t E. destruct L0; discriminate.
  - replace (0 =? S len) with false in H by reflexivity.
    destruct (getRangeCharacters tcb (selectNodeContents c)
                (createOptions co defaultCharacterOptions)) as [chars| |] eqn:Hc;
      cbn [bind] in H; try discriminate.
    inv H.
    destruct (chars_walk tcb (createOptions co defaultCharacterOptions) c c_visible c_positions
                chars) as [L [Hw E]]; auto; [lia|].
    exists L. split; [assumption|]. split.
    + subst chars. reflexivity.
    + intros Hends L0 t E0. specialize (Hends _ eq_refl). subst chars.
      unfold endsWithLeadingSpace in Hends. rewrite E0, rev_app_distr in Hends. exact Hends.
Qed.

(** The range of [selectCharacters] lies on the walk through the
    container: its start after [i] characters, its end [j - i] further. *)
Lemma selectCharacters_walk (T : jsstring) (i j : Z) (r : Range) :
  text tcb (selectNodeContents c) co = Ret T ->
  (0 <= i)%Z -> (i <= j)%Z -> (j <= Z.of_nat (length T))%Z ->
  (j = Z.of_nat (length T) ->
   forall chars,
     getRangeCharacters tcb (selectNodeContents c) (createOptions co defaultCharacterOptions)
     = Ret chars ->
     endsWithLeadingSpace chars = false) ->
  selectCharacters tcb c i j co = Ret r ->
  exists L1 L3 L4 n1 o1 n2 o2,
    r = mkRange n1 o1 n2 o2
    /\ Walk tcb (createOptions co defaultCharacterOptions) c (posAt c 0) L1 (posAt n1 o1)
    /\ Walk tcb (createOptions co defaultCharacterOptions) c (posAt n1 o1) L3 (posAt n2 o2)
    /\ T = concat (map character (filter shown (L1 ++ L3 ++ L4)))
    /\ length (filter shown L1) = Z.to_nat i
    /\ length (filter shown L3) = Z.to_nat (j - i)
    /\ inside tcb c n1 /\ inside tcb c n2.
Proof.
  intros HT Hi Hij Hj Hlead Hsel.
  set (opts := createOptions co defaultCharacterOptions) in *.
  destruct (text_walk_chars T HT) as [L [Hw [ET Hlast]]]. fold opts in Hw, Hlast.
  assert (HN : length T = length (filter shown L)).
  { rewrite ET. apply shown_text_length. eapply Run_positions. eapply Walk_Run. eassumption. }
  unfold selectCharacters in Hsel.
  destruct (moveStart tcb (collapse (selectNodeContents c) true) CHARACTER i
              (Some (mkMoveOptions None co))) as [[u1 range1]| |] eqn:Hm1;
    cbn [bind] in Hsel; try discriminate.
  destruct (moveEnd tcb (collapse range1 true) CHARACTER (j - i)
              (Some (mkMoveOptions None co))) as [[u2 range2]| |] eqn:Hm2;
    cbn [bind] in Hsel; try discriminate.
  inversion Hsel as [Er0]. subst range2. clear Hsel.
  apply moveStart_inv in Hm1. destruct Hm1 as [mr1 [s1 [Hmove1 [Hs1 Hset1]]]].
  fold opts in Hmove1. cbn [snd] in Hset1.
  change (getRangeStartPosition (collapse (selectNodeContents c) true)) with (posAt c 0) in Hmove1.
  rewrite <- (Z2Nat.id i Hi) in Hmove1.
  assert (Hl : j = Z.of_nat (length T) ->
               forall L0 t, filter shown L = L0 ++ [t] -> isLeadingSpace t = false).
  { intros E. apply Hlast. apply Hlead. assumption. }
  assert (Hi' : Z.to_nat i <= length (filter shown L)) by lia.
  assert (Hl1 : Z.to_nat i = length (filter shown L) ->
                forall L0 t, filter shown L = L0 ++ [t] -> isLeadingSpace t = false)
    by (intros E; apply Hl; lia).
  destruct (move_walk tcb opts c c_visible c_positions (Z.to_nat i) L _ _ _ _ Hw Hi' Hl1 Hmove1)
    as [L1 [L2 [s1' [Hs1' [EL [Hw1 [Hw2 Hc1]]]]]]].
  rewrite Hs1 in Hs1'. inversion Hs1'; subst s1'. clear Hs1'.
  destruct (Walk_end _ _ _ _ _ _ Hw1) as [n1 [o1 [E1 [Hin1 Hle1]]]]. subst s1.
  cbn [posAt node offset] in Hset1.
  apply setStart_inv in Hset1. destruct Hset1 as [Hty1 [Hlen1 Hcol1]].
  rewrite Hcol1 in Hm2.
  apply moveEnd_inv in Hm2. destruct Hm2 as [mr2 [s2 [Hmove2 [Hs2 Hset2]]]].
  fold opts in Hmove2. cbn [snd] in Hset2.
  change (getRangeEndPosition (mkRange n1 o1 n1 o1)) with (posAt n1 o1) in Hmove2.
  rewrite <- (Z2Nat.id (j - i)) in Hmove2 by lia.
  subst L. rewrite filter_app, length_app in HN.
  assert (Hj' : Z.to_nat (j - i) <= length (filter shown L2)) by lia.
  assert (Hl2 : Z.to_nat (j - i) = length (filter shown L2) ->
                forall L0 t, filter shown L2 = L0 ++ [t] -> isLeadingSpace t = false).
  { intros E L0 t E0. apply (Hl ltac:(lia) (filter shown L1 ++ L0) t).
    rewrite filter_app, E0, app_assoc. reflexivity. }
  destruct (move_walk tcb opts c c_visible c_positions (Z.to_nat (j - i)) L2 _ _ _ _ Hw2 Hj' Hl2
              Hmove2) as [L3 [L4 [s2' [Hs2' [EL2 [Hw3 [Hw4 Hc2]]]]]]].
  rewrite Hs2 in Hs2'. inversion Hs2'; subst s2'. clear Hs2'.
  destruct (Walk_end _ _ _ _ _ _ Hw3) as [n2 [o2 [E2 [Hin2 Hle2]]]]. subst s2.
  cbn [posAt node offset] in Hset2.
  assert (Hord : (comparePoints n2 (NumberArg o2) n1 o1 =? -1)%Z = false).
  { destruct L3 as [|t3 L3].
    - apply Walk_nil_inv in Hw3. inversion Hw3; subst.
      apply Z.eqb_neq. intros E. apply comparePaths_before in E. exact (lexlt_irrefl _ E).
    - apply comparePoints_not_before.
      destruct (Walk_measure tcb opts c c_visible c_positions _ _ _ Hw3) as [_ Hc].
      apply Hc. discriminate. }
  apply setEnd_inv in Hset2; [|exact Hord]. destruct Hset2 as [Hty2 [Hlen2 Er]].
  cbn [startContainer startOffset] in Er.
  exists L1, L3, L4, n1, o1, n2, o2. subst L2.
  repeat split; assumption.
Qed.

End Selected.

Lemma skipn_firstn_middle {A} (a b rest : list A) :
  firstn (length b) (skipn (length a) (a ++ b ++ rest)) = b.
Proof.
  rewrite skipn_app, skipn_all, Nat.sub_diag. simpl.
  rewrite firstn_app, firstn_all, Nat.sub_diag. simpl. apply app_nil_r.
Qed.

Lemma inside_ancestor tcb (c n : Loc) : inside tcb c n -> In c (getAncestorsAndSelf n).
Proof.
  induction 1 as [|n p Hp Hin IH Hv Hc].
  - unfold getAncestorsAndSelf. apply in_or_app. right. left. reflexivity.
  - rewrite (getAncestorsAndSelf_child _ _ Hp). apply in_or_app. left. assumption.
Qed.

(** X8. For a container node that is not collapsed and contains positions,
    with text [T], and [0 <= i <= j <= |T|]: when
    [selectCharacters(container, i, j)] returns a range, the text of that
    range is the substring of [T] from [i] to [j], unless [j = |T|] and the
    last character of [T] is the line break in front of a block. *)
Theorem selected_text_is_substring tcb co (c : Loc) (T : jsstring) (i j : Z) (r : Range) :
  isCollapsedNode tcb c = Ret false ->
  containsPositions c = true ->
  text tcb (selectNodeContents c) co = Ret T ->
  (0 <= i)%Z -> (i <= j)%Z -> (j <= Z.of_nat (length T))%Z ->
  (j = Z.of_nat (length T) ->
   forall chars,
     getRangeCharacters tcb (selectNodeContents c) (createOptions co defaultCharacterOptions)
     = Ret chars ->
     endsWithLeadingSpace chars = false) ->
  selectCharacters tcb c i j co = Ret r ->
  text tcb r co = Ret (firstn (Z.to_nat (j - i)) (skipn (Z.to_nat i) T)).
Proof.
  intros Hvis Hpos HT Hi Hij Hj Hlead Hsel.
  destruct (selectCharacters_walk tcb co c Hvis Hpos T i j r HT Hi Hij Hj Hlead Hsel)
    as [L1 [L3 [L4 [n1 [o1 [n2 [o2 [Er [Hw1 [Hw3 [ET [Hc1 [Hc3 [Hin1 Hin2]]]]]]]]]]]]]].
  set (opts := createOptions co defaultCharacterOptions) in *.
  assert (Hs1 : Forall (fun t => length (character t) <= 1) L1)
    by (eapply Run_positions; eapply Walk_Run; exact Hw1).
  assert (Hs3 : Forall (fun t => length (character t) <= 1) L3)
    by (eapply Run_positions; eapply Walk_Run; exact Hw3).
  assert (Hsub : firstn (Z.to_nat (j - i)) (skipn (Z.to_nat i) T)
                 = concat (map character (filter shown L3))).
  { rewrite ET, !filter_app, !map_app, !concat_app.
    rewrite <- Hc1, <- Hc3, <- (shown_text_length L1 Hs1), <- (shown_text_length L3 Hs3).
    apply skipn_firstn_middle. }
  rewrite Hsub. subst r.
  destruct L3 as [|t3 L3].
  - apply Walk_nil_inv in Hw3. inversion Hw3; subst.
    unfold text, collapsed. cbn [startContainer startOffset endContainer endOffset].
    change (node_eqb n1 n1 && (o1 =? o1)) with (pos_equals (posAt n1 o1) (Some (posAt n1 o1))).
    rewrite pos_equals_refl. reflexivity.
  - apply text_fwd.
    + eapply Walk_Run. exact Hw3.
    + discriminate.
    + exact (Walk_unhit tcb opts c Hvis Hpos _ _ _ Hw3).
    + apply (Walk_first_unhit tcb opts c Hvis Hpos _ _ _ Hw3). discriminate.
    + exact (inside_visible tcb c Hvis n2 Hin2).
    + intros x Hx. pose proof (Walk_fuel tcb opts c Hvis Hpos _ _ _ Hw3 x Hx) as Hf. lia.
Qed.

Lemma selected_text_is_substring_witness :
  text false (selectNodeContents doubleSpaceDiv) None = Ret (js "a b")
  /\ selectCharacters false doubleSpaceDiv 1 3 None
     = Ret (mkRange doubleSpaceText 1 doubleSpaceText 4)
  /\ text false (mkRange doubleSpaceText 1 doubleSpaceText 4) None = Ret (js " b").
Proof.
  assert (Htext : text false (selectNodeContents doubleSpaceDiv) None = Ret (js "a b"))
    by (vm_compute; reflexivity).
  assert (Hsel : selectCharacters false doubleSpaceDiv 1 3 None
                 = Ret (mkRange doubleSpaceText 1 doubleSpaceText 4))
    by (vm_compute; reflexivity).
  split; [exact Htext|]. split; [exact Hsel|].
  apply (selected_text_is_substring false None doubleSpaceDiv (js "a b") 1%Z 3%Z _
           eq_refl eq_refl Htext).
  - lia.
  - lia.
  - simpl. lia.
  - intros _ chars H. vm_compute in H. inversion H. reflexivity.
  - exact Hsel.
Defined.

(** X9. Under the same conditions the range that [selectCharacters] returns
    lies in the container: the container is the start container or an
    ancestor of it, and the same for the end container. *)
Theorem selection_stays_in_container tcb co (c : Loc) (T : jsstring) (i j : Z) (r : Range) :
  isCollapsedNode tcb c = Ret false ->
  containsPositions c = true ->
  text tcb (selectNodeContents c) co = Ret T ->
  (0 <= i)%Z -> (i <= j)%Z -> (j <= Z.of_nat (length T))%Z ->
  (j = Z.of_nat (length T) ->
   forall chars,
     getRangeCharacters tcb (selectNodeContents c) (createOptions co defaultCharacterOptions)
     = Ret chars ->
     endsWithLeadingSpace chars = false) ->
  selectCharacters tcb c i j co = Ret r ->
  In c (getAncestorsAndSelf (startContainer r))
  /\ In c (getAncestorsAndSelf (endContainer r))
  /\ startOffset r <= getNodeLength (startContainer r)
  /\ endOffset r <= getNodeLength (endContainer r).
Proof.
  intros Hvis Hpos HT Hi Hij Hj Hlead Hsel.
  destruct (selectCharacters_walk tcb co c Hvis Hpos T i j r HT Hi Hij Hj Hlead Hsel)
    as [L1 [L3 [L4 [n1 [o1 [n2 [o2 [Er [Hw1 [Hw3 [ET [Hc1 [Hc3 [Hin1 Hin2]]]]]]]]]]]]]].
  subst r. cbn [startContainer endContainer startOffset endOffset].
  destruct (Walk_end _ _ _ _ _ _ Hw1) as [a [oa [Ea [_ Hla]]]].
  destruct (Walk_end _ _ _ _ _ _ Hw3) as [b [ob [Eb [_ Hlb]]]].
  inversion Ea; inversion Eb; subst.
  split; [eapply inside_ancestor; eassumption|].
  split; [eapply inside_ancestor; eassumption|]. split; assumption.
Qed.

Lemma selection_stays_in_container_witness :
  selectCharacters false doubleSpaceDiv 1 3 None
  = Ret (mkRange doubleSpaceText 1 doubleSpaceText 4)
  /\ In doubleSpaceDiv (getAncestorsAndSelf doubleSpaceText)
  /\ In doubleSpaceDiv (getAncestorsAndSelf doubleSpaceText)
  /\ 1 <= getNodeLength doubleSpaceText
  /\ 4 <= getNodeLength doubleSpaceText.
Proof.
  assert (Htext : text false (selectNodeContents doubleSpaceDiv) None = Ret (js "a b"))
    by (vm_compute; reflexivity).
  assert (Hsel : selectCharacters false doubleSpaceDiv 1 3 None
                 = Ret (mkRange doubleSpaceText 1 doubleSpaceText 4))
    by (vm_compute; reflexivity).
  split; [exact Hsel|].
  apply (selection_stays_in_container false None doubleSpaceDiv (js "a b") 1%Z 3%Z
           (mkRange doubleSpaceText 1 doubleSpaceText 4) eq_refl eq_refl Htext).
  - lia.
  - lia.
  - simpl. lia.
  - intros _ chars H. vm_compute in H. inversion H. reflexivity.
  - exact Hsel.
Defined.

(** ** A search that finds nothing *)

Lemma findTextTurn_false tcb range searchTerm findOptions backward initialPos st r' :
  findTextTurn tcb range searchTerm findOptions backward initialPos st = Ret (inl (false, r')) ->
  r' = range.
Proof.
  unfold findTextTurn. intros H. steps; reflexivity.
Qed.

Lemma findTextLoop_false tcb fuel : forall range searchTerm findOptions backward initialPos st r',
  findTextLoop tcb fuel range searchTerm findOptions backward initialPos st = Ret (false, r') ->
  r' = range.
Proof.
  induction fuel as [|fuel IH]; intros range searchTerm findOptions backward initialPos st r' H;
    [discriminate|].
  cbn [findTextLoop] in H.
  destruct (findTextTurn tcb range searchTerm findOptions backward initialPos st)
    as [[returned | st']| |] eqn:Hturn; cbn [bind] in H; try discriminate.
  - inv H. eapply findTextTurn_false. eassumption.
  - eapply IH. eassumption.
Qed.

(** X10. When [findText] returns false, the range is the one it was called
    on: no boundary has moved. *)
Theorem findText_failure_keeps_range tcb range searchTerm findOptions r' :
  findText tcb range searchTerm findOptions = Ret (false, r') -> r' = range.
Proof. unfold findText. apply findTextLoop_false. Qed.

Lemma findText_failure_keeps_range_witness :
  findText false afterCat (StringTerm (js "dog")) (Some (wrapping true)) = Ret (false, afterCat).
Proof.
  destruct (findText false afterCat (StringTerm (js "dog")) (Some (wrapping true)))
    as [[[|] r']| |] eqn:H; try (vm_compute in H; discriminate).
  rewrite (findText_failure_keeps_range false afterCat _ _ r' H). reflexivity.
Defined.

(** ** The tokens of the default tokenizer *)

(** No two tokens in a row are both no words. *)
Definition separated (l : list TokenRange) : Prop :=
  forall l1 a b l2, l = l1 ++ a :: b :: l2 -> snd a = true \/ snd b = true.

Lemma separated_nil : separated [].
Proof. intros l1 a b l2 E. destruct l1; discriminate. Qed.

Lemma separated_cons (x : TokenRange) (l : list TokenRange) :
  separated l ->
  (forall y l', l = y :: l' -> snd x = true \/ snd y = true) ->
  separated (x :: l).
Proof.
  intros Hl Hx l1 a b l2 E. destruct l1 as [|z l1]; simpl in E; inversion E; subst.
  - eapply Hx. reflexivity.
  - eapply Hl. reflexivity.
Qed.

Lemma separated_rev (l : list TokenRange) : separated l -> separated (rev l).
Proof.
  intros Hl l1 a b l2 E. apply (f_equal (@rev TokenRange)) in E.
  rewrite rev_involutive, rev_app_distr in E. simpl in E. rewrite <- !app_assoc in E. simpl in E.
  destruct (Hl _ _ _ _ E); auto.
Qed.

(** The loop leaves a word token in front. *)
Definition wordInFront (l : list TokenRange) : Prop :=
  match l with [] => True | t :: _ => snd t = true end.

Lemma tokenizeLoop_separated fuel : forall regex its chars word lastIndex lastWordEnd tokens
                                           tokens' lastWordEnd',
  tokenizeLoop fuel regex its chars word lastIndex lastWordEnd tokens = Ret (tokens', lastWordEnd') ->
  separated tokens -> wordInFront tokens ->
  separated tokens' /\ wordInFront tokens'.
Proof.
  induction fuel as [|fuel IH];
    intros regex its chars word lastIndex lastWordEnd tokens tokens' lastWordEnd' H Hs Hw;
    [discriminate|].
  cbn [tokenizeLoop] in H.
  destruct (exec regex word lastIndex) as [[[index len]|] lastIndex'].
  - apply IH in H; [assumption | | reflexivity].
    apply separated_cons.
    + destruct (lastWordEnd <? index); [|assumption].
      apply separated_cons; [assumption|].
      intros y l' E. subst tokens. right. exact Hw.
    + intros y l' E. left. reflexivity.
  - inv H. split; assumption.
Qed.

Lemma defaultTokenRanges_separated regex its chars ranges :
  defaultTokenRanges regex its chars = Ret ranges -> separated ranges.
Proof.
  unfold defaultTokenRanges. intros H.
  match type of H with bind ?c _ = _ => destruct c as [[tokens lastWordEnd]| |] eqn:Hloop end;
    cbn [bind] in H; try discriminate.
  inv H. apply separated_rev.
  destruct (tokenizeLoop_separated _ _ _ _ _ _ _ _ _ _ Hloop separated_nil I) as [Hs Hw].
  destruct (lastWordEnd <? length chars); [|assumption].
  apply separated_cons; [assumption|].
  intros y l' E. subst tokens. right. exact Hw.
Qed.

Lemma nth_error_pair {A} (l : list A) : forall k a b,
  nth_error l k = Some a -> nth_error l (S k) = Some b ->
  exists l1 l2, l = l1 ++ a :: b :: l2.
Proof.
  induction l as [|x l IH]; intros [|k] a b Ha Hb; simpl in *; try discriminate.
  - inv Ha. destruct l as [|y l]; simpl in Hb; [discriminate|]. inv Hb.
    exists [], l. reflexivity.
  - destruct (IH k a b Ha Hb) as [l1 [l2 E]]. exists (x :: l1), l2. rewrite E. reflexivity.
Qed.

(** X11. Whatever the word regular expression, the default tokenizer never
    creates two tokens in a row that are both no words: the token after a
    token that is no word is a word. *)
Theorem non_word_tokens_are_apart regex includeTrailingSpace chars ranges
        (k s e s' e' : nat) (w : bool) :
  defaultTokenRanges regex includeTrailingSpace chars = Ret ranges ->
  nth_error ranges k = Some (s, e, false) ->
  nth_error ranges (S k) = Some (s', e', w) ->
  w = true.
Proof.
  intros H Ha Hb.
  destruct (nth_error_pair _ _ _ _ Ha Hb) as [l1 [l2 E]].
  destruct (defaultTokenRanges_separated _ _ _ _ H _ _ _ _ E) as [Hx | Hx]; simpl in Hx;
    [discriminate | assumption].
Qed.

Lemma non_word_tokens_are_apart_witness :
  defaultTokenRanges defaultWordRegex false (charactersOf (js "ab, cd"))
  = Ret [(0, 2, true); (2, 4, false); (4, 6, true)]
  /\ snd (nth 2 [(0, 2, true); (2, 4, false); (4, 6, true)] (0, 0, false)) = true.
Proof.
  assert (H : defaultTokenRanges defaultWordRegex false (charactersOf (js "ab, cd"))
              = Ret [(0, 2, true); (2, 4, false); (4, 6, true)]) by (vm_compute; reflexivity).
  split; [exact H|].
  exact (non_word_tokens_are_apart defaultWordRegex false (charactersOf (js "ab, cd")) _
           1 2 4 4 6 true H eq_refl eq_refl).
Defined.

(** ** The characters of a text node *)

Lemma spacesMinusLineBreaks_spaces (s : jsstring) :
  spacesRegex s = false -> spacesMinusLineBreaksRegex s = false.
Proof.
  unfold spacesRegex, spacesMinusLineBreaksRegex, test_plus.
  destruct s as [|a s]; [reflexivity|].
  intros H. apply not_true_is_false. intros E. apply not_true_iff_false in H. apply H.
  rewrite forallb_forall in *. intros x Hx. specialize (E x Hx).
  unfold spacesMinusLineBreaksClass, spacesClass, inN in *. simpl in *.
  repeat (apply orb_prop in E; destruct E as [E | E]); rewrite E;
    repeat rewrite orb_true_r; reflexivity.
Qed.

(** X12. A character of a text node that is no white space is shown as it
    is, whatever the white-space style of the parent element. *)
Theorem visible_character_is_kept tcb (n p : Loc) (d : jsstring) (o : nat) (ch : jschar)
        (ws : string) (pre : option (list TextPosition)) (opts : CharacterOptions) :
  focus n = Text d ->
  parentNode n = Some p ->
  getComputedStyleProperty p whiteSpace = Ret ws ->
  0 < o ->
  nth_error d (o - 1) = Some ch ->
  spacesClass ch = false ->
  getCharacterAt tcb (posAt n o) pre opts
  = Ret (mkTextPosition [ch] (posAt n o) false false false false).
Proof.
  intros Hf Hp Hws Ho Hch Hsp.
  assert (Hs : spacesRegex [ch] = false).
  { unfold spacesRegex, test_plus. simpl. rewrite Hsp. reflexivity. }
  pose proof (spacesMinusLineBreaks_spaces _ Hs) as Hs'.
  unfold getCharacterAt, getPossibleCharacterAt. cbn [posAt offset node].
  replace (0 <? o) with true by (symmetry; apply Nat.ltb_lt; assumption).
  rewrite Hf. unfold getTextNodeProperties. rewrite Hp, Hws. cbn [bind].
  unfold charAt. rewrite Hch.
  destruct (String.eqb ws "pre-line"); cbn [bind nodeCollapseSpaces spaceRegex preLine character].
  - rewrite Hs'. cbn [bind character truthy]. rewrite Hs. reflexivity.
  - destruct (String.eqb ws "normal" || String.eqb ws "nowrap");
      cbn [bind nodeCollapseSpaces spaceRegex preLine character].
    + rewrite Hs. cbn [bind character truthy]. rewrite Hs. reflexivity.
    + cbn [truthy]. rewrite Hs. reflexivity.
Qed.

Lemma visible_character_is_kept_witness :
  getCharacterAt false (posAt doubleSpaceText 4) None defaultCharacterOptions
  = Ret (mkTextPosition [98%N] (posAt doubleSpaceText 4) false false false false).
Proof.
  apply (visible_character_is_kept false doubleSpaceText doubleSpaceDiv (js "a  b") 4 98%N
           "normal"); try (vm_compute; reflexivity). lia.
Defined.

(** X13. In a text node whose parent has [white-space: normal] or
    [nowrap], a white-space character that follows another one is never
    shown: [getCharacterAt] gives the empty character for it. *)
Theorem second_space_is_collapsed tcb (n p : Loc) (d : jsstring) (o : nat) (ws : string)
        (pre : option (list TextPosition)) (opts : CharacterOptions) :
  focus n = Text d ->
  parentNode n = Some p ->
  getComputedStyleProperty p whiteSpace = Ret ws ->
  String.eqb ws "normal" || String.eqb ws "nowrap" = true ->
  1 < o ->
  spacesRegex (charAt d (o - 1)) = true ->
  spacesRegex (charAt d (o - 2)) = true ->
  getCharacterAt tcb (posAt n o) pre opts
  = Ret (mkTextPosition [] (posAt n o) false false false true).
Proof.
  intros Hf Hp Hws Hn Ho Hs1 Hs2.
  unfold getCharacterAt, getPossibleCharacterAt. cbn [posAt offset node].
  replace (0 <? o) with true by (symmetry; apply Nat.ltb_lt; lia).
  rewrite Hf. unfold getTextNodeProperties. rewrite Hp, Hws. cbn [bind].
  destruct (String.eqb ws "pre-line") eqn:Hpl.
  { apply String.eqb_eq in Hpl. subst ws. discriminate. }
  rewrite Hn. cbn [bind nodeCollapseSpaces spaceRegex preLine].
  rewrite Hs1, Hs2.
  replace (1 <? o) with true by (symmetry; apply Nat.ltb_lt; assumption).
  reflexivity.
Qed.

Lemma second_space_is_collapsed_witness :
  getCharacterAt false (posAt doubleSpaceText 3) None defaultCharacterOptions
  = Ret (mkTextPosition [] (posAt doubleSpaceText 3) false false false true).
Proof.
  apply (second_space_is_collapsed false doubleSpaceText doubleSpaceDiv (js "a  b") 3 "normal");
    try (vm_compute; reflexivity). lia.
Defined.

(** ** Every loop ends *)

(** A call that comes to an end: with a value or an exception. *)
Definition ends {A} (c : result A) : Prop := c <> OutOfFuel.

Lemma ends_bind {A B} (c : result A) (k : A -> result B) :
  ends c -> (forall a, c = Ret a -> ends (k a)) -> ends (bind c k).
Proof.
  unfold ends. destruct c; simpl; intros Hc Hk; [apply Hk; reflexivity | discriminate | congruence].
Qed.

Lemma ends_Ret {A} (a : A) : ends (Ret a).
Proof. discriminate. Qed.

Lemma ends_Throw {A} (e : JsError) : ends (@Throw A e).
Proof. discriminate. Qed.

(** Case analysis down to the calls of a body. *)
Ltac ends_step :=
  match goal with
  | |- ends (Ret _) => apply ends_Ret
  | |- ends (Throw _) => apply ends_Throw
  | |- ends (bind _ _) => apply ends_bind; [|intros ? ?]
  | |- ends (match ?x with _ => _ end) => destruct x eqn:?
  | |- ends (let '(_, _) := ?x in _) => destruct x eqn:?
  end.

(** *** The node scans of [isCollapsedWhitespaceNode] *)

Lemma rank_start (n : Loc) : rank n 0 = startRank (context n).
Proof. unfold rank. destruct (focus n); simpl; lia. Qed.

Lemma documentOf_child (n ch : Loc) (i : nat) :
  childNode n i = Some ch -> documentOf ch = documentOf n.
Proof.
  intros H. destruct (parentNode_childNode _ _ _ H) as [Hp _].
  symmetry. apply documentOf_parent. assumption.
Qed.

Lemma startRank_cons (f : Frame) (ctx : list Frame) :
  startRank (f :: ctx) = frameWeight f + startRank ctx.
Proof. reflexivity. Qed.

(** Where [lastDescendant] ends: in the subtree it starts from. *)
Definition within (l : Loc) (foc : Node) (ctx : list Frame) : Prop :=
  startRank ctx <= startRank (context l)
  /\ startRank (context l) < startRank ctx + positionCount foc
  /\ documentOf l = rootNode foc ctx.

Lemma lastDescendant_within : forall foc ctx, within (lastDescendant foc ctx) foc ctx.
Proof.
  fix IH 1. intros foc ctx.
  assert (Hself : within (mkLoc foc ctx) foc ctx).
  { unfold within, documentOf. simpl. destruct foc; simpl; repeat split; lia. }
  destruct foc as [sh cs|d|d|t d|nm]; try exact Hself.
  cbn [lastDescendant].
  match goal with
  | |- within (?g [] cs) _ _ =>
      assert (Hgo : forall rest before, rev before ++ rest = cs ->
                within (g before rest) (Inner sh cs) ctx)
  end.
  { induction rest as [|x r IHr]; intros before E; [exact Hself|].
    destruct r as [|y r].
    - specialize (IH x (mkFrame before sh [] :: ctx)).
      destruct IH as [H1 [H2 H3]]. unfold within. rewrite H3.
      rewrite startRank_cons in H1, H2. unfold frameWeight in H1, H2.
      cbn [lefts shell rights rootNode] in *.
      rewrite <- E. cbn [positionCount].
      rewrite length_app, map_app, list_sum_app, length_rev, map_rev, list_sum_rev.
      simpl. repeat split; lia.
    - apply IHr. simpl. rewrite <- app_assoc. exact E. }
  apply Hgo. reflexivity.
Qed.

Lemma previousNode_rank (n m : Loc) :
  previousNode n = Some m -> rank m 0 < rank n 0 /\ documentOf m = documentOf n.
Proof.
  unfold previousNode, previousSibling, parentNode. rewrite !rank_start.
  destruct n as [foc [|[ls sh rs] up]]; cbn [context focus lefts shell rights]; [discriminate|].
  destruct ls as [|x l].
  - destruct (nodeType _ =? 1); [|discriminate]. intros H; inv H.
    cbn [context]. rewrite startRank_cons. unfold frameWeight, documentOf. simpl. split; [lia | reflexivity].
  - intros H; inv H. cbn [focus context].
    destruct (lastDescendant_within x (mkFrame l sh (foc :: rs) :: up)) as [_ [H2 H3]].
    rewrite H3. rewrite !startRank_cons in *. unfold frameWeight in *. unfold documentOf.
    cbn [lefts shell rights rootNode focus context map list_sum length] in *.
    cbn [rev]. rewrite <- app_assoc. simpl. split; [lia | reflexivity].
Qed.

Lemma nextNodeDescendantsUp_rank : forall ctx foc x,
  nextNodeDescendantsUp foc ctx = Some x ->
  startRank ctx + positionCount foc <= startRank (context x)
  /\ documentOf x = rootNode foc ctx.
Proof.
  induction ctx as [|[ls sh rs] up IH]; intros foc x; [discriminate|].
  cbn [nextNodeDescendantsUp lefts shell rights]. destruct rs as [|y r].
  - intros H. apply IH in H. destruct H as [H1 H2]. rewrite H2.
    rewrite startRank_cons. unfold frameWeight. cbn [lefts rootNode shell rights positionCount] in *.
    rewrite length_app, map_app, list_sum_app, length_rev, map_rev, list_sum_rev in H1.
    simpl in H1. split; [lia | reflexivity].
  - intros H; inv H. unfold documentOf. cbn [context focus].
    rewrite !startRank_cons. unfold frameWeight.
    cbn [lefts shell rights rootNode map list_sum length rev].
    rewrite <- app_assoc. simpl. split; [lia | reflexivity].
Qed.

Lemma positionCount_pos (x : Node) : 0 < positionCount x.
Proof. destruct x; simpl; lia. Qed.

Lemma nextNode_rank (n m : Loc) :
  nextNode n false = Some m -> rank n 0 < rank m 0 /\ documentOf m = documentOf n.
Proof.
  unfold nextNode. cbn [negb andb]. destruct (hasChildNodes n).
  - unfold firstChild. intros H. destruct (rank_down _ _ _ H) as [E _].
    split; [lia | eapply documentOf_child; eassumption].
  - unfold nextNodeDescendants. intros H. apply nextNodeDescendantsUp_rank in H.
    rewrite !rank_start. pose proof (positionCount_pos (focus n)).
    destruct H as [H1 H2]. split; [lia | exact H2].
Qed.

Lemma scanBefore_ends (tcb : bool) (ancestor : Loc) : forall fuel reference,
  rank reference 0 < fuel -> ends (scanBefore tcb fuel ancestor reference).
Proof.
  induction fuel as [|fuel IH]; intros reference H; [lia|].
  cbn [scanBefore]. destruct (node_eqb reference ancestor); [apply ends_Ret|].
  destruct (isBlockNode tcb (previousNode reference) || isHtmlElement (previousNode reference) "br");
    [apply ends_Ret|].
  destruct (previousNode reference) as [r|] eqn:E; [|apply ends_Throw].
  destruct (_ || _); [apply ends_Ret|].
  apply IH. apply previousNode_rank in E. lia.
Qed.

Lemma scanAfter_ends (tcb : bool) (stop : option Loc) : forall fuel reference,
  match reference with
  | Some r => positionCount (documentOf r) < fuel + rank r 0
  | None => 1 <= fuel
  end -> ends (scanAfter tcb fuel stop reference).
Proof.
  induction fuel as [|fuel IH]; intros reference H.
  - destruct reference as [r|]; [|lia].
    pose proof (rank_bound r 0 (Nat.le_0_l _)). lia.
  - cbn [scanAfter]. destruct (optnode_eqb reference stop); [apply ends_Ret|].
    destruct reference as [r|]; [|apply ends_Throw].
    destruct (isBlockNode tcb (nextNode r false) || isHtmlElement (nextNode r false) "br");
      [apply ends_Ret|].
    destruct (_ || _); [apply ends_Ret|].
    apply IH. pose proof (rank_bound r 0 (Nat.le_0_l _)).
    destruct (nextNode r false) as [r'|] eqn:E; [|lia].
    apply nextNode_rank in E. destruct E as [E1 E2]. rewrite E2. lia.
Qed.

Lemma isCollapsedNode_ends (tcb : bool) (n : Loc) : ends (isCollapsedNode tcb n).
Proof.
  pose proof (rank_bound n 0 (Nat.le_0_l _)) as Hb.
  unfold isCollapsedNode, isVisibilityHiddenTextNode, getComputedStyleProperty,
    isCollapsedWhitespaceNode.
  repeat ends_step;
    solve [ apply scanBefore_ends; unfold walkFuel; lia
          | apply scanAfter_ends; unfold walkFuel; lia ].
Qed.

(** *** The character at a position *)

Lemma hasInnerTextAt_ends (tcb : bool) : forall foc ctx, ends (hasInnerTextAt tcb foc ctx).
Proof.
  fix IH 1. intros foc ctx.
  destruct foc as [sh cs|d|d|t d|nm]; cbn [hasInnerTextAt];
    (apply ends_bind; [apply isCollapsedNode_ends | intros collapsed _]);
    destruct collapsed; try apply ends_Ret.
  match goal with
  | |- ends (?g [] cs) => assert (Hgo : forall rest before, ends (g before rest))
  end.
  { induction rest as [|x r IHr]; intros before; [apply ends_Ret|].
    apply ends_bind; [apply IH | intros h _]. destruct h; [apply ends_Ret | apply IHr]. }
  apply Hgo.
Qed.

Lemma getTrailingSpaceAt_ends (tcb : bool) : forall foc ctx, ends (getTrailingSpaceAt tcb foc ctx).
Proof.
  fix IH 1. intros foc ctx.
  assert (Hlast : forall el, ends (h <- hasInnerText tcb el ;; Ret (if h then newline else []))).
  { intros el. apply ends_bind; [apply hasInnerTextAt_ends | intros; apply ends_Ret]. }
  destruct foc as [sh cs|d|d|t d|nm]; cbn [getTrailingSpaceAt];
    repeat (match goal with
            | |- ends (?g ?a [] cs) => fail 1
            | |- ends (h <- hasInnerText _ _ ;; _) => apply Hlast
            | _ => ends_step
            end).
  match goal with
  | |- ends (?g ?a [] cs) =>
      assert (Hgo : forall rest answer before, ends (answer tt) -> ends (g answer before rest))
  end.
  { induction rest as [|x r IHr]; intros answer before Ha; [exact Ha|].
    destruct (negb (isIgnoredNode tcb
                 {| focus := x;
                    context := {| lefts := before; shell := sh; rights := r |} :: ctx |})).
    - apply IHr. destruct (_ =? 1); [apply IH | apply ends_Ret].
    - apply IHr. exact Ha. }
  apply Hgo. apply ends_Ret.
Qed.

Lemma getLeadingSpace_ends (tcb : bool) (el : Loc) : ends (getLeadingSpace tcb el).
Proof.
  unfold getLeadingSpace. destruct (test_oneOf _ _); [apply ends_Ret|].
  apply ends_bind; [apply hasInnerTextAt_ends | intros; apply ends_Ret].
Qed.

Lemma getPossibleCharacterAt_ends (tcb : bool) (p : DomPosition) (o : option CharacterOptions) :
  ends (getPossibleCharacterAt tcb p o).
Proof.
  unfold getPossibleCharacterAt, getTextNodeProperties, getComputedStyleProperty.
  repeat (match goal with
          | |- ends (isCollapsedNode _ _) => apply isCollapsedNode_ends
          | |- ends (getTrailingSpace _ _) => apply getTrailingSpaceAt_ends
          | |- ends (getLeadingSpace _ _) => apply getLeadingSpace_ends
          | _ => ends_step
          end).
Qed.

Lemma nextVisiblePosition_ends (tcb : bool) (p : DomPosition) :
  ends (nextVisiblePosition tcb p).
Proof.
  unfold nextVisiblePosition, nextPosition, isCollapsedNodeOf.
  repeat (match goal with
          | |- ends (isCollapsedNode _ _) => apply isCollapsedNode_ends
          | _ => ends_step
          end).
Qed.

Lemma previousVisiblePosition_ends (tcb : bool) (p : option DomPosition) :
  ends (previousVisiblePosition tcb p).
Proof.
  unfold previousVisiblePosition, previousPosition, isCollapsedNodeOf.
  repeat (match goal with
          | |- ends (isCollapsedNode _ _) => apply isCollapsedNode_ends
          | _ => ends_step
          end).
Qed.

(** *** The walks over positions *)

(** A position whose offset lies in its node; the positions a walk has
    ahead of it, and behind it. *)
Definition inNode (p : DomPosition) : Prop :=
  match node p with Some n => offset p <= getNodeLength n | None => True end.

Definition ahead (p : DomPosition) : nat :=
  match node p with
  | Some n => S (positionCount (documentOf n) - rank n (offset p))
  | None => 1
  end.

Definition behind (p : DomPosition) : nat :=
  match node p with
  | Some n => rank n (offset p) + 2
  | None => 1
  end.

Lemma ahead_pos (p : DomPosition) : 1 <= ahead p.
Proof. unfold ahead. destruct (node p); lia. Qed.

Lemma behind_pos (p : DomPosition) : 1 <= behind p.
Proof. unfold behind. destruct (node p); lia. Qed.

Lemma ahead_fuel (p : DomPosition) : S (ahead p) <= posFuel p.
Proof. unfold ahead, posFuel, walkFuel. destruct (node p); lia. Qed.

Lemma behind_fuel (p : DomPosition) : inNode p -> S (behind p) <= posFuel p.
Proof.
  unfold inNode, behind, posFuel, walkFuel. destruct (node p) as [n|]; [|lia].
  intros H. pose proof (rank_bound n _ H). lia.
Qed.

Lemma nextVisiblePosition_ahead (tcb : bool) (p q : DomPosition) :
  inNode p -> nextVisiblePosition tcb p = Ret (Some q) -> inNode q /\ ahead q < ahead p.
Proof.
  destruct p as [[n|] o]; unfold inNode at 1; cbn [node offset].
  - intros Hle H. pose proof (rank_bound n o Hle) as Hb.
    destruct q as [[n'|] o'].
    + destruct (nextVisiblePosition_step tcb n o n' o' Hle H) as [H1 [_ [H3 H4]]].
      pose proof (rank_bound n' o' H1) as Hb'.
      unfold inNode, ahead. cbn [node offset]. rewrite H4 in *. split; [exact H1 | lia].
    + unfold inNode, ahead. cbn [node offset]. split; [exact I | lia].
  - intros _ H. discriminate.
Qed.

Lemma previousVisiblePosition_behind (tcb : bool) (p q : DomPosition) :
  inNode p -> previousVisiblePosition tcb (Some p) = Ret (Some q) -> inNode q /\ behind q < behind p.
Proof.
  destruct p as [[n|] o]; unfold inNode at 1; cbn [node offset].
  - intros Hle H. destruct q as [[n'|] o'].
    + destruct (previousVisiblePosition_step tcb n o n' o' Hle H) as [H1 [_ [H3 H4]]].
      unfold inNode, behind. cbn [node offset]. split; [exact H1 | lia].
    + unfold inNode, behind. cbn [node offset]. split; [exact I | lia].
  - intros _ H. discriminate.
Qed.

Lemma getNextPossibleCharacterLoop_ends (tcb : bool) : forall fuel p,
  inNode p -> ahead p <= fuel -> ends (getNextPossibleCharacterLoop tcb fuel p).
Proof.
  induction fuel as [|fuel IH]; intros p Hv Hf; [pose proof (ahead_pos p); lia|].
  cbn [getNextPossibleCharacterLoop].
  apply ends_bind; [apply nextVisiblePosition_ends | intros [q|] Hq; [|apply ends_Ret]].
  apply ends_bind; [apply getPossibleCharacterAt_ends | intros next _].
  destruct (truthy (character next)); [apply ends_Ret|].
  destruct (nextVisiblePosition_ahead _ _ _ Hv Hq). apply IH; [assumption | lia].
Qed.

Lemma precedingCharsLoop_ends (tcb : bool) : forall fuel p chars,
  inNode p -> behind p <= fuel -> ends (precedingCharsLoop tcb fuel p chars).
Proof.
  induction fuel as [|fuel IH]; intros p chars Hv Hf; [pose proof (behind_pos p); lia|].
  cbn [precedingCharsLoop].
  apply ends_bind; [apply previousVisiblePosition_ends | intros [q|] Hq; [|apply ends_Ret]].
  apply ends_bind; [apply getPossibleCharacterAt_ends | intros previous _].
  destruct (previousVisiblePosition_behind _ _ _ Hv Hq).
  destruct (truthy (character previous)); [destruct (_ && _); [apply ends_Ret|]|];
    (apply IH; [assumption | lia]).
Qed.

Lemma getNextPossibleCharacter_ends (tcb : bool) (p : DomPosition) :
  inNode p -> ends (getNextPossibleCharacter tcb p).
Proof.
  intros Hv. apply getNextPossibleCharacterLoop_ends; [assumption|].
  pose proof (ahead_fuel p). lia.
Qed.

Lemma getCharacterAt_ends (tcb : bool) (p : DomPosition) (pre : option (list TextPosition))
      (opts : CharacterOptions) :
  inNode p -> ends (getCharacterAt tcb p pre opts).
Proof.
  intros Hv. unfold getCharacterAt.
  apply ends_bind; [apply getPossibleCharacterAt_ends | intros possible _].
  destruct (_ && _); [|apply ends_Ret].
  apply ends_bind.
  { destruct pre; [apply ends_Ret|]. apply precedingCharsLoop_ends; [assumption|].
    pose proof (behind_fuel p Hv). lia. }
  intros chars _.
  repeat (match goal with
          | |- ends (getNextPossibleCharacter _ _) => apply getNextPossibleCharacter_ends; assumption
          | _ => ends_step
          end).
Qed.

(** *** The iterator and the loops over it *)

Definition itValid (it : CharacterIterator) : Prop :=
  match pos it with Some p => inNode p | None => True end.

(** A bound on the steps an iterator still takes, and on the calls of
    [next] that still return a character. *)
Definition togo (it : CharacterIterator) : nat :=
  if finished it then 1
  else match pos it with
       | Some p => S (if backward it then behind p else ahead p)
       | None => 1
       end.

Definition weight (it : CharacterIterator) : nat :=
  togo it + (if returnPreviousTextPos it then 1 else 0).

Lemma togo_pos (it : CharacterIterator) : 1 <= togo it.
Proof. unfold togo. destruct (finished it), (pos it); lia. Qed.

Lemma togo_fuel (it : CharacterIterator) : itValid it -> togo it <= iteratorFuel it.
Proof.
  unfold itValid, togo, iteratorFuel. destruct (pos it) as [p|]; [|destruct (finished it); lia].
  intros Hv. pose proof (ahead_fuel p). pose proof (behind_fuel p Hv).
  destruct (finished it), (backward it); lia.
Qed.

Lemma iteratorStep_ends (tcb : bool) (it : CharacterIterator) :
  itValid it -> ends (iteratorStep tcb it).
Proof.
  unfold itValid, iteratorStep. intros Hv.
  destruct (finished it); [apply ends_Ret|].
  destruct (backward it); cbn [negb].
  - apply ends_bind; [apply ends_Ret | intros pos1 E; inv E].
    apply ends_bind.
    + destruct (pos it) as [p|]; [|apply ends_Ret].
      apply ends_bind; [apply getCharacterAt_ends; assumption | intros; apply ends_Ret].
    + intros [textPos finished1] _.
      apply ends_bind; [apply previousVisiblePosition_ends | intros; apply ends_Ret].
  - apply ends_bind; [destruct (pos it); [apply nextVisiblePosition_ends | apply ends_Throw]|].
    intros pos1 E. destruct (pos it) as [p|]; [|discriminate].
    apply ends_bind.
    + destruct pos1 as [q|]; [|apply ends_Ret].
      destruct (nextVisiblePosition_ahead _ _ _ Hv E).
      apply ends_bind; [apply getCharacterAt_ends; assumption | intros; apply ends_Ret].
    + intros [textPos finished1] _. apply ends_bind; [apply ends_Ret | intros; apply ends_Ret].
Qed.

(** One step of the iterator: it stays in the document and, when it
    gives a character, has fewer steps to go. *)
Definition progress (measure : CharacterIterator -> nat) (it : CharacterIterator)
           (r : option TextPosition * CharacterIterator) : Prop :=
  itValid (snd r) /\ (fst r = None \/ measure (snd r) < measure it).

Lemma iteratorStep_progress (tcb : bool) (it : CharacterIterator) r :
  itValid it -> iteratorStep tcb it = Ret r ->
  progress togo it r /\ returnPreviousTextPos (snd r) = returnPreviousTextPos it.
Proof.
  unfold iteratorStep, progress. intros Hv H.
  destruct (finished it) eqn:Hf; [inv H; simpl; auto|].
  unfold itValid, togo in *. rewrite Hf.
  destruct (backward it) eqn:Hb; cbn [negb bind] in H.
  - destruct (pos it) as [p|] eqn:Hp.
    + unbind H. destruct a as [textPos finished1]. unbind Hc. inv Hc.
      unbind H. inv H. cbn [snd fst pos finished backward returnPreviousTextPos].
      match goal with
      | E : previousVisiblePosition _ _ = Ret ?x |- _ =>
          destruct x as [q|];
          [destruct (previousVisiblePosition_behind _ _ _ Hv E) as [Hq Hlt]; pose proof (behind_pos q)|]
      end.
      * split; [|reflexivity]. split; [exact Hq|].
        right. destruct (match endPos it with Some _ => _ | None => _ end); lia.
      * pose proof (behind_pos p). split; [|reflexivity]. split; [exact I|].
        right. destruct (match endPos it with Some _ => _ | None => _ end); lia.
    + cbn [bind] in H. unbind H. inv H. inv Hc. simpl. auto.
  - destruct (pos it) as [p|] eqn:Hp; [|discriminate].
    unbind H. destruct a as [q|].
    + destruct (nextVisiblePosition_ahead _ _ _ Hv Hc) as [Hq Hlt].
      unbind H. destruct a as [textPos finished1]. unbind Hc0. inv Hc0.
      cbn [bind] in H. inv H. cbn [snd fst pos finished backward returnPreviousTextPos].
      pose proof (ahead_pos q). split; [|reflexivity]. split; [exact Hq|].
      right. destruct (match endPos it with Some _ => _ | None => _ end); lia.
    + cbn [bind] in H. inv H. simpl. auto.
Qed.

Lemma iteratorNextLoop_ends (tcb : bool) : forall fuel it,
  itValid it -> togo it <= fuel -> ends (iteratorNextLoop tcb fuel it).
Proof.
  induction fuel as [|fuel IH]; intros it Hv Hf; [pose proof (togo_pos it); lia|].
  cbn [iteratorNextLoop].
  apply ends_bind; [apply iteratorStep_ends; assumption | intros [textPos it1] E].
  destruct (iteratorStep_progress _ _ _ Hv E) as [[Hv1 Hp] _]. cbn [fst snd] in *.
  destruct textPos as [t|]; [|apply ends_Ret].
  destruct (truthy (character t)); [apply ends_Ret|].
  destruct Hp as [Hp|Hp]; [discriminate|]. apply IH; [assumption | lia].
Qed.

Lemma iteratorNextLoop_progress (tcb : bool) : forall fuel it r,
  itValid it -> iteratorNextLoop tcb fuel it = Ret r ->
  progress togo it r /\ returnPreviousTextPos (snd r) = returnPreviousTextPos it.
Proof.
  induction fuel as [|fuel IH]; intros it r Hv H; [discriminate|].
  cbn [iteratorNextLoop] in H. unbind H. destruct a as [textPos it1].
  destruct (iteratorStep_progress _ _ _ Hv Hc) as [[Hv1 Hp] Hr]. cbn [fst snd] in *.
  destruct textPos as [t|].
  - destruct Hp as [Hp|Hp]; [discriminate|]. destruct (truthy (character t)).
    + inv H. unfold progress, itValid, togo in *. simpl. repeat split; auto.
    + destruct (IH _ _ Hv1 H) as [[Hv2 Hp2] Hr2]. unfold progress.
      repeat split; [assumption | destruct Hp2; [left; assumption | right; lia] | congruence].
  - inv H. unfold progress. simpl. auto.
Qed.

Lemma iteratorNext_ends (tcb : bool) (it : CharacterIterator) :
  itValid it -> ends (iteratorNext tcb it).
Proof.
  intros Hv. unfold iteratorNext. destruct (returnPreviousTextPos it); [apply ends_Ret|].
  apply iteratorNextLoop_ends; [assumption | apply togo_fuel; assumption].
Qed.

Lemma iteratorNext_progress (tcb : bool) (it : CharacterIterator) r :
  itValid it -> iteratorNext tcb it = Ret r -> progress weight it r.
Proof.
  unfold iteratorNext. intros Hv H.
  destruct (returnPreviousTextPos it) eqn:Hr.
  - inv H. unfold progress, weight, itValid, togo in *. rewrite Hr. simpl.
    split; [assumption | right; lia].
  - destruct (iteratorNextLoop_progress _ _ _ _ Hv H) as [[Hv1 Hp] Hr1].
    unfold progress, weight. rewrite Hr1, Hr.
    split; [assumption | destruct Hp; [left; assumption | right; lia]].
Qed.

Lemma weight_pos (it : CharacterIterator) : 1 <= weight it.
Proof. unfold weight. pose proof (togo_pos it). lia. Qed.

Lemma collectCharacters_ends (tcb : bool) : forall fuel it chars,
  itValid it -> weight it <= fuel -> ends (collectCharacters tcb fuel it chars).
Proof.
  induction fuel as [|fuel IH]; intros it chars Hv Hf; [pose proof (weight_pos it); lia|].
  cbn [collectCharacters].
  apply ends_bind; [apply iteratorNext_ends; assumption | intros [textPos it1] E].
  destruct (iteratorNext_progress _ _ _ Hv E) as [Hv1 Hp]. cbn [fst snd] in *.
  destruct textPos as [t|]; [|apply ends_Ret].
  destruct Hp as [Hp|Hp]; [discriminate|]. apply IH; [assumption | lia].
Qed.

Lemma moveCharacterLoop_ends (tcb : bool) : forall fuel it absCount unitsMoved newTextPos,
  itValid it -> weight it <= fuel ->
  ends (moveCharacterLoop tcb fuel it absCount unitsMoved newTextPos).
Proof.
  induction fuel as [|fuel IH]; intros it absCount unitsMoved newTextPos Hv Hf;
    [pose proof (weight_pos it); lia|].
  cbn [moveCharacterLoop].
  apply ends_bind; [apply iteratorNext_ends; assumption | intros [textPos it1] E].
  destruct (iteratorNext_progress _ _ _ Hv E) as [Hv1 Hp]. cbn [fst snd] in *.
  destruct textPos as [t|]; [|apply ends_Ret].
  destruct (unitsMoved <? absCount); [|apply ends_Ret].
  destruct Hp as [Hp|Hp]; [discriminate|]. apply IH; [assumption | lia].
Qed.

Lemma trimCount_ends (tcb : bool) : forall fuel it k,
  itValid it -> weight it <= fuel -> ends (trimCount tcb fuel it k).
Proof.
  induction fuel as [|fuel IH]; intros it k Hv Hf; [pose proof (weight_pos it); lia|].
  cbn [trimCount].
  apply ends_bind; [apply iteratorNext_ends; assumption | intros [textPos it1] E].
  destruct (iteratorNext_progress _ _ _ Hv E) as [Hv1 Hp]. cbn [fst snd] in *.
  destruct textPos as [t|]; [|apply ends_Ret].
  destruct (allWhiteSpaceRegex (character t)); [|apply ends_Ret].
  destruct Hp as [Hp|Hp]; [discriminate|]. apply IH; [assumption | lia].
Qed.

(** A new iterator is as far from its end as its start position. *)
Lemma createCharacterIterator_new (tcb : bool) (startPos : DomPosition) (back : bool)
      (e : option DomPosition) (opts : CharacterOptions) (it : CharacterIterator) :
  inNode startPos -> createCharacterIterator tcb startPos back e opts = Ret it ->
  itValid it /\ weight it <= iteratorFuel it /\ iteratorFuel it = posFuel startPos.
Proof.
  unfold createCharacterIterator. intros Hv H. unbind H. inv H.
  assert (Hi : itValid (mkIterator back a opts (Some startPos) false None false)) by exact Hv.
  split; [exact Hi|]. split; [|reflexivity].
  pose proof (togo_fuel _ Hi) as Ht. unfold weight. cbn [returnPreviousTextPos]. lia.
Qed.

Lemma createCharacterIterator_ends (tcb : bool) (startPos : DomPosition) (back : bool)
      (e : option DomPosition) (opts : CharacterOptions) :
  ends (createCharacterIterator tcb startPos back e opts).
Proof.
  unfold createCharacterIterator, isCollapsedNodeOf.
  repeat (match goal with
          | |- ends (isCollapsedNode _ _) => apply isCollapsedNode_ends
          | |- ends (nextVisiblePosition _ _) => apply nextVisiblePosition_ends
          | |- ends (previousVisiblePosition _ _) => apply previousVisiblePosition_ends
          | _ => ends_step
          end).
Qed.

Lemma getRangeCharacters_ends (tcb : bool) (range : Range) (opts : CharacterOptions) :
  startOffset range <= getNodeLength (startContainer range) ->
  ends (getRangeCharacters tcb range opts).
Proof.
  intros Hv. unfold getRangeCharacters, createRangeCharacterIterator.
  apply ends_bind; [apply createCharacterIterator_ends | intros it E].
  apply createCharacterIterator_new in E; [|exact Hv].
  destruct E as [Hi [Hw _]]. apply collectCharacters_ends; [assumption | lia].
Qed.

Lemma movePositionBy_character_ends (tcb : bool) (p : DomPosition) (count : Z)
      (co : CharacterOptions) (wo : WordOptions) :
  inNode p -> ends (movePositionBy tcb p CHARACTER count co wo).
Proof.
  intros Hv. unfold movePositionBy. destruct (negb (count =? 0)%Z); [|apply ends_Ret].
  change (String.eqb CHARACTER CHARACTER) with true. cbn iota.
  change (String.eqb CHARACTER WORD) with false. cbn iota.
  apply ends_bind.
  - apply ends_bind; [apply createCharacterIterator_ends | intros it E].
    apply createCharacterIterator_new in E; [|exact Hv].
    destruct E as [Hi [Hw Hf]]. apply moveCharacterLoop_ends; [assumption | lia].
  - intros [[unitsMoved newTextPos] nextTextPos] _.
    repeat (match goal with
            | |- ends (previousVisiblePosition _ _) => apply previousVisiblePosition_ends
            | _ => ends_step
            end).
Qed.

Lemma setStart_valid (range r : Range) (n : option Loc) (o : nat) :
  setStart range n o = Ret r -> startOffset r <= getNodeLength (startContainer r).
Proof.
  unfold setStart. destruct n as [n|]; [|discriminate].
  destruct (nodeType n =? 10); [discriminate|].
  destruct (getNodeLength n <? o) eqn:E; [discriminate|]. apply Nat.ltb_ge in E.
  destruct (_ =? 1)%Z; intros H; inv H; exact E.
Qed.

Lemma setEnd_valid (range r : Range) (n : option Loc) (o : nat) :
  startOffset range <= getNodeLength (startContainer range) ->
  setEnd range n o = Ret r -> startOffset r <= getNodeLength (startContainer r).
Proof.
  unfold setEnd. intros Hv. destruct n as [n|]; [|discriminate].
  destruct (nodeType n =? 10); [discriminate|].
  destruct (getNodeLength n <? o) eqn:E; [discriminate|]. apply Nat.ltb_ge in E.
  destruct (_ =? -1)%Z; intros H; inv H; assumption.
Qed.

Lemma moveBoundary_character_ends (tcb : bool) (isStart : bool) (range : Range) (count : Z)
      (mo : option MoveOptions) :
  inNode (if isStart then getRangeStartPosition range else getRangeEndPosition range) ->
  ends (moveBoundary tcb isStart false range CHARACTER count mo).
Proof.
  intros Hv. unfold moveBoundary. cbn iota.
  apply ends_bind; [apply movePositionBy_character_ends; exact Hv | intros mr _].
  destruct (movedPosition mr); [|apply ends_Throw].
  apply ends_bind; [|intros; apply ends_Ret].
  unfold setStart, setEnd. repeat ends_step.
Qed.

Lemma moveBoundary_start_valid (tcb : bool) (collapseFirst : bool) (range r : Range) (unit : string)
      (count u : Z) (mo : option MoveOptions) :
  moveBoundary tcb true collapseFirst range unit count mo = Ret (u, r) ->
  collapseFirst = false ->
  startOffset r <= getNodeLength (startContainer r).
Proof.
  intros H ->. unfold moveBoundary in H. cbn iota in H. unbind H.
  destruct (movedPosition a); [|discriminate]. unbind H. inv H.
  eapply setStart_valid. eassumption.
Qed.

Lemma text_ends (tcb : bool) (range : Range) (co : option CharacterOptions) :
  startOffset range <= getNodeLength (startContainer range) -> ends (text tcb range co).
Proof.
  intros Hv. unfold text. destruct (collapsed range); [apply ends_Ret|].
  apply ends_bind; [apply getRangeCharacters_ends; exact Hv | intros; apply ends_Ret].
Qed.

Lemma setStart_ends (range : Range) (n : option Loc) (o : nat) : ends (setStart range n o).
Proof. unfold setStart. repeat ends_step. Qed.

Lemma setEnd_ends (range : Range) (n : option Loc) (o : nat) : ends (setEnd range n o).
Proof. unfold setEnd. repeat ends_step. Qed.

Lemma setStart_start (range r : Range) (n : Loc) (o : nat) :
  setStart range (Some n) o = Ret r -> startContainer r = n /\ startOffset r = o.
Proof.
  unfold setStart. destruct (nodeType n =? 10); [discriminate|].
  destruct (getNodeLength n <? o); [discriminate|].
  destruct (_ =? 1)%Z; intros H; inv H; auto.
Qed.

Lemma setEnd_end (range r : Range) (n : Loc) (o : nat) :
  setEnd range (Some n) o = Ret r -> o <= getNodeLength n.
Proof.
  unfold setEnd. destruct (nodeType n =? 10); [discriminate|].
  destruct (getNodeLength n <? o) eqn:E; [discriminate|]. apply Nat.ltb_ge in E.
  intros _. exact E.
Qed.

(** X14. [range.text()] comes to an end for every range whose start offset
    lies in its start container: none of its loops (over the nodes around a
    white-space text node, over the positions before and after a space, over
    the positions of the range) runs beyond the positions of the document.
    It returns a string or raises. *)
Theorem text_terminates (tcb : bool) (range : Range) (co : option CharacterOptions) :
  startOffset range <= getNodeLength (startContainer range) ->
  text tcb range co <> OutOfFuel.
Proof. exact (text_ends tcb range co). Qed.

Lemma text_terminates_witness :
  startOffset (selectNodeContents doubleSpaceDiv)
  <= getNodeLength (startContainer (selectNodeContents doubleSpaceDiv))
  /\ text false (selectNodeContents doubleSpaceDiv) None <> OutOfFuel.
Proof.
  assert (H : startOffset (selectNodeContents doubleSpaceDiv)
              <= getNodeLength (startContainer (selectNodeContents doubleSpaceDiv)))
    by (vm_compute; lia).
  split; [exact H|].
  exact (text_terminates false (selectNodeContents doubleSpaceDiv) None H).
Defined.

(** X15. [selectCharacters] and [toCharacterRange] come to an end for
    every container node, every pair of indexes and every range: the
    boundaries they move and the texts they read start at offsets the host
    range has accepted. *)
Theorem character_indexes_terminate (tcb : bool) (containerNode : Loc) (startIndex endIndex : Z)
        (range : Range) (co : option CharacterOptions) :
  selectCharacters tcb containerNode startIndex endIndex co <> OutOfFuel
  /\ toCharacterRange tcb range containerNode co <> OutOfFuel.
Proof.
  split.
  - change (ends (selectCharacters tcb containerNode startIndex endIndex co)).
    unfold selectCharacters, moveStart, moveEnd.
    apply ends_bind.
    + apply moveBoundary_character_ends. unfold inNode. simpl. lia.
    + intros [u r] E. apply moveBoundary_start_valid in E; [|reflexivity].
      apply ends_bind; [|intros [u' r'] _; apply ends_Ret].
      apply moveBoundary_character_ends. unfold inNode. simpl. exact E.
  - change (ends (toCharacterRange tcb range containerNode co)).
    unfold toCharacterRange. destruct (parentNode containerNode) as [parent|]; [|apply ends_Throw].
    assert (Hlast : startOffset range <= getNodeLength (startContainer range) ->
                    forall startIndex,
                      ends (t <- text tcb range co ;;
                            Ret (mkCharacterRange startIndex (startIndex + Z.of_nat (length t))%Z))).
    { intros Hv i. apply ends_bind; [apply text_ends; exact Hv | intros; apply ends_Ret]. }
    destruct (_ =? -1)%Z.
    + apply ends_bind.
      * apply ends_bind; [apply setStart_ends | intros r1 E1].
        apply ends_bind; [apply setEnd_ends | intros r2 E2].
        apply ends_bind; [|intros; apply ends_Ret].
        apply text_ends. eapply setEnd_valid; [|eassumption].
        eapply setStart_valid. eassumption.
      * intros i E. apply Hlast. unbind E.
        pose proof (setStart_valid _ _ _ _ Hc) as Hv.
        apply setStart_start in Hc. destruct Hc as [E1 E2]. rewrite E1, E2 in Hv. exact Hv.
    + apply ends_bind.
      * apply ends_bind; [apply setStart_ends | intros r1 E1].
        apply ends_bind; [apply setEnd_ends | intros r2 E2].
        apply ends_bind; [|intros; apply ends_Ret].
        apply text_ends. eapply setEnd_valid; [|eassumption].
        eapply setStart_valid. eassumption.
      * intros i E. apply Hlast. unbind E. unbind E.
        eapply setEnd_end. eassumption.
Qed.

(** ** Word regular expressions the tokenizer cannot use *)

Lemma search_finds (r : Pattern) : forall s i,
  matchPattern r [] (fun rest => Some rest) <> None -> search r s i <> None.
Proof.
  induction s as [|c s IH]; intros i H; cbn [search].
  - destruct (matchPattern r [] (fun rest => Some rest)); [discriminate | congruence].
  - destruct (matchPattern r (c :: s) (fun rest => Some rest)); [discriminate|].
    apply IH. assumption.
Qed.

(** X16. A word regular expression without the global flag that matches
    somewhere in the text keeps the loop of [defaultTokenizer] going for
    ever: [exec] starts from the beginning each time and finds the same
    match again, so no number of rounds is enough. *)
Theorem word_regex_without_global_never_ends (regex : RegExp) (its : bool)
        (chars : list TextPosition) (fuel lastIndex lastWordEnd : nat) (tokens : list TokenRange) :
  global regex = false ->
  search (source regex) (concat (map character chars)) 0 <> None ->
  tokenizeLoop fuel regex its chars (concat (map character chars)) lastIndex lastWordEnd tokens
  = OutOfFuel.
Proof.
  intros Hg Hs. revert lastWordEnd tokens.
  induction fuel as [|fuel IH]; intros lastWordEnd tokens; [reflexivity|].
  cbn [tokenizeLoop]. unfold exec. rewrite Hg.
  destruct (search (source regex) (concat (map character chars)) 0) as [[index len]|];
    [|congruence].
  apply IH.
Qed.

Lemma word_regex_without_global_never_ends_witness :
  global (mkRegExp (source defaultWordRegex) false) = false
  /\ search (source defaultWordRegex) (concat (map character (charactersOf (js "ab")))) 0 <> None
  /\ tokenizeLoop 1000 (mkRegExp (source defaultWordRegex) false) false (charactersOf (js "ab"))
       (concat (map character (charactersOf (js "ab")))) 0 0 [] = OutOfFuel.
Proof.
  assert (H : search (source defaultWordRegex)
                (concat (map character (charactersOf (js "ab")))) 0 <> None)
    by (vm_compute; discriminate).
  split; [reflexivity|]. split; [exact H|].
  exact (word_regex_without_global_never_ends (mkRegExp (source defaultWordRegex) false) false
           (charactersOf (js "ab")) 1000 0 0 [] eq_refl H).
Defined.

(** X17. A global word regular expression that matches the empty string
    at the end of a text keeps the loop of [defaultTokenizer] going for ever
    as well: every [exec] finds a match, at the latest the empty one at the
    end, and an empty match leaves [lastIndex] where it is. *)
Theorem word_regex_matching_empty_never_ends (regex : RegExp) (its : bool)
        (chars : list TextPosition) (fuel lastIndex lastWordEnd : nat) (tokens : list TokenRange) :
  global regex = true ->
  matchPattern (source regex) [] (fun rest => Some rest) <> None ->
  lastIndex <= length (concat (map character chars)) ->
  tokenizeLoop fuel regex its chars (concat (map character chars)) lastIndex lastWordEnd tokens
  = OutOfFuel.
Proof.
  intros Hg Hm. revert lastIndex lastWordEnd tokens.
  induction fuel as [|fuel IH]; intros lastIndex lastWordEnd tokens Hle; [reflexivity|].
  cbn [tokenizeLoop].
  destruct (exec regex (concat (map character chars)) lastIndex) as [[[index len]|] lastIndex'] eqn:E.
  - destruct (exec_global _ _ _ _ _ _ Hg E) as [_ [H2 H3]]. apply IH. lia.
  - exfalso. unfold exec in E. rewrite Hg in E. apply Nat.leb_le in Hle. rewrite Hle in E.
    pose proof (search_finds (source regex) (skipn lastIndex (concat (map character chars)))
                  lastIndex Hm) as Hs.
    destruct (search _ _ _) as [[i l]|]; [discriminate | congruence].
Qed.

Lemma word_regex_matching_empty_never_ends_witness :
  global (mkRegExp (Star (Class alnum)) true) = true
  /\ matchPattern (Star (Class alnum)) [] (fun rest => Some rest) <> None
  /\ tokenizeLoop 1000 (mkRegExp (Star (Class alnum)) true) false (charactersOf (js "ab"))
       (concat (map character (charactersOf (js "ab")))) 0 0 [] = OutOfFuel.
Proof.
  assert (H : matchPattern (Star (Class alnum)) [] (fun rest => Some rest) <> None)
    by (vm_compute; discriminate).
  split; [reflexivity|]. split; [exact H|].
  apply (word_regex_matching_empty_never_ends (mkRegExp (Star (Class alnum)) true) false
           (charactersOf (js "ab")) 1000 0 0 [] eq_refl H).
  vm_compute. lia.
Defined.

(** ** Documents on which [text] returns *)

(** *** Well-formed documents *)

Definition isText (n : Node) : bool := match n with Text _ => true | _ => false end.

Definition isDoctype (n : Node) : bool := match n with DocumentType _ => true | _ => false end.

(** Below the top of a document: every node with children is an element,
    there is no document type node, and no text node lies directly in an
    element with [white-space: pre-line]. *)
Fixpoint plainNode (n : Node) : bool :=
  match n with
  | Inner (ElementShell _ st) cs =>
      forallb (fun c => plainNode c && negb (isText c && String.eqb (whiteSpace st) "pre-line")) cs
  | Inner _ _ => false
  | DocumentType _ => false
  | _ => true
  end.

Definition plainUnder (sh : Shell) (c : Node) : bool :=
  match sh with
  | ElementShell _ st => plainNode c && negb (isText c && String.eqb (whiteSpace st) "pre-line")
  | _ => false
  end.

(** A child of the document node: a block element, or a node without
    children that is no text node. *)
Definition topLevel (tcb : bool) (c : Node) : bool :=
  match c with
  | Inner _ _ => plainNode c && isBlockNode tcb (Some (rootLoc c))
  | Text _ => false
  | _ => true
  end.

(** No document type node after an element. *)
Fixpoint doctypeFirst (cs : list Node) : bool :=
  match cs with
  | [] => true
  | Inner _ _ :: r => forallb (fun c => negb (isDoctype c)) r
  | _ :: r => doctypeFirst r
  end.

(** A document node over such children. *)
Definition htmlDocument (tcb : bool) (d : Node) : bool :=
  match d with
  | Inner DocumentShell cs => forallb (topLevel tcb) cs && doctypeFirst cs
  | _ => false
  end.

(** What being in such a document means for a node, by its depth. *)
Definition placed (tcb : bool) (foc : Node) (ctx : list Frame) : Prop :=
  match ctx with
  | [] => htmlDocument tcb foc = true
  | [f] => shell f = DocumentShell /\ topLevel tcb foc = true
  | f :: _ => plainUnder (shell f) foc = true
  end.

Lemma plainNode_child (sh : Shell) (cs : list Node) (c : Node) :
  plainNode (Inner sh cs) = true -> In c cs -> plainUnder sh c = true.
Proof.
  cbn [plainNode]. destruct sh as [t st| |]; try discriminate.
  intros H Hin. rewrite forallb_forall in H. apply H. assumption.
Qed.

Lemma in_middle {A} (l : list A) (x : A) (r : list A) : In x (rev l ++ x :: r).
Proof. apply in_or_app. right. left. reflexivity. Qed.

Lemma wf_placed (tcb : bool) : forall ctx foc,
  htmlDocument tcb (rootNode foc ctx) = true -> placed tcb foc ctx.
Proof.
  induction ctx as [|f up IH]; intros foc H; [exact H|].
  cbn [rootNode] in H. apply IH in H.
  pose proof (in_middle (lefts f) foc (rights f)) as Hin.
  destruct up as [|g up'].
  - cbn [placed] in *. unfold htmlDocument in H.
    destruct (shell f); try discriminate.
    apply andb_true_iff in H. destruct H as [H _].
    rewrite forallb_forall in H. split; [reflexivity | apply H; assumption].
  - assert (Hp : plainNode (Inner (shell f) (rev (lefts f) ++ foc :: rights f)) = true).
    { destruct up' as [|g' up''].
      - destruct H as [_ H]. cbn [topLevel] in H. apply andb_true_iff in H. apply H.
      - cbn [placed] in H. unfold plainUnder in H. destruct (shell g); [|discriminate|discriminate].
        apply andb_true_iff in H. apply H. }
    cbn [placed]. eapply plainNode_child; eassumption.
Qed.

(** A node of a well-formed document. *)
Definition wf (tcb : bool) (n : Loc) : Prop := htmlDocument tcb (documentOf n) = true.

Lemma wf_parent (tcb : bool) (n p : Loc) : wf tcb n -> parentNode n = Some p -> wf tcb p.
Proof. unfold wf. intros H Hp. rewrite (documentOf_parent _ _ Hp). exact H. Qed.

Lemma wf_child (tcb : bool) (n c : Loc) (i : nat) : wf tcb n -> childNode n i = Some c -> wf tcb c.
Proof. unfold wf. intros H Hc. rewrite (documentOf_child _ _ _ Hc). exact H. Qed.

(** The parent of a text node is an element whose white space is not
    [pre-line]. *)
Lemma text_parent (tcb : bool) (n : Loc) :
  wf tcb n -> nodeType n = 3 ->
  exists p t st cs, parentNode n = Some p /\ focus p = Inner (ElementShell t st) cs
                    /\ String.eqb (whiteSpace st) "pre-line" = false.
Proof.
  unfold wf, documentOf, nodeType, parentNode. destruct n as [foc ctx]. cbn [focus context].
  intros H Ht. apply wf_placed in H.
  destruct foc as [[| |] cs|d|d|t d|nm]; try discriminate.
  destruct ctx as [|f [|g up]]; cbn [placed] in H.
  - discriminate.
  - destruct H as [_ H]. discriminate.
  - unfold plainUnder in H. destruct (shell f) as [t st| |]; try discriminate.
    simpl in H. apply negb_true_iff in H.
    eexists _, t, st, _. split; [reflexivity|]. split; [reflexivity | exact H].
Qed.

(** A node with children that is not the root is an element, and plain. *)
Lemma inner_plain (tcb : bool) (n : Loc) :
  wf tcb n -> context n <> [] -> nodeType n = 1 \/ hasChildNodes n = true ->
  plainNode (focus n) = true.
Proof.
  unfold wf, documentOf, nodeType, hasChildNodes, childNodes. destruct n as [foc ctx].
  cbn [focus context]. intros H Hc Hn. apply wf_placed in H.
  destruct ctx as [|f [|g up]]; [congruence| |]; cbn [placed] in H.
  - destruct H as [_ H]. destruct foc as [sh cs|d|d|t d|nm]; try reflexivity.
    + cbn [topLevel] in H. apply andb_true_iff in H. apply H.
    + exfalso. destruct Hn as [Hn|Hn]; discriminate.
  - unfold plainUnder in H. destruct (shell f); try discriminate.
    apply andb_true_iff in H. apply H.
Qed.

Lemma plain_element (n : Loc) :
  plainNode (focus n) = true -> hasChildNodes n = true \/ nodeType n = 9 \/ nodeType n = 11
  -> nodeType n = 1.
Proof.
  unfold nodeType, hasChildNodes, childNodes.
  destruct (focus n) as [[t st| |] cs|d|d|t d|nm]; simpl; intros H Hn; try reflexivity;
    try discriminate; destruct Hn as [Hn|[Hn|Hn]]; discriminate.
Qed.

(** The document node itself is never collapsed. *)
Lemma root_not_collapsed (tcb : bool) (n : Loc) :
  wf tcb n -> context n = [] -> isCollapsedNode tcb n = Ret false.
Proof.
  unfold wf, documentOf. destruct n as [foc ctx]. cbn [focus context]. intros H ->.
  cbn [rootNode] in H. unfold htmlDocument in H.
  destruct foc as [[| |] cs|d|d|t d|nm]; try discriminate. reflexivity.
Qed.

(** *** Calls that raise nothing *)

Definition safe {A} (c : result A) : Prop := forall e, c <> Throw e.

Lemma safe_bind {A B} (c : result A) (k : A -> result B) :
  safe c -> (forall a, c = Ret a -> safe (k a)) -> safe (bind c k).
Proof.
  unfold safe. destruct c; simpl; intros Hc Hk; [apply Hk; reflexivity | | discriminate].
  intros e0 E. apply (Hc e). reflexivity.
Qed.

Lemma safe_Ret {A} (a : A) : safe (Ret a).
Proof. intros e. discriminate. Qed.

Lemma safe_OutOfFuel {A} : safe (@OutOfFuel A).
Proof. intros e. discriminate. Qed.

Lemma returns {A} (c : result A) : ends c -> safe c -> exists a, c = Ret a.
Proof.
  unfold ends, safe. destruct c as [a|e|]; intros He Hs; [eauto | destruct (Hs e); reflexivity | congruence].
Qed.

Ltac safe_step :=
  match goal with
  | |- safe (Ret _) => apply safe_Ret
  | |- safe OutOfFuel => apply safe_OutOfFuel
  | |- safe (bind _ _) => apply safe_bind; [|intros ? ?]
  | |- safe (match ?x with _ => _ end) => destruct x eqn:?
  end.

(** *** Nodes below a node *)

(** [r] lies in the subtree of [a]: its way up passes through [a]. *)
Definition below (r a : Loc) : Prop :=
  exists fs, context r = fs ++ context a /\ rootNode (focus r) fs = focus a.

Lemma rootNode_app (fs ctx : list Frame) : forall foc,
  rootNode foc (fs ++ ctx) = rootNode (rootNode foc fs) ctx.
Proof. induction fs as [|f fs IH]; intros foc; simpl; [reflexivity | apply IH]. Qed.

Lemma below_refl (a : Loc) : below a a.
Proof. exists []. split; reflexivity. Qed.

Lemma below_trans (r m a : Loc) : below r m -> below m a -> below r a.
Proof.
  intros [fs [H1 H2]] [gs [H3 H4]]. exists (fs ++ gs). rewrite H1, H3, app_assoc.
  split; [reflexivity|]. rewrite rootNode_app, H2. exact H4.
Qed.

Lemma below_document (r a : Loc) : below r a -> documentOf r = documentOf a.
Proof.
  intros [fs [H1 H2]]. unfold documentOf. rewrite H1, rootNode_app, H2. reflexivity.
Qed.

Lemma child_below (c r : Loc) : parentNode c = Some r -> below c r.
Proof.
  unfold parentNode. destruct c as [foc [|f up]]; cbn [focus context]; [discriminate|].
  intros H; inv H. exists [f]. split; reflexivity.
Qed.

Lemma below_self (r a : Loc) : below r a -> node_eqb r a = false ->
  exists f fs, context r = f :: fs ++ context a
               /\ rootNode (Inner (shell f) (rev (lefts f) ++ focus r :: rights f)) fs = focus a.
Proof.
  intros [fs [H1 H2]] Hne. destruct fs as [|f fs].
  - exfalso. unfold node_eqb, pathOf in Hne. simpl in H1. rewrite H1 in Hne.
    destruct (list_eq_dec _ _ _); [discriminate | congruence].
  - exists f, fs. split; assumption.
Qed.

Lemma nextNodeDescendantsUp_below (a : Loc) : forall fs foc,
  rootNode foc fs = focus a ->
  (exists r, nextNodeDescendantsUp foc (fs ++ context a) = Some r /\ below r a)
  \/ nextNodeDescendantsUp foc (fs ++ context a) = nextNodeDescendants a.
Proof.
  induction fs as [|[ls sh rs] fs IH]; intros foc H.
  - right. simpl in *. rewrite H. reflexivity.
  - cbn [app nextNodeDescendantsUp lefts shell rights]. destruct rs as [|y r].
    + apply IH. exact H.
    + left. eexists. split; [reflexivity|].
      exists (mkFrame (foc :: ls) sh r :: fs). split; [reflexivity|].
      cbn [focus rootNode lefts shell rights rev] in *. rewrite <- app_assoc. exact H.
Qed.

Lemma nextNode_below (r a : Loc) :
  below r a ->
  (exists r', nextNode r false = Some r' /\ below r' a)
  \/ nextNode r false = nextNodeDescendants a.
Proof.
  intros Hb. unfold nextNode. cbn [negb andb]. destruct (hasChildNodes r) eqn:Hc.
  - left. unfold firstChild. unfold hasChildNodes, childNodes in Hc.
    destruct (childNode r 0) as [c|] eqn:E.
    + exists c. split; [reflexivity|]. apply parentNode_childNode in E.
      eapply below_trans; [apply child_below; apply E | exact Hb].
    + exfalso. unfold childNode in E. destruct (focus r) as [sh [|x cs]|d|d|t d|nm]; discriminate.
  - destruct Hb as [fs [H1 H2]].
    replace (nextNodeDescendants r) with (nextNodeDescendantsUp (focus r) (fs ++ context a))
      by (unfold nextNodeDescendants; rewrite H1; reflexivity).
    apply nextNodeDescendantsUp_below. exact H2.
Qed.

Lemma optnode_eqb_refl (x : option Loc) : optnode_eqb x x = true.
Proof.
  destruct x as [n|]; [|reflexivity]. unfold optnode_eqb, node_eqb.
  destruct (list_eq_dec _ _ _); congruence.
Qed.

(** The scan forward stays below the ancestor until it reaches the node
    after it. *)
Lemma scanAfter_safe (tcb : bool) (a : Loc) : forall fuel reference,
  reference = nextNodeDescendants a \/ (exists r, reference = Some r /\ below r a) ->
  safe (scanAfter tcb fuel (nextNodeDescendants a) reference).
Proof.
  induction fuel as [|fuel IH]; intros reference H; cbn [scanAfter].
  - destruct (optnode_eqb _ _); [apply safe_Ret | apply safe_OutOfFuel].
  - destruct (optnode_eqb reference (nextNodeDescendants a)) eqn:E; [apply safe_Ret|].
    destruct H as [H|[r [H Hb]]]; [rewrite H, optnode_eqb_refl in E; discriminate|].
    subst reference.
    destruct (isBlockNode tcb (nextNode r false) || isHtmlElement (nextNode r false) "br");
      [apply safe_Ret|].
    destruct (_ || _); [apply safe_Ret|].
    apply IH. destruct (nextNode_below r a Hb) as [[r' [H1 H2]]|H1]; [right; eauto | left; exact H1].
Qed.

Lemma lastDescendant_below : forall foc ctx,
  exists gs, context (lastDescendant foc ctx) = gs ++ ctx
             /\ rootNode (focus (lastDescendant foc ctx)) gs = foc.
Proof.
  fix IH 1. intros foc ctx.
  assert (Hself : exists gs, context (mkLoc foc ctx) = gs ++ ctx
                             /\ rootNode (focus (mkLoc foc ctx)) gs = foc).
  { exists []. split; reflexivity. }
  destruct foc as [sh cs|d|d|t d|nm]; try exact Hself.
  cbn [lastDescendant].
  match goal with
  | |- exists gs, context (?g [] cs) = _ /\ _ =>
      assert (Hgo : forall rest before, rev before ++ rest = cs ->
                exists gs, context (g before rest) = gs ++ ctx
                           /\ rootNode (focus (g before rest)) gs = Inner sh cs)
  end.
  { induction rest as [|x r IHr]; intros before E; [exact Hself|].
    destruct r as [|y r].
    - destruct (IH x (mkFrame before sh [] :: ctx)) as [gs [H1 H2]].
      exists (gs ++ [mkFrame before sh []]). rewrite H1, <- app_assoc. split; [reflexivity|].
      rewrite rootNode_app, H2. cbn [rootNode lefts shell rights]. rewrite E. reflexivity.
    - apply IHr. simpl. rewrite <- app_assoc. exact E. }
  apply Hgo. reflexivity.
Qed.

Lemma rootNode_plain (fs : list Frame) : forall foc,
  plainNode (rootNode foc fs) = true -> plainNode foc = true.
Proof.
  induction fs as [|f fs IH]; intros foc H; [exact H|].
  cbn [rootNode] in H. apply IH in H.
  pose proof (plainNode_child _ _ foc H (in_middle _ _ _)) as Hc.
  unfold plainUnder in Hc. destruct (shell f); try discriminate.
  apply andb_true_iff in Hc. apply Hc.
Qed.

(** From a node below a plain ancestor there is always a node before,
    still below the ancestor. *)
Lemma previousNode_below (r a : Loc) :
  plainNode (focus a) = true -> below r a -> node_eqb r a = false ->
  exists r', previousNode r = Some r' /\ below r' a.
Proof.
  intros Hp Hb Hne. destruct (below_self _ _ Hb Hne) as [[ls sh rs] [fs [H1 H2]]].
  cbn [lefts shell rights] in H2.
  unfold previousNode, previousSibling, parentNode. rewrite H1. cbn [lefts shell rights].
  destruct ls as [|x l].
  - assert (Hsh : exists t st, sh = ElementShell t st).
    { rewrite <- H2 in Hp. apply rootNode_plain in Hp. cbn [plainNode] in Hp.
      destruct sh; try discriminate. eauto. }
    destruct Hsh as [t [st ->]]. cbn [nodeType focus]. simpl.
    eexists. split; [reflexivity|]. exists fs. split; [reflexivity | exact H2].
  - eexists. split; [reflexivity|]. cbn [focus context].
    destruct (lastDescendant_below x (mkFrame l sh (focus r :: rs) :: fs ++ context a))
      as [gs [H3 H4]].
    exists (gs ++ mkFrame l sh (focus r :: rs) :: fs). rewrite H3, <- app_assoc.
    split; [reflexivity|]. rewrite rootNode_app, H4.
    cbn [rootNode lefts shell rights rev] in *. rewrite <- app_assoc in H2. exact H2.
Qed.

Lemma scanBefore_safe (tcb : bool) (a : Loc) :
  plainNode (focus a) = true ->
  forall fuel reference, below reference a -> safe (scanBefore tcb fuel a reference).
Proof.
  intros Hp. induction fuel as [|fuel IH]; intros reference Hb; cbn [scanBefore].
  - destruct (node_eqb _ _); [apply safe_Ret | apply safe_OutOfFuel].
  - destruct (node_eqb reference a) eqn:E; [apply safe_Ret|].
    destruct (previousNode_below _ _ Hp Hb E) as [r' [H1 H2]]. rewrite H1.
    destruct (_ || _); [apply safe_Ret|]. destruct (_ || _); [apply safe_Ret|].
    apply IH. exact H2.
Qed.

(** *** The block ancestor of a white-space node *)

Lemma blockAncestorUp_below (tcb : bool) : forall ctx foc,
  below (mkLoc foc ctx) (blockAncestorUp tcb foc ctx).
Proof.
  induction ctx as [|f up IH]; intros foc; cbn [blockAncestorUp];
    destruct (isBlockNode tcb _); try apply below_refl.
  eapply below_trans; [|apply IH]. apply child_below. reflexivity.
Qed.

Lemma isBlockNode_focus (tcb : bool) (n : Loc) :
  isBlockNode tcb (Some n) = isBlockNode tcb (Some (rootLoc (focus n))).
Proof. reflexivity. Qed.

Lemma element_plain (tcb : bool) (n : Loc) :
  wf tcb n -> nodeType n = 1 -> plainNode (focus n) = true.
Proof.
  intros Hw Ht. destruct (context n) as [|f up] eqn:Hc.
  - exfalso. unfold wf, documentOf in Hw. rewrite Hc in Hw. cbn [rootNode] in Hw.
    unfold nodeType in Ht. unfold htmlDocument in Hw.
    destruct (focus n) as [[| |] cs|d|d|t d|nm]; discriminate.
  - apply (inner_plain tcb); [assumption | congruence | left; assumption].
Qed.

Lemma blockAncestorUp_element (tcb : bool) : forall ctx foc,
  wf tcb (mkLoc foc ctx) -> nodeType (mkLoc foc ctx) = 1 ->
  nodeType (blockAncestorUp tcb foc ctx) = 1.
Proof.
  induction ctx as [|f up IH]; intros foc Hw Ht; cbn [blockAncestorUp];
    destruct (isBlockNode tcb _) eqn:Hb; try exact Ht.
  apply IH; [exact Hw|].
  unfold wf, documentOf in Hw. cbn [focus context] in Hw. apply wf_placed in Hw.
  destruct up as [|g up']; cbn [placed] in Hw.
  - exfalso. destruct Hw as [_ Hw]. rewrite isBlockNode_focus in Hb. cbn [focus] in Hb.
    unfold nodeType in Ht. cbn [focus] in Ht.
    destruct foc as [sh cs|d|d|t d|nm]; try discriminate.
    cbn [topLevel] in Hw. apply andb_true_iff in Hw. destruct Hw as [_ Hw]. congruence.
  - unfold plainUnder in Hw. unfold nodeType. cbn [focus].
    destruct (shell f); [reflexivity | discriminate | discriminate].
Qed.

Lemma isWhitespaceNode_text (n : Loc) : isWhitespaceNode (Some n) = true -> nodeType n = 3.
Proof.
  unfold isWhitespaceNode, nodeType. destruct (focus n); try discriminate. reflexivity.
Qed.

Lemma isCollapsedNode_safe (tcb : bool) (n : Loc) : wf tcb n -> safe (isCollapsedNode tcb n).
Proof.
  intros Hw. unfold isCollapsedNode.
  destruct (_ || _); [apply safe_Ret|].
  assert (Hpar : nodeType n = 3 ->
            exists p, parentNode n = Some p /\ nodeType p = 1
                      /\ exists v, getComputedStyleProperty p visibility = Ret v).
  { intros Ht. destruct (text_parent tcb n Hw Ht) as [p [t [st [cs [H1 [H2 _]]]]]].
    exists p. split; [exact H1|]. unfold nodeType, getComputedStyleProperty. rewrite H2.
    split; [reflexivity | eauto]. }
  apply safe_bind.
  { unfold isVisibilityHiddenTextNode. destruct (nodeType n =? 3) eqn:Ht; [|apply safe_Ret].
    apply Nat.eqb_eq in Ht. destruct (Hpar Ht) as [p [H1 [_ [v H2]]]]. rewrite H1, H2.
    apply safe_Ret. }
  intros hiddenText _. destruct hiddenText; [apply safe_Ret|].
  unfold isCollapsedWhitespaceNode.
  assert (Hscan : isWhitespaceNode (Some n) = true ->
            forall parent, parentNode n = Some parent ->
              safe (before <- scanBefore tcb (walkFuel n)
                                (blockAncestorUp tcb (focus parent) (context parent)) n ;;
                    if before then Ret true
                    else scanAfter tcb (walkFuel n)
                           (nextNodeDescendants
                              (blockAncestorUp tcb (focus parent) (context parent)))
                           (Some n))).
  { intros Hws parent Hp. apply isWhitespaceNode_text in Hws.
    destruct (Hpar Hws) as [p [H1 [H2 _]]]. rewrite Hp in H1. inv H1.
    assert (Hbelow : below n (blockAncestorUp tcb (focus p) (context p))).
    { eapply below_trans; [apply child_below; exact Hp|].
      pose proof (blockAncestorUp_below tcb (context p) (focus p)) as Hb.
      destruct p; exact Hb. }
    assert (Hwp : wf tcb p) by (eapply wf_parent; eassumption).
    assert (Hel : nodeType (blockAncestorUp tcb (focus p) (context p)) = 1).
    { apply blockAncestorUp_element; destruct p; assumption. }
    assert (Hpl : plainNode (focus (blockAncestorUp tcb (focus p) (context p))) = true).
    { apply (element_plain tcb); [|exact Hel]. unfold wf.
      rewrite <- (below_document _ _ Hbelow). exact Hw. }
    apply safe_bind; [apply scanBefore_safe; assumption | intros before _].
    destruct before; [apply safe_Ret|]. apply scanAfter_safe. right. eauto. }
  destruct (nodeData n) as [[|c d]|]; try apply safe_Ret;
    (destruct (negb (isWhitespaceNode (Some n))) eqn:Hws; [apply safe_Ret|];
     apply negb_false_iff in Hws;
     destruct (parentNode n) as [parent|] eqn:Hp; [|apply safe_Ret];
     destruct (isHidden tcb n); [apply safe_Ret|];
     apply Hscan; [assumption | reflexivity]).
Qed.

(** *** The character at a position *)

Lemma wf_inner_child (tcb : bool) (sh : Shell) (ctx : list Frame) (before : list Node) (x : Node)
      (r cs : list Node) :
  wf tcb (mkLoc (Inner sh cs) ctx) -> rev before ++ x :: r = cs ->
  wf tcb (mkLoc x (mkFrame before sh r :: ctx)).
Proof.
  unfold wf, documentOf. cbn [focus context rootNode lefts shell rights].
  intros H E. rewrite E. exact H.
Qed.

Lemma hasInnerTextAt_safe (tcb : bool) : forall foc ctx,
  wf tcb (mkLoc foc ctx) -> safe (hasInnerTextAt tcb foc ctx).
Proof.
  fix IH 1. intros foc ctx Hw.
  pose proof (isCollapsedNode_safe tcb _ Hw) as Hc.
  destruct foc as [sh cs|d|d|t d|nm]; cbn [hasInnerTextAt];
    (apply safe_bind; [exact Hc | intros collapsed _]);
    destruct collapsed; try apply safe_Ret.
  match goal with
  | |- safe (?g [] cs) =>
      assert (Hgo : forall rest before, rev before ++ rest = cs -> safe (g before rest))
  end.
  { induction rest as [|x r IHr]; intros before E; [apply safe_Ret|].
    apply safe_bind.
    - apply IH. eapply wf_inner_child; eassumption.
    - intros h _. destruct h; [apply safe_Ret|]. apply IHr.
      simpl. rewrite <- app_assoc. exact E. }
  apply Hgo. reflexivity.
Qed.

Lemma hasInnerText_safe (tcb : bool) (n : Loc) : wf tcb n -> safe (hasInnerText tcb n).
Proof. intros Hw. unfold hasInnerText. apply hasInnerTextAt_safe. destruct n; exact Hw. Qed.

Lemma getTrailingSpaceAt_safe (tcb : bool) : forall foc ctx,
  wf tcb (mkLoc foc ctx) -> safe (getTrailingSpaceAt tcb foc ctx).
Proof.
  fix IH 1. intros foc ctx Hw.
  assert (Hlast : safe (h <- hasInnerText tcb (mkLoc foc ctx) ;;
                        Ret (if h then newline else []))).
  { apply safe_bind; [apply hasInnerText_safe; exact Hw | intros; apply safe_Ret]. }
  destruct foc as [sh cs|d|d|t d|nm]; cbn [getTrailingSpaceAt];
    repeat (match goal with
            | |- safe (?g ?a [] cs) => fail 1
            | |- safe (h <- hasInnerText _ _ ;; _) => exact Hlast
            | _ => safe_step
            end).
  match goal with
  | |- safe (?g ?a [] cs) =>
      assert (Hgo : forall rest answer before, rev before ++ rest = cs ->
                safe (answer tt) -> safe (g answer before rest))
  end.
  { induction rest as [|x r IHr]; intros answer before E Ha; [exact Ha|].
    destruct (negb (isIgnoredNode tcb
                 {| focus := x;
                    context := {| lefts := before; shell := sh; rights := r |} :: ctx |})).
    - apply IHr; [simpl; rewrite <- app_assoc; exact E|].
      destruct (_ =? 1); [|apply safe_Ret]. apply IH. eapply wf_inner_child; eassumption.
    - apply IHr; [simpl; rewrite <- app_assoc; exact E | exact Ha]. }
  apply Hgo; [reflexivity | apply safe_Ret].
Qed.

Lemma getTrailingSpace_safe (tcb : bool) (n : Loc) : wf tcb n -> safe (getTrailingSpace tcb n).
Proof. intros Hw. unfold getTrailingSpace. apply getTrailingSpaceAt_safe. destruct n; exact Hw. Qed.

Lemma getLeadingSpace_safe (tcb : bool) (n : Loc) : wf tcb n -> safe (getLeadingSpace tcb n).
Proof.
  intros Hw. unfold getLeadingSpace. destruct (test_oneOf _ _); [apply safe_Ret|].
  apply safe_bind; [apply hasInnerText_safe; exact Hw | intros; apply safe_Ret].
Qed.

(** A position of a well-formed document. *)
Definition good (tcb : bool) (p : DomPosition) : Prop :=
  exists n, node p = Some n /\ wf tcb n /\ offset p <= getNodeLength n.

Lemma good_inNode (tcb : bool) (p : DomPosition) : good tcb p -> inNode p.
Proof. intros [n [H1 [_ H3]]]. unfold inNode. rewrite H1. exact H3. Qed.

Lemma getPossibleCharacterAt_safe (tcb : bool) (p : DomPosition) :
  good tcb p -> safe (getPossibleCharacterAt tcb p None).
Proof.
  intros [n [Hn [Hw Hle]]]. unfold getPossibleCharacterAt. rewrite Hn.
  destruct (0 <? offset p); [|apply safe_Ret].
  destruct (focus n) as [sh cs|d|d|t d|nm] eqn:Hf.
  2:{ assert (Ht : nodeType n = 3) by (unfold nodeType; rewrite Hf; reflexivity).
      destruct (text_parent tcb n Hw Ht) as [q [t [st [cs [H1 [H2 H3]]]]]].
      unfold getTextNodeProperties, getComputedStyleProperty. rewrite H1, H2. cbn [bind].
      rewrite H3. cbn iota.
      destruct (_ || _); cbn [bind nodeCollapseSpaces spaceRegex preLine andb];
        repeat safe_step. }
  all: apply safe_bind;
    [ destruct (childNode n (offset p - 1)) as [c|] eqn:Hc; [|apply safe_Ret];
      pose proof (wf_child _ _ _ _ Hw Hc);
      repeat (match goal with
              | |- safe (isCollapsedNode _ _) => apply isCollapsedNode_safe; assumption
              | |- safe (getTrailingSpace _ _) => apply getTrailingSpace_safe; assumption
              | _ => safe_step
              end)
    | intros passed _;
      destruct (negb (truthy (character passed))); [|apply safe_Ret];
      destruct (childNode n (offset p)) as [c|] eqn:Hc; [|apply safe_Ret];
      pose proof (wf_child _ _ _ _ Hw Hc);
      repeat (match goal with
              | |- safe (isCollapsedNode _ _) => apply isCollapsedNode_safe; assumption
              | |- safe (getLeadingSpace _ _) => apply getLeadingSpace_safe; assumption
              | _ => safe_step
              end) ].
Qed.

(** *** Steps and walks *)

Lemma nextPosition_good (tcb : bool) (p : DomPosition) :
  good tcb p ->
  safe (nextPosition p)
  /\ forall next, nextPosition p = Ret (Some next) -> exists m, node next = Some m /\ wf tcb m.
Proof.
  intros [n [Hn [Hw Hle]]]. unfold nextPosition. rewrite Hn.
  destruct (offset p =? getNodeLength n) eqn:E.
  - destruct (parentNode n) as [q|] eqn:Hq.
    + split; [apply safe_Ret|]. intros next H; inv H. eexists. split; [reflexivity|].
      eapply wf_parent; eassumption.
    + split; [apply safe_Ret | discriminate].
  - destruct (isCharacterDataNode n) eqn:Hcd.
    + split; [apply safe_Ret|]. intros next H; inv H.
      exists n. split; [reflexivity | assumption].
    + apply Nat.eqb_neq in E. destruct (childNode_exists n (offset p) Hcd Hle E) as [c Hc].
      rewrite Hc. pose proof (wf_child _ _ _ _ Hw Hc).
      destruct (containsPositions c); (split; [apply safe_Ret|]); intros next H0; inv H0;
        eexists; (split; [reflexivity | assumption]).
Qed.

Lemma previousPosition_good (tcb : bool) (p : DomPosition) :
  good tcb p ->
  safe (previousPosition (Some p))
  /\ forall prev, previousPosition (Some p) = Ret (Some prev) ->
                  exists m, node prev = Some m /\ wf tcb m.
Proof.
  intros [n [Hn [Hw Hle]]]. unfold previousPosition. rewrite Hn.
  destruct (offset p =? 0) eqn:E.
  - destruct (parentNode n) as [q|] eqn:Hq.
    + split; [apply safe_Ret|]. intros next H; inv H. eexists. split; [reflexivity|].
      eapply wf_parent; eassumption.
    + split; [apply safe_Ret | discriminate].
  - destruct (isCharacterDataNode n) eqn:Hcd.
    + split; [apply safe_Ret|]. intros next H; inv H.
      exists n. split; [reflexivity | assumption].
    + apply Nat.eqb_neq in E.
      assert (Hc : exists c, childNode n (offset p - 1) = Some c)
        by (apply childNode_exists; [assumption | lia | lia]).
      destruct Hc as [c Hc]. rewrite Hc. pose proof (wf_child _ _ _ _ Hw Hc).
      destruct (containsPositions c); (split; [apply safe_Ret|]); intros next H0; inv H0;
        eexists; (split; [reflexivity | assumption]).
Qed.

Lemma collapsed_has_parent (tcb : bool) (m : Loc) :
  wf tcb m -> isCollapsedNode tcb m = Ret true -> exists q, parentNode m = Some q.
Proof.
  intros Hw Hc. unfold parentNode. destruct (context m) as [|f up] eqn:E; [|eauto].
  rewrite (root_not_collapsed tcb m Hw E) in Hc. discriminate.
Qed.

Lemma nextVisiblePosition_safe (tcb : bool) (p : DomPosition) :
  good tcb p -> safe (nextVisiblePosition tcb p).
Proof.
  intros Hg. destruct (nextPosition_good tcb p Hg) as [Hs Hnext].
  unfold nextVisiblePosition. apply safe_bind; [exact Hs | intros [next|] E; [|apply safe_Ret]].
  destruct (Hnext _ E) as [m [Hm Hw]]. unfold isCollapsedNodeOf. rewrite Hm.
  apply safe_bind; [apply isCollapsedNode_safe; exact Hw | intros c _].
  destruct c; apply safe_Ret.
Qed.

Lemma previousVisiblePosition_safe (tcb : bool) (p : DomPosition) :
  good tcb p -> safe (previousVisiblePosition tcb (Some p)).
Proof.
  intros Hg. destruct (previousPosition_good tcb p Hg) as [Hs Hprev].
  unfold previousVisiblePosition.
  apply safe_bind; [exact Hs | intros [prev|] E; [|apply safe_Ret]].
  destruct (Hprev _ E) as [m [Hm Hw]]. unfold isCollapsedNodeOf. rewrite Hm.
  apply safe_bind; [apply isCollapsedNode_safe; exact Hw | intros c _].
  destruct c; apply safe_Ret.
Qed.

Lemma nextVisiblePosition_good (tcb : bool) (p q : DomPosition) :
  good tcb p -> nextVisiblePosition tcb p = Ret (Some q) -> good tcb q.
Proof.
  intros Hg H. destruct Hg as [n [Hn [Hw Hle]]]. destruct p as [pn o]. cbn [node offset] in *.
  subst pn. destruct q as [[n'|] o'].
  - destruct (nextVisiblePosition_step tcb n o n' o' Hle H) as [H1 [_ [_ H4]]].
    exists n'. split; [reflexivity|]. split; [|exact H1]. unfold wf. rewrite H4. exact Hw.
  - exfalso. unfold nextVisiblePosition in H. unbind H. destruct a as [next|]; [|discriminate].
    assert (Hg : good tcb (mkPos (Some n) o)) by (exists n; auto).
    destruct (nextPosition_good tcb _ Hg) as [_ Hnext].
    destruct (Hnext _ Hc) as [m [Hm Hwm]]. unfold isCollapsedNodeOf in H. rewrite Hm in H.
    unbind H. destruct a.
    + destruct (collapsed_has_parent tcb m Hwm Hc0) as [x Hx]. rewrite Hx in H. discriminate.
    + inv H. discriminate.
Qed.

Lemma previousVisiblePosition_good (tcb : bool) (p q : DomPosition) :
  good tcb p -> previousVisiblePosition tcb (Some p) = Ret (Some q) -> good tcb q.
Proof.
  intros Hg H. destruct Hg as [n [Hn [Hw Hle]]]. destruct p as [pn o]. cbn [node offset] in *.
  subst pn. destruct q as [[n'|] o'].
  - destruct (previousVisiblePosition_step tcb n o n' o' Hle H) as [H1 [_ [_ H4]]].
    exists n'. split; [reflexivity|]. split; [|exact H1]. unfold wf. rewrite H4. exact Hw.
  - exfalso. unfold previousVisiblePosition in H. unbind H. destruct a as [prev|]; [|discriminate].
    assert (Hg : good tcb (mkPos (Some n) o)) by (exists n; auto).
    destruct (previousPosition_good tcb _ Hg) as [_ Hprev].
    destruct (Hprev _ Hc) as [m [Hm Hwm]]. unfold isCollapsedNodeOf in H. rewrite Hm in H.
    unbind H. destruct a.
    + destruct (collapsed_has_parent tcb m Hwm Hc0) as [x Hx]. rewrite Hx in H. discriminate.
    + inv H. discriminate.
Qed.

Lemma getNextPossibleCharacterLoop_safe (tcb : bool) : forall fuel p,
  good tcb p -> safe (getNextPossibleCharacterLoop tcb fuel p).
Proof.
  induction fuel as [|fuel IH]; intros p Hg; [apply safe_OutOfFuel|].
  cbn [getNextPossibleCharacterLoop].
  apply safe_bind; [apply nextVisiblePosition_safe; exact Hg | intros [q|] Hq; [|apply safe_Ret]].
  pose proof (nextVisiblePosition_good _ _ _ Hg Hq) as Hgq.
  apply safe_bind; [apply getPossibleCharacterAt_safe; exact Hgq | intros next _].
  destruct (truthy (character next)); [apply safe_Ret | apply IH; exact Hgq].
Qed.

Lemma precedingCharsLoop_safe (tcb : bool) : forall fuel p chars,
  good tcb p -> safe (precedingCharsLoop tcb fuel p chars).
Proof.
  induction fuel as [|fuel IH]; intros p chars Hg; [apply safe_OutOfFuel|].
  cbn [precedingCharsLoop].
  apply safe_bind; [apply previousVisiblePosition_safe; exact Hg | intros [q|] Hq; [|apply safe_Ret]].
  pose proof (previousVisiblePosition_good _ _ _ Hg Hq) as Hgq.
  apply safe_bind; [apply getPossibleCharacterAt_safe; exact Hgq | intros previous _].
  destruct (truthy (character previous)); [destruct (_ && _); [apply safe_Ret|]|];
    apply IH; exact Hgq.
Qed.

Lemma getCharacterAt_safe (tcb : bool) (p : DomPosition) (pre : option (list TextPosition))
      (opts : CharacterOptions) :
  good tcb p -> safe (getCharacterAt tcb p pre opts).
Proof.
  intros Hg. unfold getCharacterAt.
  apply safe_bind; [apply getPossibleCharacterAt_safe; exact Hg | intros possible _].
  destruct (_ && _); [|apply safe_Ret].
  apply safe_bind.
  { destruct pre; [apply safe_Ret | apply precedingCharsLoop_safe; exact Hg]. }
  intros chars _.
  repeat (match goal with
          | |- safe (getNextPossibleCharacter _ _) =>
              apply getNextPossibleCharacterLoop_safe; exact Hg
          | _ => safe_step
          end).
Qed.

(** *** The iterator *)

Definition itGood (tcb : bool) (it : CharacterIterator) : Prop :=
  match pos it with
  | Some p => good tcb p
  | None => finished it = true \/ backward it = true
  end.

Lemma iteratorStep_safe (tcb : bool) (it : CharacterIterator) :
  itGood tcb it -> safe (iteratorStep tcb it).
Proof.
  unfold itGood, iteratorStep. intros Hg.
  destruct (finished it) eqn:Hf; [apply safe_Ret|].
  destruct (backward it) eqn:Hb; cbn [negb].
  - apply safe_bind; [apply safe_Ret | intros pos1 E; inv E].
    destruct (pos it) as [p|].
    + apply safe_bind.
      * apply safe_bind; [apply getCharacterAt_safe; exact Hg | intros; apply safe_Ret].
      * intros [textPos finished1] _.
        apply safe_bind; [apply previousVisiblePosition_safe; exact Hg | intros; apply safe_Ret].
    + cbn. apply safe_Ret.
  - destruct (pos it) as [p|]; [|destruct Hg; discriminate].
    apply safe_bind; [apply nextVisiblePosition_safe; exact Hg | intros pos1 E].
    apply safe_bind.
    + destruct pos1 as [q|]; [|apply safe_Ret].
      pose proof (nextVisiblePosition_good _ _ _ Hg E).
      apply safe_bind; [apply getCharacterAt_safe; assumption | intros; apply safe_Ret].
    + intros [textPos finished1] _. apply safe_bind; [apply safe_Ret | intros; apply safe_Ret].
Qed.

Lemma iteratorStep_good (tcb : bool) (it : CharacterIterator) r :
  itGood tcb it -> iteratorStep tcb it = Ret r -> itGood tcb (snd r).
Proof.
  unfold iteratorStep. intros Hg H.
  destruct (finished it) eqn:Hf; [inv H; exact Hg|].
  unfold itGood in *.
  destruct (backward it) eqn:Hb; cbn [negb bind] in H.
  - unbind H. destruct a as [textPos finished1]. unbind H. inv H.
    cbn [snd pos finished backward]. destruct a as [q|]; [|right; reflexivity].
    destruct (pos it) as [p|]; [|discriminate].
    eapply previousVisiblePosition_good; eassumption.
  - destruct (pos it) as [p|]; [|discriminate].
    unbind H. unbind H. destruct a0 as [textPos finished1]. cbn [bind] in H. inv H.
    cbn [snd pos finished backward]. destruct a as [q|].
    + eapply nextVisiblePosition_good; eassumption.
    + inv Hc0. left. reflexivity.
Qed.

Lemma iteratorNextLoop_safe (tcb : bool) : forall fuel it,
  itGood tcb it -> safe (iteratorNextLoop tcb fuel it).
Proof.
  induction fuel as [|fuel IH]; intros it Hg; [apply safe_OutOfFuel|].
  cbn [iteratorNextLoop].
  apply safe_bind; [apply iteratorStep_safe; exact Hg | intros [textPos it1] E].
  pose proof (iteratorStep_good _ _ _ Hg E) as Hg1. cbn [snd] in Hg1.
  destruct textPos as [t|]; [|apply safe_Ret].
  destruct (truthy (character t)); [apply safe_Ret | apply IH; exact Hg1].
Qed.

Lemma iteratorNextLoop_good (tcb : bool) : forall fuel it r,
  itGood tcb it -> iteratorNextLoop tcb fuel it = Ret r -> itGood tcb (snd r).
Proof.
  induction fuel as [|fuel IH]; intros it r Hg H; [discriminate|].
  cbn [iteratorNextLoop] in H. unbind H. destruct a as [textPos it1].
  pose proof (iteratorStep_good _ _ _ Hg Hc) as Hg1. cbn [snd] in Hg1.
  destruct textPos as [t|]; [|inv H; exact Hg1].
  destruct (truthy (character t)); [inv H; exact Hg1 | eapply IH; eassumption].
Qed.

Lemma iteratorNext_safe (tcb : bool) (it : CharacterIterator) :
  itGood tcb it -> safe (iteratorNext tcb it).
Proof.
  intros Hg. unfold iteratorNext. destruct (returnPreviousTextPos it); [apply safe_Ret|].
  apply iteratorNextLoop_safe. exact Hg.
Qed.

Lemma iteratorNext_good (tcb : bool) (it : CharacterIterator) r :
  itGood tcb it -> iteratorNext tcb it = Ret r -> itGood tcb (snd r).
Proof.
  unfold iteratorNext. intros Hg H. destruct (returnPreviousTextPos it).
  - inv H. exact Hg.
  - eapply iteratorNextLoop_good; eassumption.
Qed.

Lemma collectCharacters_safe (tcb : bool) : forall fuel it chars,
  itGood tcb it -> safe (collectCharacters tcb fuel it chars).
Proof.
  induction fuel as [|fuel IH]; intros it chars Hg; [apply safe_OutOfFuel|].
  cbn [collectCharacters].
  apply safe_bind; [apply iteratorNext_safe; exact Hg | intros [textPos it1] E].
  pose proof (iteratorNext_good _ _ _ Hg E) as Hg1. cbn [snd] in Hg1.
  destruct textPos as [t|]; [apply IH; exact Hg1 | apply safe_Ret].
Qed.

Lemma createCharacterIterator_safe (tcb : bool) (startPos : DomPosition) (back : bool)
      (e : option DomPosition) (opts : CharacterOptions) :
  (forall p, e = Some p -> good tcb p) ->
  safe (createCharacterIterator tcb startPos back e opts).
Proof.
  intros He. unfold createCharacterIterator.
  apply safe_bind; [|intros; apply safe_Ret].
  destruct e as [p|]; [|apply safe_Ret]. specialize (He p eq_refl).
  destruct He as [n [Hn [Hw Hle]]]. unfold isCollapsedNodeOf. rewrite Hn.
  assert (Hg : good tcb p) by (exists n; auto).
  apply safe_bind; [apply isCollapsedNode_safe; exact Hw | intros c _].
  destruct c; [|apply safe_Ret].
  destruct back; [apply previousVisiblePosition_safe | apply nextVisiblePosition_safe]; exact Hg.
Qed.

Lemma createCharacterIterator_good (tcb : bool) (startPos : DomPosition) (back : bool)
      (e : option DomPosition) (opts : CharacterOptions) (it : CharacterIterator) :
  good tcb startPos -> createCharacterIterator tcb startPos back e opts = Ret it ->
  itGood tcb it.
Proof.
  unfold createCharacterIterator. intros Hg H. unbind H. inv H. exact Hg.
Qed.

(** A range of a well-formed document, with its offsets in its nodes. *)
Definition properRange (tcb : bool) (range : Range) : Prop :=
  htmlDocument tcb (documentOf (startContainer range)) = true
  /\ documentOf (endContainer range) = documentOf (startContainer range)
  /\ startOffset range <= getNodeLength (startContainer range)
  /\ endOffset range <= getNodeLength (endContainer range).

Lemma properRange_good (tcb : bool) (range : Range) :
  properRange tcb range ->
  good tcb (getRangeStartPosition range) /\ good tcb (getRangeEndPosition range).
Proof.
  intros [H1 [H2 [H3 H4]]]. split.
  - exists (startContainer range). auto.
  - exists (endContainer range). split; [reflexivity|]. split; [|exact H4].
    unfold wf. rewrite H2. exact H1.
Qed.

Lemma getRangeCharacters_safe (tcb : bool) (range : Range) (opts : CharacterOptions) :
  properRange tcb range -> safe (getRangeCharacters tcb range opts).
Proof.
  intros Hp. destruct (properRange_good _ _ Hp) as [Hs He].
  unfold getRangeCharacters, createRangeCharacterIterator.
  apply safe_bind.
  - apply createCharacterIterator_safe. intros p E. inv E. exact He.
  - intros it E. apply collectCharacters_safe.
    exact (createCharacterIterator_good _ _ _ _ _ _ Hs E).
Qed.

(** X18. In a well-formed document (a document node whose children are
    block elements and nodes without children that are no text nodes, with
    no document type node after an element; below them elements, text,
    comments and processing instructions only, and no text directly in an
    element with [white-space: pre-line]) [range.text()] returns a string for
    every range whose offsets lie in its containers: nothing raises, and
    every loop ends. *)
Theorem text_returns (tcb : bool) (range : Range) (co : option CharacterOptions) :
  htmlDocument tcb (documentOf (startContainer range)) = true ->
  documentOf (endContainer range) = documentOf (startContainer range) ->
  startOffset range <= getNodeLength (startContainer range) ->
  endOffset range <= getNodeLength (endContainer range) ->
  exists T, text tcb range co = Ret T.
Proof.
  intros H1 H2 H3 H4. apply returns; [apply text_ends; exact H3|].
  unfold text. destruct (collapsed range); [apply safe_Ret|].
  apply safe_bind; [|intros; apply safe_Ret].
  apply getRangeCharacters_safe. repeat split; assumption.
Qed.

Lemma text_returns_witness :
  htmlDocument false (documentOf (startContainer (selectNodeContents (at_path hiddenSpanDoc [0; 0; 0])))) = true
  /\ exists T, text false (selectNodeContents (at_path hiddenSpanDoc [0; 0; 0])) None = Ret T.
Proof.
  assert (H : htmlDocument false (documentOf (startContainer (selectNodeContents (at_path hiddenSpanDoc [0; 0; 0]))))
              = true) by (vm_compute; reflexivity).
  split; [exact H|].
  apply (text_returns false (selectNodeContents (at_path hiddenSpanDoc [0; 0; 0])) None H).
  - reflexivity.
  - vm_compute. lia.
  - vm_compute. lia.
Defined.

(** *** Character ranges *)

Lemma setStart_proper (tcb : bool) (range : Range) (n : Loc) (o : nat) :
  properRange tcb range -> documentOf n = documentOf (startContainer range) ->
  (nodeType n =? 10) = false -> o <= getNodeLength n ->
  exists r, setStart range (Some n) o = Ret r /\ properRange tcb r.
Proof.
  intros [H1 [H2 [H3 H4]]] Hd Ht Hle. unfold setStart. rewrite Ht.
  apply Nat.ltb_ge in Hle. rewrite Hle. apply Nat.ltb_ge in Hle.
  destruct (_ =? 1)%Z; eexists; (split; [reflexivity|]); unfold properRange; cbn;
    rewrite ?Hd; repeat split; auto.
Qed.

Lemma setEnd_proper (tcb : bool) (range : Range) (n : Loc) (o : nat) :
  properRange tcb range -> documentOf n = documentOf (startContainer range) ->
  (nodeType n =? 10) = false -> o <= getNodeLength n ->
  exists r, setEnd range (Some n) o = Ret r /\ properRange tcb r.
Proof.
  intros [H1 [H2 [H3 H4]]] Hd Ht Hle. unfold setEnd. rewrite Ht.
  apply Nat.ltb_ge in Hle. rewrite Hle. apply Nat.ltb_ge in Hle.
  destruct (_ =? -1)%Z; eexists; (split; [reflexivity|]); unfold properRange; cbn;
    rewrite ?Hd; repeat split; auto.
Qed.

Lemma text_proper (tcb : bool) (range : Range) (co : option CharacterOptions) :
  properRange tcb range -> exists T, text tcb range co = Ret T.
Proof.
  intros Hp. pose proof Hp as [H1 [H2 [H3 H4]]].
  apply returns; [apply text_ends; exact H3|].
  unfold text. destruct (collapsed range); [apply safe_Ret|].
  apply safe_bind; [|intros; apply safe_Ret].
  apply getRangeCharacters_safe. exact Hp.
Qed.

(** X19. In a well-formed document [toCharacterRange] returns a
    character range for every range with its offsets in its containers and
    every container node that has a parent. *)
Theorem toCharacterRange_returns (tcb : bool) (range : Range) (containerNode parent : Loc)
        (co : option CharacterOptions) :
  htmlDocument tcb (documentOf (startContainer range)) = true ->
  documentOf (endContainer range) = documentOf (startContainer range) ->
  startOffset range <= getNodeLength (startContainer range) ->
  endOffset range <= getNodeLength (endContainer range) ->
  nodeType (startContainer range) <> 10 ->
  documentOf containerNode = documentOf (startContainer range) ->
  parentNode containerNode = Some parent ->
  exists cr, toCharacterRange tcb range containerNode co = Ret cr.
Proof.
  intros H1 H2 H3 H4 Ht Hd Hpar.
  assert (Hp : properRange tcb range) by (repeat split; assumption).
  apply Nat.eqb_neq in Ht.
  assert (Hpd : documentOf parent = documentOf (startContainer range))
    by (rewrite (documentOf_parent _ _ Hpar); exact Hd).
  pose proof (parent_nodeType _ _ Hpar) as Hpt.
  assert (Hpi : getNodeIndex containerNode <= getNodeLength parent)
    by (destruct (rank_up _ _ Hpar); lia).
  destruct (text_proper tcb range co Hp) as [T HT].
  unfold toCharacterRange. rewrite Hpar.
  destruct (_ =? -1)%Z.
  - destruct (setStart_proper tcb range (startContainer range) (startOffset range) Hp
                eq_refl Ht H3) as [r1 [E1 P1]].
    assert (D1 : documentOf parent = documentOf (startContainer r1)).
    { apply setStart_start in E1 as E. destruct E as [E _]. rewrite E. exact Hpd. }
    destruct (setEnd_proper tcb r1 parent (getNodeIndex containerNode) P1 D1 Hpt Hpi)
      as [r2 [E2 P2]].
    destruct (text_proper tcb r2 co P2) as [T2 HT2].
    rewrite E1. cbn [bind]. rewrite E2. cbn [bind]. rewrite HT2. cbn [bind]. rewrite HT.
    cbn [bind]. eauto.
  - destruct (setStart_proper tcb range parent (getNodeIndex containerNode) Hp Hpd Hpt Hpi)
      as [r1 [E1 P1]].
    assert (D1 : documentOf (startContainer range) = documentOf (startContainer r1)).
    { apply setStart_start in E1 as E. destruct E as [E _]. rewrite E. symmetry. exact Hpd. }
    destruct (setEnd_proper tcb r1 (startContainer range) (startOffset range) P1 D1 Ht H3)
      as [r2 [E2 P2]].
    destruct (text_proper tcb r2 co P2) as [T2 HT2].
    rewrite E1. cbn [bind]. rewrite E2. cbn [bind]. rewrite HT2. cbn [bind]. rewrite HT.
    cbn [bind]. eauto.
Qed.

Lemma toCharacterRange_returns_witness :
  exists cr, toCharacterRange false (selectNodeContents doubleSpaceText) doubleSpaceDiv None
             = Ret cr.
Proof.
  apply (toCharacterRange_returns false (selectNodeContents doubleSpaceText) doubleSpaceDiv
           (at_path doubleSpaceDoc [0; 0]) None).
  - vm_compute. reflexivity.
  - reflexivity.
  - vm_compute. lia.
  - vm_compute. lia.
  - vm_compute. lia.
  - vm_compute. reflexivity.
  - vm_compute. reflexivity.
Defined.

(** ** Documents on which [selectCharacters] returns *)

(** *** Runs in a well-formed document *)

Lemma good_at (tcb : bool) (n : Loc) (o : nat) :
  wf tcb n -> o <= getNodeLength n -> good tcb (posAt n o).
Proof. intros Hw Hle. exists n. auto. Qed.

Lemma Run_good (tcb : bool) (opts : CharacterOptions) (p q : DomPosition) (l : list TextPosition) :
  Run tcb opts p l q -> good tcb p -> good tcb q.
Proof.
  induction 1 as [p|p q t l r Hn Hc Hr IH]; intros Hg; [exact Hg|].
  apply IH. eapply nextVisiblePosition_good; eassumption.
Qed.

Lemma good_step_code (tcb : bool) (p q : DomPosition) :
  good tcb p -> nextVisiblePosition tcb p = Ret (Some q) -> good tcb q ->
  lexlt (codeP p) (codeP q)
  /\ forall n m, node p = Some n -> node q = Some m -> documentOf m = documentOf n.
Proof.
  intros [n [Hn [Hw Hle]]] H [m [Hm _]].
  destruct p as [pn o], q as [qn o']. cbn [node offset] in *. subst pn qn.
  destruct (nextVisiblePosition_step tcb n o m o' Hle H) as [_ [H2 [_ H4]]].
  split; [exact H2|]. intros n0 m0 E1 E2. inv E1. inv E2. exact H4.
Qed.

Lemma Run_code (tcb : bool) (opts : CharacterOptions) (p q : DomPosition) (l : list TextPosition) :
  Run tcb opts p l q -> good tcb p ->
  (l <> [] -> lexlt (codeP p) (codeP q))
  /\ forall n m, node p = Some n -> node q = Some m -> documentOf m = documentOf n.
Proof.
  induction 1 as [p|p q t l r Hn Hc Hr IH]; intros Hg.
  - split; [congruence|]. intros n m E1 E2. congruence.
  - pose proof (nextVisiblePosition_good _ _ _ Hg Hn) as Hgq.
    destruct (good_step_code _ _ _ Hg Hn Hgq) as [H1 H2].
    destruct (IH Hgq) as [H3 H4]. split.
    + intros _. destruct l as [|t' l].
      * apply Run_nil_inv in Hr. subst r. exact H1.
      * eapply lexlt_trans; [exact H1 | apply H3; discriminate].
    + intros n m E1 E2. destruct Hgq as [x [Hx _]].
      rewrite (H4 x m Hx E2). apply H2; assumption.
Qed.

(** A text position the iterator has given: it has a character, and it is
    what [getCharacterAt] finds at its position. *)
Definition given (tcb : bool) (opts : CharacterOptions) (t : TextPosition) : Prop :=
  shown t = true /\ getCharacterAt tcb (position t) None opts = Ret t.

Lemma Run_given (tcb : bool) (opts : CharacterOptions) (p q : DomPosition)
      (l : list TextPosition) (t : TextPosition) :
  Run tcb opts p (l ++ [t]) q -> shown t = true -> q = position t /\ given tcb opts t.
Proof.
  intros Hr Hs. destruct (Run_split _ _ _ _ _ _ Hr) as [q' [_ H2]].
  destruct (Run_cons_inv _ _ _ _ _ _ H2) as [q0 [_ [Hc [Hp Hr']]]].
  apply Run_nil_inv in Hr'. subst q. split; [symmetry; exact Hp|].
  split; [exact Hs|]. rewrite Hp. exact Hc.
Qed.

(** What the loop of [movePositionBy] hands over: the last character moved
    over and the one after it. *)
Lemma moveCharacterLoop_result (tcb : bool) (opts : CharacterOptions) :
  forall F p prev a u cur u' newT nextT,
    moveCharacterLoop tcb F (fwd opts None p false prev) a u cur = Ret (u', newT, nextT) ->
    good tcb p ->
    (forall t, cur = Some t -> position t = p /\ given tcb opts t) ->
    (newT = None -> cur = None)
    /\ (forall t, newT = Some t -> good tcb (position t) /\ given tcb opts t)
    /\ (forall nx, nextT = Some nx ->
          given tcb opts nx
          /\ exists l, Run tcb opts (match newT with Some t => position t | None => p end)
                           (l ++ [nx]) (position nx)).
Proof.
  induction F as [|F IH]; intros p prev a u cur u' newT nextT H Hg Hcur; [discriminate|].
  cbn [moveCharacterLoop] in H. rewrite iteratorNext_fwd in H.
  destruct (iteratorNextLoop tcb (posFuel p) (fwd opts None p false prev)) as [[res it']| |] eqn:Hn;
    cbn [bind] in H; try discriminate.
  assert (Hbase : (cur = None -> cur = None)
                  /\ (forall t, cur = Some t -> good tcb (position t) /\ given tcb opts t)).
  { split; [auto|]. intros t E. destruct (Hcur t E) as [E1 E2]. rewrite E1. auto. }
  apply iteratorNextLoop_inv in Hn.
  destruct Hn as [l t q Hr Hb Hu Ht | l t q Hr Hb Hu Hh | l q Hr Hb Hu He].
  - destruct (Run_given _ _ _ _ _ _ Hr Ht) as [Hq Hgiven].
    pose proof (Run_good _ _ _ _ _ Hr Hg) as Hgq.
    destruct (u <? a).
    + change (here None q) with false in H.
      apply IH in H; [|exact Hgq|intros t0 E; inv E; auto].
      destruct H as [R0 [R1 R2]]. split; [|split].
      * intros E. apply R0 in E. discriminate.
      * exact R1.
      * intros nx E. destruct (R2 nx E) as [G [l' Hr']]. split; [exact G|].
        exists l'. destruct newT as [t'|]; [exact Hr'|]. specialize (R0 eq_refl). discriminate.
    + inv H. destruct Hbase as [B0 B1]. split; [exact B0|]. split; [exact B1|].
      intros nx E. inv E. split; [exact Hgiven|]. exists l.
      destruct newT as [t0|]; [|exact Hr]. destruct (Hcur t0 eq_refl) as [E1 _].
      rewrite E1. exact Hr.
  - discriminate.
  - inv H. destruct Hbase as [B0 B1]. split; [exact B0|]. split; [exact B1|].
    intros nx E. discriminate.
Qed.

(** *** Where a character can be *)

Lemma getCharacterAt_shown (tcb : bool) (p : DomPosition) (pre : option (list TextPosition))
      (opts : CharacterOptions) (t : TextPosition) :
  getCharacterAt tcb p pre opts = Ret t -> shown t = true -> 0 < offset p.
Proof.
  intros H Hs. destruct (offset p) as [|o] eqn:E; [|lia]. exfalso.
  unfold getCharacterAt, getPossibleCharacterAt in H. rewrite E in H. cbn in H. inv H.
  discriminate.
Qed.

Lemma getPossibleCharacterAt_leading (tcb : bool) (p : DomPosition) (o : option CharacterOptions)
      (t : TextPosition) :
  getPossibleCharacterAt tcb p o = Ret t -> isLeadingSpace t = true ->
  exists n E, node p = Some n /\ childNode n (offset p) = Some E /\ nodeType E = 1.
Proof.
  unfold getPossibleCharacterAt. intros H Hl.
  destruct (0 <? offset p); [|inv H; discriminate].
  destruct (node p) as [n|]; [|discriminate].
  destruct (focus n) as [sh cs|d|d|tg d|nm].
  2:{ exfalso. steps; cbn in Hl; discriminate. }
  all: unbind H;
    assert (Hp : isLeadingSpace a = false)
      by (clear H; steps; reflexivity);
    destruct (negb (truthy (character a))); [|inv H; congruence];
    destruct (childNode n (offset p)) as [E|] eqn:HE; [|inv H; congruence];
    destruct (nodeType E =? 1) eqn:Ht; [|inv H; congruence];
    apply Nat.eqb_eq in Ht; exists n, E; auto.
Qed.

Lemma getCharacterAt_leading (tcb : bool) (p : DomPosition) (pre : option (list TextPosition))
      (opts : CharacterOptions) (t : TextPosition) :
  getCharacterAt tcb p pre opts = Ret t -> isLeadingSpace t = true ->
  exists n E, node p = Some n /\ childNode n (offset p) = Some E /\ nodeType E = 1.
Proof.
  unfold getCharacterAt. intros H Hl. unbind H.
  assert (Hposs : isLeadingSpace a = true).
  { destruct (_ && _); [|inv H; exact Hl]. unbind H. steps; exact Hl. }
  eapply getPossibleCharacterAt_leading; eassumption.
Qed.

(** One step back from a position with a positive offset: there is a
    position, and its node is the child passed or no document type. *)
Lemma previousVisiblePosition_back (tcb : bool) (p : DomPosition) (r : option DomPosition) :
  good tcb p -> 0 < offset p -> previousVisiblePosition tcb (Some p) = Ret r ->
  exists q m, r = Some q /\ node q = Some m
              /\ ((nodeType m =? 10) = false
                  \/ exists n, node p = Some n /\ childNode n (offset p - 1) = Some m).
Proof.
  intros Hg Hpos H. pose proof Hg as [n [Hn [Hw Hle]]].
  assert (Hup : forall x c k, wf tcb x -> isCollapsedNode tcb x = Ret c ->
            (c = true \/ (nodeType x =? 10) = false) ->
            (if c then Ret (Some (mkPos (parentNode x) (getNodeIndex x)))
             else Ret (Some (posAt x k)))
            = Ret r ->
            exists q m, r = Some q /\ node q = Some m /\ (nodeType m =? 10) = false).
  { intros x c k Hx Hc Hor E. destruct c.
    - destruct (collapsed_has_parent tcb x Hx Hc) as [y Hy]. rewrite Hy in E. inv E.
      eexists _, y. split; [reflexivity|]. split; [reflexivity|].
      eapply parent_nodeType. eassumption.
    - destruct Hor as [Hor|Hor]; [discriminate|]. inv E.
      eexists _, x. split; [reflexivity|]. split; [reflexivity | exact Hor]. }
  unfold previousVisiblePosition, previousPosition in H. rewrite Hn in H.
  assert (E0 : (offset p =? 0) = false) by (apply Nat.eqb_neq; lia). rewrite E0 in H.
  destruct (isCharacterDataNode n) eqn:Hcd.
  - cbn [bind] in H. unfold isCollapsedNodeOf in H. cbn [node posAt] in H. unbind H.
    destruct (Hup n a (offset p - 1) Hw Hc) as [q [m [H1 [H2 H3]]]].
    + right. unfold isCharacterDataNode in Hcd. destruct (nodeType n) as [|[|[|[|[|[|[|[|[|[|[|k]]]]]]]]]]];
        try reflexivity; discriminate.
    + exact H.
    + exists q, m. auto.
  - assert (Hc : exists c, childNode n (offset p - 1) = Some c)
      by (apply childNode_exists; [assumption | lia | lia]).
    destruct Hc as [c Hc]. rewrite Hc in H. pose proof (wf_child _ _ _ _ Hw Hc) as Hwc.
    destruct (parentNode_childNode _ _ _ Hc) as [Hpc _].
    destruct (containsPositions c).
    + cbn [bind] in H. unfold isCollapsedNodeOf in H. cbn [node posAt] in H. unbind H.
      destruct a.
      * rewrite Hpc in H. inv H. eexists _, n. split; [reflexivity|]. split; [reflexivity|].
        left. eapply parent_nodeType. eassumption.
      * inv H. eexists _, c. split; [reflexivity|]. split; [reflexivity|].
        right. exists n. auto.
    + cbn [bind] in H. unfold isCollapsedNodeOf in H. cbn [node posAt] in H. unbind H.
      destruct (Hup n a (offset p - 1) Hw Hc0) as [q [m [H1 [H2 H3]]]].
      * right. eapply parent_nodeType. eassumption.
      * exact H.
      * exists q, m. auto.
Qed.

(** *** No document type node after an element *)

Definition isInner (n : Node) : bool := match n with Inner _ _ => true | _ => false end.

Lemma doctypeFirst_order : forall cs i j X D,
  doctypeFirst cs = true -> nth_error cs i = Some X -> nth_error cs j = Some D ->
  i < j -> isInner X = true -> isDoctype D = false.
Proof.
  induction cs as [|c r IH]; intros i j X D Hd Hi Hj Hlt HX; [destruct i; discriminate|].
  destruct j as [|j]; [lia|]. cbn [nth_error] in Hj.
  assert (Hall : forallb (fun c => negb (isDoctype c)) r = true -> isDoctype D = false).
  { intros Hf. rewrite forallb_forall in Hf. apply negb_true_iff. apply Hf.
    eapply nth_error_In. eassumption. }
  destruct i as [|i].
  - cbn [nth_error] in Hi. inv Hi. destruct X; try discriminate. apply Hall. exact Hd.
  - cbn [nth_error] in Hi. destruct c; try (apply Hall; exact Hd);
      (eapply IH; [exact Hd | exact Hi | exact Hj | lia | exact HX]).
Qed.

Lemma rootNode_inner (fs : list Frame) : forall foc,
  isInner foc = true -> isInner (rootNode foc fs) = true.
Proof. induction fs as [|f fs IH]; intros foc H; [exact H | apply IH; reflexivity]. Qed.

Lemma nth_error_middle {A} (l : list A) (x : A) (r : list A) :
  nth_error (rev l ++ x :: r) (length l) = Some x.
Proof.
  rewrite nth_error_app2 by (rewrite length_rev; lia).
  rewrite length_rev, Nat.sub_diag. reflexivity.
Qed.

(** The top-level child above a node that has children: it is a node with
    children, at the index the code of the node starts with. *)
Lemma top_child (n : Loc) (o : nat) (E : Loc) (cs : list Node) (sh : Shell) :
  childNode n o = Some E -> nodeType E = 1 -> documentOf n = Inner sh cs ->
  exists i X rest, nth_error cs i = Some X /\ isInner X = true
                   /\ (code n o = 2 * i :: rest \/ code n o = 2 * i + 1 :: rest).
Proof.
  intros HE Ht Hd.
  assert (Hin : isInner (focus n) = true).
  { unfold childNode in HE. destruct (focus n); try discriminate. reflexivity. }
  destruct (context n) as [|f0 fs] eqn:Hc using rev_ind.
  - unfold documentOf in Hd. rewrite Hc in Hd. cbn [rootNode] in Hd.
    unfold childNode in HE. rewrite Hd in HE.
    destruct (nth_error cs o) as [x|] eqn:Hx; [|discriminate]. inv HE.
    exists o, x, []. split; [exact Hx|]. split.
    + unfold nodeType in Ht. cbn [focus] in Ht. destruct x as [[| |] ?| | | |]; try discriminate.
      reflexivity.
    + left. unfold code, codeOf, pathOf. rewrite Hc. reflexivity.
  - clear IHfs. unfold documentOf in Hd. rewrite Hc, rootNode_app in Hd. cbn [rootNode] in Hd.
    inv Hd. exists (length (lefts f0)), (rootNode (focus n) fs), (map (fun k => 2 * k + 1) (rev (map (fun f => length (lefts f)) fs)) ++ [2 * o]).
    split; [apply nth_error_middle|]. split; [apply rootNode_inner; exact Hin|].
    right. unfold code, codeOf, pathOf. rewrite Hc, map_app, rev_app_distr. reflexivity.
Qed.

(** In a well-formed document no position before which a document type
    node lies comes after a position in front of an element. *)
Lemma no_doctype_between (tcb : bool) (n' n E D : Loc) (o' k : nat) :
  wf tcb n' -> documentOf n = documentOf n' ->
  childNode n' o' = Some E -> nodeType E = 1 ->
  childNode n (k - 1) = Some D -> 0 < k -> nodeType D = 10 ->
  lexlt (code n' o') (code n k) -> False.
Proof.
  intros Hw Hdoc HE HtE HD Hk HtD Hlt.
  assert (Hwn : wf tcb n) by (unfold wf; rewrite Hdoc; exact Hw).
  assert (HfD : exists nm, focus D = DocumentType nm).
  { unfold nodeType in HtD. destruct (focus D) as [[| |] ?| | | |]; try discriminate. eauto. }
  destruct HfD as [nm HfD].
  (* the node before which the document type lies is the document *)
  assert (Hroot : context n = []).
  { pose proof (wf_child _ _ _ _ Hwn HD) as HwD. unfold wf, documentOf in HwD.
    apply wf_placed in HwD. destruct (parentNode_childNode _ _ _ HD) as [Hp _].
    unfold parentNode in Hp. destruct (context D) as [|f up] eqn:HcD; [discriminate|].
    inv Hp. cbn [context]. destruct up as [|g up']; [reflexivity|]. exfalso.
    cbn [placed] in HwD. unfold plainUnder in HwD. rewrite HfD in HwD.
    destruct (shell f); discriminate. }
  assert (Hdn : documentOf n = focus n) by (unfold documentOf; rewrite Hroot; reflexivity).
  unfold wf in Hwn. unfold htmlDocument in Hwn.
  destruct (documentOf n) as [[| |] cs| | | |] eqn:Hcs; try discriminate.
  apply andb_true_iff in Hwn. destruct Hwn as [_ Hfirst].
  assert (HnD : nth_error cs (k - 1) = Some (focus D)).
  { unfold childNode in HD. rewrite <- Hdn in HD.
    destruct (nth_error cs (k - 1)) as [x|]; [|discriminate]. inv HD. reflexivity. }
  assert (Hcode : code n k = [2 * k]).
  { unfold code, codeOf, pathOf. rewrite Hroot. reflexivity. }
  rewrite Hcode in Hlt. symmetry in Hdoc.
  destruct (top_child n' o' E cs DocumentShell HE HtE Hdoc) as [i [X [rest [Hi [HX Hc]]]]].
  assert (Hik : i < k).
  { destruct Hc as [Hc|Hc]; rewrite Hc in Hlt; inversion Hlt; subst; try lia.
    all: match goal with H : lexlt _ [] |- _ => inversion H end. }
  assert (Hne : i <> k - 1).
  { intros ->. rewrite HnD in Hi. inv Hi. rewrite HfD in HX. discriminate. }
  assert (Hf : isDoctype (focus D) = false).
  { apply (doctypeFirst_order cs i (k - 1) X (focus D)); auto. lia. }
  rewrite HfD in Hf. discriminate.
Qed.

(** *** Moving forward *)

(** A position a boundary of a range can be set to. *)
Definition landed (tcb : bool) (q : DomPosition) : Prop :=
  good tcb q /\ exists m, node q = Some m /\ (nodeType m =? 10) = false.

Lemma moveCharacterLoop_safe (tcb : bool) : forall fuel it absCount unitsMoved newTextPos,
  itGood tcb it -> safe (moveCharacterLoop tcb fuel it absCount unitsMoved newTextPos).
Proof.
  induction fuel as [|fuel IH]; intros it absCount unitsMoved newTextPos Hg;
    [apply safe_OutOfFuel|].
  cbn [moveCharacterLoop].
  apply safe_bind; [apply iteratorNext_safe; exact Hg | intros [textPos it1] E].
  pose proof (iteratorNext_good _ _ _ Hg E) as Hg1. cbn [snd] in Hg1.
  destruct textPos as [t|]; [|apply safe_Ret].
  destruct (unitsMoved <? absCount); [apply IH; exact Hg1 | apply safe_Ret].
Qed.

Lemma given_landed (tcb : bool) (opts : CharacterOptions) (t : TextPosition) :
  good tcb (position t) -> given tcb opts t -> landed tcb (position t).
Proof.
  intros Hg [Hs Hc]. split; [exact Hg|]. destruct Hg as [m [Hm [_ Hle]]].
  exists m. split; [exact Hm|]. pose proof (getCharacterAt_shown _ _ _ _ _ Hc Hs) as Hpos.
  unfold nodeType, getNodeLength in *. destruct (focus m) as [[| |] ?| | | |]; try reflexivity.
  simpl in Hle. lia.
Qed.

Lemma movePositionBy_forward (tcb : bool) (p : DomPosition) (count : Z)
      (co : CharacterOptions) (wo : WordOptions) :
  (0 <= count)%Z -> landed tcb p ->
  exists mr q, movePositionBy tcb p CHARACTER count co wo = Ret mr
               /\ movedPosition mr = Some q /\ landed tcb q.
Proof.
  intros Hcount Hl. pose proof Hl as [Hg _].
  unfold movePositionBy. destruct (count =? 0)%Z eqn:E0; cbn [negb].
  { eexists _, p. split; [reflexivity|]. split; [reflexivity | exact Hl]. }
  assert (Hb : (count <? 0)%Z = false) by (apply Z.ltb_ge; exact Hcount). rewrite Hb.
  change (String.eqb CHARACTER CHARACTER) with true. cbn iota.
  change (String.eqb CHARACTER WORD) with false. cbn iota.
  change (createCharacterIterator tcb p false None co) with (Ret (fwd co None p false None)).
  cbn [bind].
  assert (Hloop : exists res, moveCharacterLoop tcb (posFuel p + 2) (fwd co None p false None)
                                (Z.abs_nat count) 0 None = Ret res).
  { apply returns.
    - apply moveCharacterLoop_ends; [exact (good_inNode _ _ Hg)|].
      assert (Hi : itValid (fwd co None p false None)) by exact (good_inNode _ _ Hg).
      pose proof (togo_fuel _ Hi) as Hf. unfold weight. cbn [returnPreviousTextPos fwd].
      change (iteratorFuel (fwd co None p false None)) with (posFuel p) in Hf. lia.
    - apply moveCharacterLoop_safe. exact Hg. }
  destruct Hloop as [[[u' newT] nextT] Hloop]. rewrite Hloop. cbn [bind].
  destruct (moveCharacterLoop_result _ _ _ _ _ _ _ _ _ _ _ Hloop Hg) as [_ [R1 R2]];
    [discriminate|].
  destruct newT as [t|]; [|eexists _, p; split; [reflexivity|]; split; [reflexivity | exact Hl]].
  destruct (R1 t eq_refl) as [Hgt Hgiven].
  pose proof (given_landed _ _ _ Hgt Hgiven) as Hlt.
  destruct (isLeadingSpace t) eqn:Hlead;
    [|eexists _, _; split; [reflexivity|]; split; [reflexivity | exact Hlt]].
  cbn [bind].
  destruct nextT as [nx|];
    [|eexists _, _; split; [reflexivity|]; split; [reflexivity | exact Hlt]].
  destruct (R2 nx eq_refl) as [[Hsn Hcn] [l Hrun]].
  pose proof (Run_good _ _ _ _ _ Hrun Hgt) as Hgn.
  pose proof (getCharacterAt_shown _ _ _ _ _ Hcn Hsn) as Hposn.
  destruct (returns (previousVisiblePosition tcb (Some (position nx))))
    as [r Hr]; [apply previousVisiblePosition_ends | apply previousVisiblePosition_safe; exact Hgn|].
  rewrite Hr. cbn [bind].
  destruct (previousVisiblePosition_back _ _ _ Hgn Hposn Hr) as [q [m [-> [Hm Hor]]]].
  eexists _, q. split; [reflexivity|]. split; [reflexivity|].
  split; [eapply previousVisiblePosition_good; eassumption|].
  exists m. split; [exact Hm|].
  destruct Hor as [Hor|[n [Hn HD]]]; [exact Hor|].
  destruct (nodeType m =? 10) eqn:HtD; [|reflexivity]. exfalso. apply Nat.eqb_eq in HtD.
  destruct Hgiven as [_ Hct].
  destruct (getCharacterAt_leading _ _ _ _ _ Hct Hlead) as [n' [E [Hn' [HE HtE]]]].
  destruct (Run_code _ _ _ _ _ Hrun Hgt) as [Hcode Hdoc].
  assert (Hne : l ++ [nx] <> []) by (destruct l; discriminate).
  specialize (Hcode Hne). unfold codeP in Hcode. rewrite Hn', Hn in Hcode.
  destruct Hgt as [x [Hx [Hwx _]]]. rewrite Hn' in Hx. inv Hx.
  exact (no_doctype_between tcb x n E m _ _ Hwx (Hdoc x n Hn' Hn) HE HtE HD Hposn HtD Hcode).
Qed.

Lemma setStart_landed (tcb : bool) (range : Range) (q : DomPosition) :
  landed tcb q ->
  exists r, setStart range (node q) (offset q) = Ret r
            /\ getRangeStartPosition r = q.
Proof.
  intros [[n [Hn [_ Hle]]] [m [Hm Ht]]]. rewrite Hn in Hm. inv Hm.
  unfold setStart. rewrite Hn, Ht. apply Nat.ltb_ge in Hle. rewrite Hle.
  destruct q as [qn o]. cbn [node offset] in *. subst qn.
  destruct (_ =? 1)%Z; eexists; split; reflexivity.
Qed.

Lemma setEnd_landed (tcb : bool) (range : Range) (q : DomPosition) :
  landed tcb q -> exists r, setEnd range (node q) (offset q) = Ret r.
Proof.
  intros [[n [Hn [_ Hle]]] [m [Hm Ht]]]. rewrite Hn in Hm. inv Hm.
  unfold setEnd. rewrite Hn, Ht. apply Nat.ltb_ge in Hle. rewrite Hle.
  destruct (_ =? -1)%Z; eexists; reflexivity.
Qed.

(** X20. In a well-formed document [selectCharacters] returns a range for
    every container node that is no document type node and all indexes
    [0 <= startIndex <= endIndex], also indexes beyond the characters there
    are: both moves end, nothing raises, and the positions they arrive at are
    positions the host range accepts as boundaries. *)
Theorem selectCharacters_returns (tcb : bool) (containerNode : Loc) (startIndex endIndex : Z)
        (co : option CharacterOptions) :
  htmlDocument tcb (documentOf containerNode) = true ->
  nodeType containerNode <> 10 ->
  (0 <= startIndex)%Z -> (startIndex <= endIndex)%Z ->
  exists r, selectCharacters tcb containerNode startIndex endIndex co = Ret r.
Proof.
  intros Hd Ht Hi Hj.
  assert (Hl : landed tcb (posAt containerNode 0)).
  { split; [apply good_at; [exact Hd | lia]|]. exists containerNode.
    split; [reflexivity | apply Nat.eqb_neq; exact Ht]. }
  unfold selectCharacters, moveStart, moveEnd, moveBoundary. cbn iota.
  set (characterOptions := createOptions _ defaultCharacterOptions).
  set (wordOptions := createWordOptions _).
  destruct (movePositionBy_forward tcb (posAt containerNode 0) startIndex characterOptions
              wordOptions Hi Hl) as [mr [q [Hm [Hq Hlq]]]].
  change (getRangeStartPosition (collapse (selectNodeContents containerNode) true))
    with (posAt containerNode 0).
  rewrite Hm. cbn [bind]. rewrite Hq.
  destruct (setStart_landed tcb (collapse (selectNodeContents containerNode) true) q Hlq)
    as [r1 [Hr1 Hs1]].
  rewrite Hr1. cbn [bind].
  assert (He : getRangeEndPosition (collapse r1 true) = q) by exact Hs1.
  rewrite He.
  destruct (movePositionBy_forward tcb q (endIndex - startIndex) characterOptions
              wordOptions ltac:(lia) Hlq) as [mr2 [q2 [Hm2 [Hq2 Hlq2]]]].
  rewrite Hm2. cbn [bind]. rewrite Hq2.
  destruct (setEnd_landed tcb (collapse r1 true) q2 Hlq2) as [r2 Hr2].
  rewrite Hr2. cbn [bind]. eauto.
Qed.

Lemma selectCharacters_returns_witness :
  exists r, selectCharacters false doubleSpaceDiv 1 7 None = Ret r.
Proof.
  apply (selectCharacters_returns false doubleSpaceDiv 1 7 None).
  - vm_compute. reflexivity.
  - vm_compute. lia.
  - lia.
  - lia.
Defined.

(** ** Moving back from the first position *)

Lemma previousVisiblePosition_first (tcb : bool) (n : Loc) :
  parentNode n = None -> previousVisiblePosition tcb (Some (posAt n 0)) = Ret None.
Proof.
  intros Hp. unfold previousVisiblePosition, previousPosition. cbn [node offset posAt].
  rewrite Hp. reflexivity.
Qed.

Lemma iteratorNext_first (tcb : bool) (n : Loc) (co : CharacterOptions) :
  parentNode n = None ->
  exists it, iteratorNext tcb (mkIterator true None co (Some (posAt n 0)) false None false)
             = Ret (None, it).
Proof.
  intros Hp. unfold iteratorNext. cbn [returnPreviousTextPos].
  unfold iteratorFuel, posFuel. cbn [pos node posAt]. unfold walkFuel.
  replace (2 * positionCount (documentOf n) + 2) with (S (S (2 * positionCount (documentOf n))))
    by lia.
  cbn [iteratorNextLoop]. unfold iteratorStep at 1.
  cbn [finished backward negb pos bind endPos characterOptions].
  rewrite getCharacterAt_start. cbn [bind]. rewrite (previousVisiblePosition_first tcb n Hp).
  cbn [bind character truthy]. eexists. reflexivity.
Qed.

(** X21. [moveStart] and [moveEnd] by a negative number of characters
    raise a [TypeError] when the boundary they move is the first position of
    the document (offset 0 of a node without a parent): there is no position
    before it, [movePositionBy] answers with no position, and the boundary
    mover reads the node of that. *)
Theorem move_back_from_first_position (tcb : bool) (isStart : bool) (range : Range) (n : Loc)
        (count : Z) (mo : option MoveOptions) :
  (if isStart then getRangeStartPosition range else getRangeEndPosition range) = posAt n 0 ->
  parentNode n = None ->
  (count < 0)%Z ->
  moveBoundary tcb isStart false range CHARACTER count mo = Throw TypeError.
Proof.
  intros Hpos Hp Hc. unfold moveBoundary. cbn iota. rewrite Hpos.
  unfold movePositionBy.
  assert (E0 : (count =? 0)%Z = false) by (apply Z.eqb_neq; lia).
  assert (E1 : (count <? 0)%Z = true) by (apply Z.ltb_lt; exact Hc).
  rewrite E0, E1. cbn [negb].
  change (String.eqb CHARACTER CHARACTER) with true. cbn iota.
  unfold createCharacterIterator. cbn [bind].
  replace (posFuel (posAt n 0) + 2) with (S (posFuel (posAt n 0) + 1)) by lia.
  cbn [moveCharacterLoop].
  destruct (iteratorNext_first tcb n
              (createOptions (moveCharacterOptions (createOptions mo defaultMoveOptions))
                 defaultCharacterOptions) Hp) as [it Hit].
  rewrite Hit. cbn [bind]. rewrite (previousVisiblePosition_first tcb n Hp). reflexivity.
Qed.

Lemma move_back_from_first_position_witness :
  moveBoundary false true false (createRange doubleSpaceDiv) CHARACTER (-1) None
  = Throw TypeError.
Proof.
  apply (move_back_from_first_position false true (createRange doubleSpaceDiv)
           (getDocument doubleSpaceDiv) (-1) None).
  - reflexivity.
  - reflexivity.
  - lia.
Defined.

(** ** Searching for the empty string *)

Lemma indexOf_empty (s : jsstring) : indexOf s [] = Some 0.
Proof. unfold indexOf. destruct s; reflexivity. Qed.

(** A match of length 0 has no last character. *)
Lemma handleMatch_empty (tcb : bool) (fo : FindOptions) (chars : list TextPosition) (i : nat)
      (fr : FindResult) :
  handleMatch tcb fo chars (Some i) (Some (i + 0)) = Ret fr -> i <> 0.
Proof.
  unfold handleMatch. intros H Hi. subst i.
  destruct (nth_error chars 0); [|discriminate]. unbind H. discriminate.
Qed.

Lemma findLoop_empty (tcb : bool) : forall fuel it backward fo st r st',
  findLoop tcb fuel it backward (StringTerm []) fo st = Ret (r, st') ->
  r = None /\ insideRegexMatch st' = insideRegexMatch st.
Proof.
  induction fuel as [|fuel IH]; intros it backward fo st r st' H; [discriminate|].
  cbn [findLoop] in H. unbind H. destruct a as [[t|] it1]; [|inv H; auto].
  cbn zeta in H. rewrite indexOf_empty in H. unbind H.
  apply handleMatch_empty in Hc0. congruence.
Qed.

Lemma findTextFromPosition_empty (tcb : bool) (p : option DomPosition) (scope : Range)
      (fo : FindOptions) (r : option FindResult) :
  findTextFromPosition tcb p (StringTerm []) scope fo = Ret r -> r = None.
Proof.
  unfold findTextFromPosition. intros H. destruct p as [p|]; [|discriminate].
  unbind H. unbind H. destruct a0 as [returnValue st].
  apply findLoop_empty in Hc0. destruct Hc0 as [-> Hi]. cbn [insideRegexMatch] in Hi.
  rewrite Hi in H. inv H. reflexivity.
Qed.

Lemma findTextLoop_empty (tcb : bool) : forall fuel range fo backward initialPos st b r,
  findTextLoop tcb fuel range (StringTerm []) fo backward initialPos st = Ret (b, r) ->
  b = false.
Proof.
  induction fuel as [|fuel IH]; intros range fo backward initialPos st b r H; [discriminate|].
  cbn [findTextLoop] in H. unbind H. destruct a as [returned|st1]; [|eapply IH; eassumption].
  inv H. unfold findTextTurn in Hc. unbind Hc.
  apply findTextFromPosition_empty in Hc0. subst a.
  destruct (wrap fo && negb (wrappedAround st)).
  - destruct backward; unbind Hc; discriminate.
  - inv Hc. reflexivity.
Qed.

(** X22. A search for the empty string never finds anything: whatever the
    range, the options and the direction, [findText] returns false when it
    returns (a match of length 0 has no last character for [handleMatch] to
    take the end position from). *)
Theorem empty_search_never_finds (tcb : bool) (range : Range) (fo : option FindOptions)
        (b : bool) (r : Range) :
  findText tcb range (StringTerm []) fo = Ret (b, r) -> b = false.
Proof.
  unfold findText. intros H.
  assert (E : prepareSearchTerm (StringTerm []) (prepareFindOptions fo) = StringTerm []).
  { unfold prepareSearchTerm. destruct (negb _); reflexivity. }
  rewrite E in H. eapply findTextLoop_empty. eassumption.
Qed.

Lemma empty_search_never_finds_witness :
  findText false (createRange (rootLoc emptyDivDoc)) (StringTerm []) None
  = Ret (false, createRange (rootLoc emptyDivDoc))
  /\ false = false.
Proof.
  assert (H : findText false (createRange (rootLoc emptyDivDoc)) (StringTerm []) None
              = Ret (false, createRange (rootLoc emptyDivDoc))) by (vm_compute; reflexivity).
  split; [exact H|].
  exact (empty_search_never_finds false _ _ _ _ H).
Defined.

(** Calls that raise a [TypeError] or nothing. *)
Definition typeErrors {A} (c : result A) : Prop := forall e, c = Throw e -> e = TypeError.

Lemma typeErrors_bind {A B} (c : result A) (k : A -> result B) :
  typeErrors c -> (forall a, c = Ret a -> typeErrors (k a)) -> typeErrors (bind c k).
Proof.
  unfold typeErrors. destruct c; simpl; intros Hc Hk e0 E;
    [eapply Hk; [reflexivity | exact E] | inv E; apply Hc; reflexivity | discriminate].
Qed.

Lemma typeErrors_Ret {A} (a : A) : typeErrors (Ret a).
Proof. intros e E. discriminate. Qed.

Lemma typeErrors_TypeError {A} : typeErrors (@Throw A TypeError).
Proof. intros e E. inv E. reflexivity. Qed.

Lemma typeErrors_OutOfFuel {A} : typeErrors (@OutOfFuel A).
Proof. intros e E. discriminate. Qed.

Ltac typeErrors_step :=
  match goal with
  | |- typeErrors (Ret _) => apply typeErrors_Ret
  | |- typeErrors (Throw TypeError) => apply typeErrors_TypeError
  | |- typeErrors OutOfFuel => apply typeErrors_OutOfFuel
  | |- typeErrors (bind _ _) => apply typeErrors_bind; [|intros ? ?]
  | |- typeErrors (match ?x with _ => _ end) => destruct x eqn:?
  end.

Lemma scanBefore_typeErrors (tcb : bool) (a : Loc) : forall fuel r,
  typeErrors (scanBefore tcb fuel a r).
Proof.
  induction fuel as [|fuel IH]; intros r; cbn [scanBefore]; repeat typeErrors_step. apply IH.
Qed.

Lemma scanAfter_typeErrors (tcb : bool) (stop : option Loc) : forall fuel r,
  typeErrors (scanAfter tcb fuel stop r).
Proof.
  induction fuel as [|fuel IH]; intros r; cbn [scanAfter]; repeat typeErrors_step. apply IH.
Qed.

Lemma isCollapsedNode_typeErrors (tcb : bool) (n : Loc) : typeErrors (isCollapsedNode tcb n).
Proof.
  unfold isCollapsedNode, isVisibilityHiddenTextNode, getComputedStyleProperty,
    isCollapsedWhitespaceNode.
  repeat (match goal with
          | |- typeErrors (scanBefore _ _ _ _) => apply scanBefore_typeErrors
          | |- typeErrors (scanAfter _ _ _ _) => apply scanAfter_typeErrors
          | _ => typeErrors_step
          end).
Qed.

Lemma previousVisiblePosition_typeErrors (tcb : bool) (p : option DomPosition) :
  typeErrors (previousVisiblePosition tcb p).
Proof.
  unfold previousVisiblePosition, previousPosition, isCollapsedNodeOf.
  repeat (match goal with
          | |- typeErrors (isCollapsedNode _ _) => apply isCollapsedNode_typeErrors
          | _ => typeErrors_step
          end).
Qed.

Lemma collectCharacters_first (tcb : bool) : forall fuel it acc chars,
  collectCharacters tcb fuel it acc = Ret chars -> length acc <= length chars.
Proof.
  induction fuel as [|fuel IH]; intros it acc chars H; [discriminate|].
  cbn [collectCharacters] in H. unbind H. destruct a as [[t|] it1].
  - apply IH in H. simpl in H. lia.
  - inv H. rewrite length_rev. lia.
Qed.

(** X23. A forward search for the empty string raises a [TypeError] as
    soon as there is a character to read between the position the search
    starts from and the end of its scope. *)
Theorem empty_search_raises (tcb : bool) (range : Range) (fo : option FindOptions) (n : Loc)
        (t : TextPosition) (chars : list TextPosition) :
  isDirectionBackward (direction (prepareFindOptions fo)) = false ->
  node (initialSearchPosition range (prepareFindOptions fo)) = Some n ->
  getRangeCharacters tcb
    (mkRange n (offset (initialSearchPosition range (prepareFindOptions fo)))
             (endContainer (initialSearchScope range (prepareFindOptions fo)))
             (endOffset (initialSearchScope range (prepareFindOptions fo))))
    (findOptionsAsCharacterOptions (prepareFindOptions fo)) = Ret (t :: chars) ->
  findText tcb range (StringTerm []) fo = Throw TypeError.
Proof.
  intros Hdir Hn Hchars. unfold findText.
  assert (E : prepareSearchTerm (StringTerm []) (prepareFindOptions fo) = StringTerm []).
  { unfold prepareSearchTerm. destruct (negb _); reflexivity. }
  rewrite E, Hdir. clear E.
  set (fo' := prepareFindOptions fo) in *.
  set (p := initialSearchPosition range fo') in *.
  set (scope := initialSearchScope range fo') in *.
  replace (posFuel p + 2) with (S (posFuel p + 1)) by lia.
  cbn [findTextLoop]. unfold findTextTurn, findTextFromPosition. cbn [searchPos searchScopeRange].
  rewrite Hdir.
  unfold getRangeCharacters, createRangeCharacterIterator in Hchars. unbind Hchars.
  assert (Hp : getRangeStartPosition
                 (mkRange n (offset p) (endContainer scope) (endOffset scope)) = p).
  { unfold getRangeStartPosition, posAt. cbn. destruct p as [pn po]. cbn in *. congruence. }
  cbn iota in Hc. rewrite Hp in Hc.
  change (getRangeEndPosition (mkRange n (offset p) (endContainer scope) (endOffset scope)))
    with (getRangeEndPosition scope) in Hc.
  rewrite Hc. cbn [bind].
  assert (Hnext : exists t' it', iteratorNext tcb a = Ret (Some t', it')).
  { replace (iteratorFuel a + 2) with (S (iteratorFuel a + 1)) in Hchars by lia.
    cbn [collectCharacters] in Hchars. unbind Hchars. destruct a0 as [[t'|] it']; [eauto|].
    inv Hchars. }
  destruct Hnext as [t' [it' Hnext]].
  replace (posFuel p + 2) with (S (posFuel p + 1)) by lia.
  cbn [findLoop]. rewrite Hnext. cbn [bind]. cbn zeta. rewrite indexOf_empty.
  unfold handleMatch. cbn [findChars app nth_error length Nat.add].
  pose proof (previousVisiblePosition_ends tcb (Some (position t'))) as He.
  pose proof (previousVisiblePosition_typeErrors tcb (Some (position t'))) as Ht.
  destruct (previousVisiblePosition tcb (Some (position t'))) as [x|e|]; cbn.
  - reflexivity.
  - rewrite (Ht e eq_refl). reflexivity.
  - destruct (He eq_refl).
Qed.

Lemma empty_search_raises_witness :
  findText false (createRange doubleSpaceDiv) (StringTerm []) None = Throw TypeError.
Proof.
  apply (empty_search_raises false (createRange doubleSpaceDiv) None
           (getDocument doubleSpaceDiv)
           (mkTextPosition [97%N] (posAt doubleSpaceText 1) false false false false)
           (tl (match getRangeCharacters false (selectNodeContents (getDocument doubleSpaceDiv))
                        (mkCharacterOptions false false) with
                | Ret l => l | _ => [] end))).
  - reflexivity.
  - reflexivity.
  - vm_compute. reflexivity.
Defined.

(** ** No character of visible text is lost *)




Section Coverage.

Variable tcb : bool.
Variable opts : CharacterOptions.
Variable c : Loc.
Hypothesis c_visible : isCollapsedNode tcb c = Ret false.
Hypothesis c_positions : containsPositions c = true.









End Coverage.




(** ** The text keeps the order of the document *)



